(** * The terminal local-link detector

    A shallow embedding of [TerminalLocalLinkDetector] (the path grammars,
    the line/column suffix grammar, the scanning loop of [detect], the
    process-wide validation cache and its clear timer), together with the
    part of the ECMAScript regular-expression semantics the grammars use. *)

From Stdlib Require Import String Ascii.
From stdpp Require Import gmap list fin_maps.

Set Default Proof Using "Type".

(** ** JavaScript strings

    A JavaScript string is a sequence of UTF-16 code units; [length],
    [indexOf], [startsWith], [substring] and a regular expression without
    the [u] flag all work on code units. *)

Abbreviation char := N (only parsing).
Abbreviation jsstring := (list N) (only parsing).

Definition str (s : string) : jsstring :=
  map N_of_ascii (list_ascii_of_string s).

(** The double-quote character. *)
Definition dquote : char := 34%N.
(** U+00A0, the non-breaking space. *)
Definition nbsp : char := 160%N.

Module JS.

(** [String.prototype.startsWith] (position 0). *)
Fixpoint startsWith (s search : jsstring) : bool :=
  match search, s with
  | [], _ => true
  | c :: search', d :: s' => (c =? d)%N && startsWith s' search'
  | _ :: _, [] => false
  end.

(** [String.prototype.substring(start)] for a non-negative [start]. *)
Definition substring (s : jsstring) (start : nat) : jsstring := drop start s.

(** [String.prototype.substring(start, end)] for [start <= end]. *)
Definition slice (s : jsstring) (from to : nat) : jsstring :=
  take (to - from) (drop from s).

(** First position, counted from [i], at which [search] occurs in [s]. *)
Fixpoint indexOf_from (s search : jsstring) (i : nat) : option nat :=
  if startsWith s search then Some i
  else match s with
       | [] => None
       | _ :: s' => indexOf_from s' search (S i)
       end.

(** [String.prototype.indexOf(search, position)]: the position is clamped
    to [0, length]; the result is [-1] when there is no occurrence. *)
Definition indexOf (s search : jsstring) (position : Z) : Z :=
  let k := Z.to_nat (Z.min (Z.max position 0) (Z.of_nat (length s))) in
  match indexOf_from (drop k s) search k with
  | Some i => Z.of_nat i
  | None => (-1)%Z
  end.

(** [Array.prototype.join]. *)
Fixpoint join (sep : jsstring) (parts : list jsstring) : jsstring :=
  match parts with
  | [] => []
  | [p] => p
  | p :: rest => p ++ sep ++ join sep rest
  end.

(** [s.replace(/c/g, by)] for a one-character pattern [c]. *)
Definition replaceAllChar (c : char) (by_ : jsstring) (s : jsstring) : jsstring :=
  flat_map (fun x => if (x =? c)%N then by_ else [x]) s.

End JS.

(** ** Regular expressions (ECMAScript, no flags but [g])

    The abstract syntax is what the pattern grammar of ECMA-262 produces
    for the constructs that occur in the patterns of this program. *)

Module RegExp.

(** [\d], [\s], [\S] and [\0]. *)
Inductive CharEscape := esc_d | esc_s | esc_S | esc_0.

Inductive ClassItem :=
| ci_char (c : char)
| ci_escape (e : CharEscape)
| ci_range (lo hi : char).

Inductive quantifier := q_star | q_plus | q_opt.

Inductive regex :=
| r_empty
| r_char (c : char)
| r_escape (e : CharEscape)
| r_class (invert : bool) (items : list ClassItem)
| r_seq (a b : regex)
| r_alt (a b : regex)
| r_quant (q : quantifier) (r : regex)
| r_group (r : regex)
| r_ngroup (r : regex)
| r_bol.

(** *** Parsing a pattern string *)

Definition c_of (a : ascii) : char := N_of_ascii a.

Definition is_syntax_char (c : char) : bool :=
  bool_decide (c ∈ str "^$\.*+?()[]{}|").

(** What follows a backslash, outside a class. *)
Definition parseAtomEscape (c : char) : option regex :=
  if (c =? c_of "d")%N then Some (r_escape esc_d)
  else if (c =? c_of "s")%N then Some (r_escape esc_s)
  else if (c =? c_of "S")%N then Some (r_escape esc_S)
  else if (c =? c_of "0")%N then Some (r_escape esc_0)
  else if is_syntax_char c || (c =? c_of "/")%N || (c =? c_of "~")%N
       then Some (r_char c)
  else None.

(** What follows a backslash, inside a class. *)
Definition parseClassEscape (c : char) : option ClassItem :=
  if (c =? c_of "d")%N then Some (ci_escape esc_d)
  else if (c =? c_of "s")%N then Some (ci_escape esc_s)
  else if (c =? c_of "S")%N then Some (ci_escape esc_S)
  else if (c =? c_of "0")%N then Some (ci_escape esc_0)
  else if is_syntax_char c || (c =? c_of "/")%N || (c =? c_of "~")%N
          || (c =? c_of "-")%N
       then Some (ci_char c)
  else None.

Definition item_char (i : ClassItem) : option char :=
  match i with ci_char c => Some c | _ => None end.

(** One class atom: an escape or a plain character. *)
Definition parseClassAtom (s : jsstring) : option (ClassItem * jsstring) :=
  match s with
  | [] => None
  | c :: s' =>
      if (c =? c_of "\")%N then
        match s' with
        | [] => None
        | e :: s'' => i ← parseClassEscape e; Some (i, s'')
        end
      else Some (ci_char c, s')
  end.

(** The items of a class, up to and including the closing bracket. *)
Fixpoint parseClassItems (fuel : nat) (s : jsstring)
  : option (list ClassItem * jsstring) :=
  match fuel with
  | O => None
  | S fuel' =>
      match s with
      | [] => None
      | c :: s' =>
          if (c =? c_of "]")%N then Some ([], s')
          else
            '(a, s1) ← parseClassAtom s;
            match s1 with
            | d :: s2 =>
                if (d =? c_of "-")%N then
                  match s2 with
                  | e :: _ =>
                      if (e =? c_of "]")%N then
                        '(rest, s3) ← parseClassItems fuel' s1;
                        Some (a :: rest, s3)
                      else
                        '(b, s3) ← parseClassAtom s2;
                        lo ← item_char a;
                        hi ← item_char b;
                        '(rest, s4) ← parseClassItems fuel' s3;
                        Some (ci_range lo hi :: rest, s4)
                  | [] => None
                  end
                else
                  '(rest, s3) ← parseClassItems fuel' s1;
                  Some (a :: rest, s3)
            | [] => None
            end
      end
  end.

Definition parseQuantifier (a : regex) (s : jsstring) : option (regex * jsstring) :=
  match s with
  | c :: s' =>
      if (c =? c_of "*")%N then
        match s' with
        | d :: _ => if (d =? c_of "?")%N then None else Some (r_quant q_star a, s')
        | [] => Some (r_quant q_star a, s')
        end
      else if (c =? c_of "+")%N then
        match s' with
        | d :: _ => if (d =? c_of "?")%N then None else Some (r_quant q_plus a, s')
        | [] => Some (r_quant q_plus a, s')
        end
      else if (c =? c_of "?")%N then
        match s' with
        | d :: _ => if (d =? c_of "?")%N then None else Some (r_quant q_opt a, s')
        | [] => Some (r_quant q_opt a, s')
        end
      else if (c =? c_of "{")%N then None
      else Some (a, s)
  | [] => Some (a, s)
  end.

(** Disjunction, Alternative and Term of the pattern grammar.  A
    Disjunction stops in front of a closing parenthesis or at the end. *)
Fixpoint parseDisjunction (fuel : nat) (s : jsstring) : option (regex * jsstring) :=
  match fuel with
  | O => None
  | S fuel' =>
      '(a, s1) ← parseAlternative fuel' s;
      match s1 with
      | c :: s2 =>
          if (c =? c_of "|")%N then
            '(b, s3) ← parseDisjunction fuel' s2;
            Some (r_alt a b, s3)
          else Some (a, s1)
      | [] => Some (a, s1)
      end
  end
with parseAlternative (fuel : nat) (s : jsstring) : option (regex * jsstring) :=
  match fuel with
  | O => None
  | S fuel' =>
      match s with
      | [] => Some (r_empty, s)
      | c :: _ =>
          if (c =? c_of "|")%N || (c =? c_of ")")%N then Some (r_empty, s)
          else
            '(t, s1) ← parseTerm fuel' s;
            '(rest, s2) ← parseAlternative fuel' s1;
            Some (match rest with r_empty => t | _ => r_seq t rest end, s2)
      end
  end
with parseTerm (fuel : nat) (s : jsstring) : option (regex * jsstring) :=
  match fuel with
  | O => None
  | S fuel' =>
      match s with
      | [] => None
      | c :: s' =>
          if (c =? c_of "^")%N then Some (r_bol, s')
          else if (c =? c_of "(")%N then
          match s' with
          | q :: s'' =>
              if (q =? c_of "?")%N then
                match s'' with
                | k :: s3 =>
                    if (k =? c_of ":")%N then
                      '(d, s1) ← parseDisjunction fuel' s3;
                      match s1 with
                      | e :: s2 =>
                          if (e =? c_of ")")%N then parseQuantifier (r_ngroup d) s2
                          else None
                      | [] => None
                      end
                    else None
                | [] => None
                end
              else
                '(d, s1) ← parseDisjunction fuel' s';
                match s1 with
                | e :: s2 =>
                    if (e =? c_of ")")%N then parseQuantifier (r_group d) s2
                    else None
                | [] => None
                end
          | [] => None
          end
        else if (c =? c_of "[")%N then
            match s' with
            | n :: s'' =>
                if (n =? c_of "^")%N then
                  '(items, s1) ← parseClassItems (length s) s'';
                  parseQuantifier (r_class true items) s1
                else
                  '(items, s1) ← parseClassItems (length s) s';
                  parseQuantifier (r_class false items) s1
            | [] => None
            end
          else if (c =? c_of "\")%N then
            match s' with
            | e :: s'' => a ← parseAtomEscape e; parseQuantifier a s''
            | [] => None
            end
          else if is_syntax_char c then None
          else parseQuantifier (r_char c) s'
      end
  end.

(** [new RegExp(pattern)]: the whole pattern must be one Disjunction. *)
Definition parse (pattern : jsstring) : option regex :=
  match parseDisjunction (3 * length pattern + 3) pattern with
  | Some (r, []) => Some r
  | _ => None
  end.

(** *** Matching (ECMA-262, 22.2.2 Pattern Semantics)

    A matcher takes a match state (an end index into the input and the
    captures) and a continuation, and returns the final state or failure.
    Backtracking is the order in which continuations are tried. *)

Record MatchState := mkState {
  endIndex : nat;
  captures : list (option (nat * nat))
}.

Definition Continuation := MatchState → option MatchState.
Definition Matcher := Continuation → Continuation.

(** WhiteSpace and LineTerminator code points. *)
Definition isWhiteSpace (c : char) : bool :=
  bool_decide (c ∈ [9; 10; 11; 12; 13; 32; 160; 5760; 8232; 8233; 8239; 8287; 12288; 65279]%N)
  || ((8192 <=? c)%N && (c <=? 8202)%N).

Definition isDigit (c : char) : bool := (48 <=? c)%N && (c <=? 57)%N.

Definition escape_matches (e : CharEscape) (c : char) : bool :=
  match e with
  | esc_d => isDigit c
  | esc_s => isWhiteSpace c
  | esc_S => negb (isWhiteSpace c)
  | esc_0 => (c =? 0)%N
  end.

Definition item_matches (i : ClassItem) (c : char) : bool :=
  match i with
  | ci_char d => (c =? d)%N
  | ci_escape e => escape_matches e c
  | ci_range lo hi => (lo <=? c)%N && (c <=? hi)%N
  end.

Definition class_matches (invert : bool) (items : list ClassItem) (c : char) : bool :=
  xorb invert (existsb (fun i => item_matches i c) items).

Definition quant_min (q : quantifier) : nat :=
  match q with q_star => 0 | q_plus => 1 | q_opt => 0 end.

Definition quant_max (q : quantifier) : option nat :=
  match q with q_star => None | q_plus => None | q_opt => Some 1 end.

(** The number of left-capturing parentheses of a pattern. *)
Fixpoint ngroups (r : regex) : nat :=
  match r with
  | r_seq a b | r_alt a b => ngroups a + ngroups b
  | r_quant _ r' | r_ngroup r' => ngroups r'
  | r_group r' => S (ngroups r')
  | _ => 0
  end.

(** Captures [parenIndex+1 .. parenIndex+parenCount] set to undefined. *)
Definition clear_captures (parenIndex parenCount : nat)
    (caps : list (option (nat * nat))) : list (option (nat * nat)) :=
  foldr (fun k acc => <[k := None]> acc) caps (seq (S parenIndex) parenCount).

Section Matching.
Variable input : jsstring.

Definition CharacterSetMatcher (A : char → bool) : Matcher := fun c x =>
  match input !! endIndex x with
  | Some ch => if A ch then c (mkState (S (endIndex x)) (captures x)) else None
  | None => None
  end.

(** RepeatMatcher for a greedy quantifier.  Every iteration lowers
    [min] or moves the end index forward, so [fuel] larger than
    [min + (length input - endIndex x)] is never used up. *)
Fixpoint RepeatMatcher (mm : Matcher) (fuel : nat) (min : nat) (max : option nat)
    (parenIndex parenCount : nat) (c : Continuation) (x : MatchState)
    {struct fuel} : option MatchState :=
  match max with
  | Some O => c x
  | _ =>
      match fuel with
      | O => None
      | S fuel' =>
          let d : Continuation := fun y =>
            if (min =? 0)%nat && (endIndex y =? endIndex x)%nat then None
            else RepeatMatcher mm fuel' (pred min) (pred <$> max)
                   parenIndex parenCount c y in
          let xr := mkState (endIndex x)
                      (clear_captures parenIndex parenCount (captures x)) in
          if (min =? 0)%nat then
            match mm d xr with
            | Some z => Some z
            | None => c x
            end
          else mm d xr
      end
  end.

Definition repeat_fuel (min : nat) (x : MatchState) : nat :=
  S (min + (length input - endIndex x)).

(** The matcher of a pattern; [parenIndex] is the number of
    left-capturing parentheses to the left of [r] in the whole pattern. *)
Fixpoint m (r : regex) (parenIndex : nat) (c : Continuation) (x : MatchState)
    {struct r} : option MatchState :=
  match r with
  | r_empty => c x
  | r_char ch => CharacterSetMatcher (N.eqb ch) c x
  | r_escape e => CharacterSetMatcher (escape_matches e) c x
  | r_class invert items => CharacterSetMatcher (class_matches invert items) c x
  | r_seq a b => m a parenIndex (m b (parenIndex + ngroups a) c) x
  | r_alt a b =>
      match m a parenIndex c x with
      | Some y => Some y
      | None => m b (parenIndex + ngroups a) c x
      end
  | r_quant q r' =>
      RepeatMatcher (m r' parenIndex) (repeat_fuel (quant_min q) x)
        (quant_min q) (quant_max q) parenIndex (ngroups r') c x
  | r_group r' =>
      m r' (S parenIndex)
        (fun y => c (mkState (endIndex y)
                       (<[S parenIndex := Some (endIndex x, endIndex y)]> (captures y))))
        x
  | r_ngroup r' => m r' parenIndex c x
  | r_bol => if (endIndex x =? 0)%nat then c x else None
  end.

(** The result of a successful [exec]: [index] is [match.index], the
    state holds the end of the match and the captures. *)
Record MatchResult := mkResult {
  index : nat;
  final : MatchState
}.

(** [match[0]]. *)
Definition matched (r : MatchResult) : jsstring :=
  JS.slice input (index r) (endIndex (final r)).

(** [match[k]] for a group [k >= 1]; [None] is [undefined]. *)
Definition group (r : MatchResult) (k : nat) : option jsstring :=
  match captures (final r) !! k with
  | Some (Some (a, b)) => Some (JS.slice input a b)
  | _ => None
  end.

Definition match_at (R : regex) (i : nat) : option MatchResult :=
  mkResult i <$> m R 0 Some (mkState i (replicate (S (ngroups R)) None)).

(** The first index of [idxs] at which the pattern matches. *)
Fixpoint first_match (R : regex) (idxs : list nat) : option MatchResult :=
  match idxs with
  | [] => None
  | i :: idxs' =>
      match match_at R i with
      | Some r => Some r
      | None => first_match R idxs'
      end
  end.

(** RegExpBuiltinExec of a global expression whose [lastIndex] is
    [lastIndex]: the match is tried at [lastIndex], [lastIndex + 1], ...
    up to the length of the input. *)
Definition exec (R : regex) (lastIndex : Z) : option MatchResult :=
  let i := Z.to_nat lastIndex in
  first_match R (seq i (S (length input) - i)).

End Matching.

(** *** Syntactic properties used to reason about matches *)

(** The set of characters a one-character pattern accepts. *)
Definition atom_pred (a : regex) : option (char → bool) :=
  match a with
  | r_char ch => Some (N.eqb ch)
  | r_escape e => Some (escape_matches e)
  | r_class invert items => Some (class_matches invert items)
  | _ => None
  end.

(** [must leaf r]: every match of [r] goes through a one-character
    pattern that [leaf] accepts. *)
Fixpoint must (leaf : regex → bool) (r : regex) : bool :=
  match r with
  | r_char _ | r_escape _ | r_class _ _ => leaf r
  | r_seq a b => must leaf a || must leaf b
  | r_alt a b => must leaf a && must leaf b
  | r_quant q_plus r' => must leaf r'
  | r_quant _ _ => false
  | r_group r' | r_ngroup r' => must leaf r'
  | r_empty | r_bol => false
  end.

Definition is_char (ch : char) (a : regex) : bool :=
  match a with r_char c => (c =? ch)%N | _ => false end.

Definition is_atom (a : regex) : bool :=
  match atom_pred a with Some _ => true | None => false end.

(** A matcher is local on [input] when it consults its continuation only
    at states between the current end index and the end of the input. *)
Definition local (input : jsstring) (mm : Matcher) : Prop :=
  ∀ c c' x, endIndex x ≤ length input →
    (∀ y, endIndex x ≤ endIndex y → endIndex y ≤ length input → c y = c' y) →
    mm c x = mm c' x.

(** A matcher is forward when a success of it is a success of its
    continuation, at a state that is not before the current one. *)
Definition forward (input : jsstring) (mm : Matcher) : Prop :=
  ∀ c x z, mm c x = Some z →
    ∃ y, endIndex x ≤ endIndex y ∧
         (endIndex x ≤ length input → endIndex y ≤ length input) ∧ c y = Some z.

(** The state in which an iteration of a quantified [r] starts. *)
Definition reset (pI : nat) (r : regex) (x : MatchState) : MatchState :=
  mkState (endIndex x) (clear_captures pI (ngroups r) (captures x)).

(** The continuation succeeds whenever it is tried at the end of [input],
    and ends there. *)
Definition good_at_end (input : jsstring) (c : Continuation) : Prop :=
  ∀ y, endIndex y = length input →
    ∃ z, c y = Some z ∧ length input ≤ endIndex z.

(** [nullable r]: [r] can match the empty string whatever follows. *)
Fixpoint nullable (r : regex) : bool :=
  match r with
  | r_empty => true
  | r_char _ | r_escape _ | r_class _ _ | r_bol => false
  | r_seq a b => nullable a && nullable b
  | r_alt a b => nullable a || nullable b
  | r_quant q_plus _ => false
  | r_quant _ _ => true
  | r_group r' | r_ngroup r' => nullable r'
  end.

End RegExp.

(** ** The grammars of the detector *)

Definition MaxLineLength : nat := 2000.

Definition pathPrefix : jsstring := str "(\.\.?|\~)".
Definition pathSeparatorClause : jsstring := str "\/".
Definition excludedPathCharactersClause : jsstring :=
  str "[^\0\s!`&*()\[\]'" ++ [dquote] ++ str ":;\\]".
Definition unixLocalLinkClause : jsstring :=
  str "((" ++ pathPrefix ++ str "|(" ++ excludedPathCharactersClause ++ str ")+)?("
    ++ pathSeparatorClause ++ str "(" ++ excludedPathCharactersClause ++ str ")+)+)".

Definition winDrivePrefix : jsstring := str "(?:\\\\\?\\)?[a-zA-Z]:".
Definition winPathPrefix : jsstring := str "(" ++ winDrivePrefix ++ str "|\.\.?|\~)".
Definition winPathSeparatorClause : jsstring := str "(\\|\/)".
Definition winExcludedPathCharactersClause : jsstring :=
  str "[^\0<>\?\|\/\s!`&*()\[\]'" ++ [dquote] ++ str ":;]".
Definition winLocalLinkClause : jsstring :=
  str "((" ++ winPathPrefix ++ str "|(" ++ winExcludedPathCharactersClause ++ str ")+)?("
    ++ winPathSeparatorClause ++ str "(" ++ winExcludedPathCharactersClause ++ str ")+)+)".

(** The six line/column forms, in the order of the source. *)
Definition lineAndColumnClauses : list jsstring := [
  str "((\S*)['" ++ [dquote] ++ str "], line ((\d+)( column (\d+))?))";
  str "((\S*)['" ++ [dquote] ++ str "],((\d+)(:(\d+))?))";
  str "((\S*) on line ((\d+)(, column (\d+))?))";
  str "((\S*):line ((\d+)(, column (\d+))?))";
  str "(([^\s\(\)]*)(\s?[\(\[](\d+)(,\s?(\d+))?)[\)\]])";
  str "(([^:\s\(\)<>'" ++ [dquote] ++ str "\[\]]*)(:(\d+))?(:(\d+))?)"
].

Definition lineAndColumnClause : jsstring :=
  JS.replaceAllChar 32%N (str "[" ++ [nbsp] ++ str " ]")
    (JS.join (str "|") lineAndColumnClauses).

Definition winLineAndColumnMatchIndex : nat := 12.
Definition unixLineAndColumnMatchIndex : nat := 11.
Definition lineAndColumnClauseGroupCount : nat := 6.

Inductive OperatingSystem := Windows | Macintosh | Linux.

(** The pattern string of the getter [_localLinkRegex]. *)
Definition localLinkPattern (os : OperatingSystem) : jsstring :=
  let baseLocalLinkClause :=
    match os with Windows => winLocalLinkClause | _ => unixLocalLinkClause end in
  baseLocalLinkClause ++ str "(" ++ lineAndColumnClause ++ str ")".

(** [new RegExp(this._localLinkRegex, 'g')].  Both patterns are well
    formed (see [localLinkPattern_parses]); the default is never used. *)
Definition _localLinkRegex (os : OperatingSystem) : RegExp.regex :=
  default RegExp.r_empty (RegExp.parse (localLinkPattern os)).

(** The pieces of the POSIX path grammar, as syntax.  [shellSpecial] and
    [excludedPathCharacters] are the class [excludedPathCharactersClause];
    [unix_shape] checks all of them against the parsed pattern. *)
Definition shellSpecial : jsstring := str "!`&*()[]'" ++ [dquote] ++ str ":;\".

Definition excludedPathCharacters : list RegExp.ClassItem :=
  RegExp.ci_escape RegExp.esc_0 :: RegExp.ci_escape RegExp.esc_s
    :: (RegExp.ci_char <$> shellSpecial).

Definition unixBody : RegExp.regex := RegExp.r_class true excludedPathCharacters.

Definition unixHead : RegExp.regex :=
  RegExp.r_group
    (RegExp.r_alt (default RegExp.r_empty (RegExp.parse pathPrefix))
       (RegExp.r_quant RegExp.q_plus (RegExp.r_group unixBody))).

Definition unixTail : RegExp.regex :=
  RegExp.r_quant RegExp.q_plus
    (RegExp.r_group
       (RegExp.r_seq (RegExp.r_char 47)
          (RegExp.r_quant RegExp.q_plus (RegExp.r_group unixBody)))).

(** The group [(\.\.[\/\\])] of the parent-traversal pattern. *)
Definition parentSegmentGroup : RegExp.regex :=
  RegExp.r_group
    (RegExp.r_seq (RegExp.r_char 46)
       (RegExp.r_seq (RegExp.r_char 46)
          (RegExp.r_class false [RegExp.ci_char 47; RegExp.ci_char 92]))).

(** The second half of [base(suffix)]: the group of the line/column forms. *)
Definition suffixOf (R : RegExp.regex) : RegExp.regex :=
  match R with RegExp.r_seq _ s => s | _ => RegExp.r_empty end.

(** The members of a disjunction [a|b|...]. *)
Fixpoint alternatives (r : RegExp.regex) : list RegExp.regex :=
  match r with
  | RegExp.r_alt a b => a :: alternatives b
  | _ => [r]
  end.

(** ** The POSIX path grammar in the words of the specification

    [(prefix|body+)?(separator body+)+] where [prefix] is [..?] or [~],
    [separator] is [/] and [body] is any character except NUL, whitespace
    and the shell-special set. *)
Definition is_body (c : char) : Prop :=
  c ≠ 0%N ∧ RegExp.isWhiteSpace c = false ∧ c ∉ shellSpecial.

Definition body_plus (s : jsstring) : Prop := s ≠ [] ∧ Forall is_body s.

Definition is_prefix (s : jsstring) : Prop :=
  s = str "." ∨ s = str ".." ∨ s = str "~".

Definition unix_path (p : jsstring) : Prop :=
  ∃ head segs,
    p = head ++ concat ((fun seg => 47%N :: seg) <$> segs) ∧
    (head = [] ∨ is_prefix head ∨ body_plus head) ∧
    segs ≠ [] ∧ Forall body_plus segs.

(** ** Parent traversal in the words of the specification

    A parent-traversal segment is [../] or [..\]; a text begins with
    parent traversal when it begins with one or more such segments, and
    stripping removes all the leading ones. *)
Definition isParentSegment (seg : jsstring) : bool :=
  bool_decide (seg = str "../" ∨ seg = str "..\").

Definition beginsWithParentTraversal (s : jsstring) : bool :=
  match s with
  | a :: b :: c :: _ => isParentSegment [a; b; c]
  | _ => false
  end.

Fixpoint stripParentTraversal (s : jsstring) : jsstring :=
  match s with
  | a :: b :: c :: rest =>
      if isParentSegment [a; b; c] then stripParentTraversal rest else s
  | _ => s
  end.

(** ** The collaborators of the detector

    The terminal buffer helpers, the path resolver's world and the URI
    identity service are outside the detector; they are taken as an
    interface. *)

Class Host := {
  URI : Type;
  Terminal : Type;
  BufferLines : Type;
  BufferRange : Type;
  Reason : Type;
  World : Type;
  (** [getXtermLineContent(xterm.buffer.active, startLine, endLine, xterm.cols)] *)
  getXtermLineContent : Terminal → Z → Z → jsstring;
  (** [convertLinkRangeToBuffer(lines, xterm.cols, range, startLine)], the
      range given by its start and end column on line 1 *)
  convertLinkRangeToBuffer : BufferLines → Terminal → Z * Z → Z → BufferRange;
  (** [_uriIdentityService.extUri.isEqualOrParent] *)
  isEqualOrParent : URI → URI → bool;
  (** [_workspaceContextService.getWorkspace().folders], as their URIs *)
  workspaceFolders : World → list URI
}.

Inductive TerminalLinkType :=
| LocalFile
| LocalFolderOutsideWorkspace
| LocalFolderInWorkspace.

Inductive Completion (E A : Type) :=
| Fulfilled (a : A)
| Rejected (e : E).
Arguments Fulfilled {E A} a.
Arguments Rejected {E A} e.

Section Detector.
Context `{H : Host}.

(** What the resolver answers and what the cache holds. *)
Record ValidatedLink := mkValidated {
  vl_uri : URI;
  vl_link : jsstring;
  vl_isDirectory : bool
}.

Record ITerminalSimpleLink := mkLink {
  text : jsstring;
  uri : URI;
  bufferRange : BufferRange;
  type : TerminalLinkType
}.

(** The timers of [window]: [pending] maps the handle of every armed
    timer to the time at which it fires.  The only callback this program
    registers is [() => cachedValidatedLinks.clear()]. *)
Record Window := mkWindow {
  now : N;
  nextHandle : nat;
  pending : gmap nat N
}.

Definition setTimeout (delay : N) (w : Window) : nat * Window :=
  (nextHandle w,
   mkWindow (now w) (S (nextHandle w)) (<[nextHandle w := (now w + delay)%N]> (pending w))).

Definition clearTimeout (handle : nat) (w : Window) : Window :=
  mkWindow (now w) (nextHandle w) (delete handle (pending w)).

(** The state shared by all detectors of the process: the module-level
    map [cachedValidatedLinks] ([None] is [null], a missing key is
    [undefined]), the timers, the resolver's world, and a log of the
    strings handed to [_resolvePath]. *)
Record Process := mkProcess {
  cachedValidatedLinks : gmap jsstring (option ValidatedLink);
  window : Window;
  world : World;
  resolverLog : list jsstring
}.

(** A detector instance.  [_resolvePath] answers with a validated link,
    with [undefined], or rejects. *)
Record Detector := mkDetector {
  xterm : Terminal;
  _os : OperatingSystem;
  _resolvePath : jsstring → World → Completion Reason (option ValidatedLink) * World;
  _cacheTilTimeout : nat;
  _enableCaching : bool
}.

(** The constructor: [_cacheTilTimeout = 0], [_enableCaching = true]. *)
Definition newDetector (xt : Terminal) (os : OperatingSystem)
    (resolve : jsstring → World → Completion Reason (option ValidatedLink) * World)
  : Detector :=
  mkDetector xt os resolve 0 true.

(** Asynchronous code over the process state: a computation ends
    fulfilled or rejected, and leaves a state either way. *)
Definition Async (A : Type) : Type := Process → Completion Reason A * Process.

Definition ret {A} (a : A) : Async A := fun p => (Fulfilled a, p).

Definition bind {A B} (c : Async A) (k : A → Async B) : Async B := fun p =>
  match c p with
  | (Fulfilled a, p') => k a p'
  | (Rejected e, p') => (Rejected e, p')
  end.

Notation "'await' x ← c ; k" := (bind c (fun x => k))
  (at level 100, x pattern, c at level 99, k at level 100, right associativity,
   format "'await'  x  ←  c ;  '/' k").

Definition cacheSet (k : jsstring) (v : option ValidatedLink) : Async unit := fun p =>
  (Fulfilled tt,
   mkProcess (<[k := v]> (cachedValidatedLinks p)) (window p) (world p) (resolverLog p)).

(** [await this._resolvePath(link)], for a pass that nothing interrupts:
    the answer is there at once, and nothing else runs at the await.  The
    passes that are suspended at this await are [validateSteps] below. *)
Definition callResolvePath (d : Detector) (link : jsstring)
  : Async (option ValidatedLink) := fun p =>
  let '(r, w) := _resolvePath d link (world p) in
  (r, mkProcess (cachedValidatedLinks p) (window p) w (resolverLog p ++ [link])).

Fixpoint _validateLinkCandidates (d : Detector) (linkCandidates : list jsstring)
  : Async (option ValidatedLink) :=
  match linkCandidates with
  | [] => ret None
  | link :: rest =>
      await result ← callResolvePath d link;
      match result with
      | Some r => ret (Some r)
      | None => _validateLinkCandidates d rest
      end
  end.

Definition _isDirectoryInsideWorkspace (u : URI) (p : Process) : bool :=
  existsb (fun folder => isEqualOrParent u folder) (workspaceFolders (world p)).

(** [/^(\.\.[\/\\])+/] *)
Definition parentTraversalPattern : jsstring := str "^(\.\.[\/\\])+".

(** [link.match(/^(\.\.[\/\\])+/)] and [link.replace(/^(\.\.[\/\\])+/, '')]
    with a regular expression that is not global: the first match, and
    the string with the first match cut out. *)
Definition matchParentTraversal (link : jsstring) : option RegExp.MatchResult :=
  R ← RegExp.parse parentTraversalPattern; RegExp.exec link R 0.

Definition replaceParentTraversal (link : jsstring) : jsstring :=
  match matchParentTraversal link with
  | Some r => take (RegExp.index r) link ++ drop (RegExp.endIndex (RegExp.final r)) link
  | None => link
  end.

Definition linkCandidates (link : jsstring) : list jsstring :=
  match matchParentTraversal link with
  | Some _ => [link; replaceParentTraversal link]
  | None => [link]
  end.

(** The test of lines 115-121: the line looks like a git diff. *)
Definition looksLikeDiff (text link : jsstring) (stringIndex : Z) : bool :=
  ((JS.startsWith text (str "--- a/") || JS.startsWith text (str "+++ b/"))
     && (stringIndex =? 4)%Z)
  || (JS.startsWith text (str "diff --git")
        && (JS.startsWith link (str "a/") || JS.startsWith link (str "b/"))).

Definition adjustDiff (text link : jsstring) (stringIndex : Z) : jsstring * Z :=
  if looksLikeDiff text link stringIndex
  then (JS.substring link 2, (stringIndex + 2)%Z)
  else (link, stringIndex).

Definition linkType (linkStat : ValidatedLink) (p : Process) : TerminalLinkType :=
  if vl_isDirectory linkStat then
    if _isDirectoryInsideWorkspace (vl_uri linkStat) p
    then LocalFolderInWorkspace else LocalFolderOutsideWorkspace
  else LocalFile.

(** The body of the [while] loop of [detect] from line 135 on, for the
    adjusted [link] and its [bufferRange].  The inner [const linkStat]
    of line 148 is a declaration of its own block: the outer [linkStat],
    read on line 156, keeps the value the cache gave. *)
Definition validateAndPush (d : Detector) (link : jsstring) (range : BufferRange)
    (links : list ITerminalSimpleLink) : Async (list ITerminalSimpleLink) := fun p =>
  let linkStat := cachedValidatedLinks p !! link in
  match linkStat with
  | Some None => (Fulfilled links, p)
  | _ =>
      (await _ ←
         match linkStat with
         | None =>
             await linkStat' ← _validateLinkCandidates d (linkCandidates link);
             if _enableCaching d then cacheSet link linkStat' else ret tt
         | Some _ => ret tt
         end;
       fun p' =>
         match linkStat with
         | Some (Some ls) =>
             (Fulfilled (links ++ [mkLink (vl_link ls) (vl_uri ls) range (linkType ls p')]), p')
         | _ => (Fulfilled links, p')
         end) p
  end.

(** The [while] loop of [detect]; [None] when [fuel] runs out. *)
Fixpoint detectLoop (fuel : nat) (d : Detector) (lines : BufferLines) (startLine : Z)
    (text : jsstring) (rex : RegExp.regex) (lastIndex stringIndex : Z)
    (links : list ITerminalSimpleLink) (p : Process)
  : option (Completion Reason (list ITerminalSimpleLink) * Process) :=
  match fuel with
  | O => None
  | S fuel' =>
      match RegExp.exec text rex lastIndex with
      | None => Some (Fulfilled links, p)
      | Some mt =>
          let link := RegExp.matched text mt in
          match link with
          | [] => Some (Fulfilled links, p)
          | _ :: _ =>
              let stringIndex := JS.indexOf text link (stringIndex + 1) in
              let lastIndex := (stringIndex + Z.of_nat (length link))%Z in
              if (stringIndex <? 0)%Z then Some (Fulfilled links, p)
              else
                let '(link, stringIndex) := adjustDiff text link stringIndex in
                let range :=
                  convertLinkRangeToBuffer lines (xterm d)
                    ((stringIndex + 1)%Z, (stringIndex + Z.of_nat (length link) + 1)%Z)
                    startLine in
                match validateAndPush d link range links p with
                | (Fulfilled links', p') =>
                    detectLoop fuel' d lines startLine text rex lastIndex stringIndex links' p'
                | (Rejected e, p') => Some (Rejected e, p')
                end
          end
      end
  end.

(** Lines 76-81: reset the cached link TTL. *)
Definition resetCacheTimeout (d : Detector) (w : Window) : Detector * Window :=
  if _enableCaching d then
    let w1 := if (_cacheTilTimeout d =? 0) then w else clearTimeout (_cacheTilTimeout d) w in
    let '(h, w2) := setTimeout 10000 w1 in
    (mkDetector (xterm d) (_os d) (_resolvePath d) h (_enableCaching d), w2)
  else (d, w).

(** [detect(lines, startLine, endLine)]: the detector after the call
    (its [_cacheTilTimeout] may have changed), the completion of the
    returned promise, and the process state. *)
Definition detect (d : Detector) (lines : BufferLines) (startLine endLine : Z) (p : Process)
  : option (Detector * Completion Reason (list ITerminalSimpleLink) * Process) :=
  let '(d1, w1) := resetCacheTimeout d (window p) in
  let p1 := mkProcess (cachedValidatedLinks p) w1 (world p) (resolverLog p) in
  let text := getXtermLineContent (xterm d1) startLine endLine in
  if bool_decide (text = []) || (MaxLineLength <? length text) then
    Some (d1, Fulfilled [], p1)
  else
    r ← detectLoop (length text + 2) d1 lines startLine text
           (_localLinkRegex (_os d1)) 0 (-1) [] p1;
    Some (d1, r.1, r.2).

(** The world after the resolver has answered [undefined] for every
    candidate of the list in turn; [None] when some answer is different. *)
Fixpoint resolveAllFail (d : Detector) (candidates : list jsstring) (w : World)
  : option World :=
  match candidates with
  | [] => Some w
  | c :: rest =>
      match _resolvePath d c w with
      | (Fulfilled None, w') => resolveAllFail d rest w'
      | _ => None
      end
  end.

(** *** The scanner inside [detect]

    The matches of the [while] loop do not depend on the cache or on the
    resolver.  [scanLoop] is the loop with lines 126-185 left out: for
    every iteration that reaches line 114 it records the matched text and
    the string index found for it, and both after the diff adjustment. *)
Record ScanItem := mkItem {
  rawLink : jsstring;
  rawIndex : Z;
  itemLink : jsstring;
  itemIndex : Z
}.

Fixpoint scanLoop (fuel : nat) (text : jsstring) (rex : RegExp.regex)
    (lastIndex stringIndex : Z) : option (list ScanItem) :=
  match fuel with
  | O => None
  | S fuel' =>
      match RegExp.exec text rex lastIndex with
      | None => Some []
      | Some mt =>
          let link := RegExp.matched text mt in
          match link with
          | [] => Some []
          | _ :: _ =>
              let stringIndex := JS.indexOf text link (stringIndex + 1) in
              let lastIndex := (stringIndex + Z.of_nat (length link))%Z in
              if (stringIndex <? 0)%Z then Some []
              else
                let '(link', stringIndex') := adjustDiff text link stringIndex in
                cons (mkItem link stringIndex link' stringIndex')
                  <$> scanLoop fuel' text rex lastIndex stringIndex'
          end
      end
  end.

Definition scan (os : OperatingSystem) (text : jsstring) : option (list ScanItem) :=
  scanLoop (length text + 2) text (_localLinkRegex os) 0 (-1).

(** Lines 126-185 for one scanned item. *)
Definition processItem (d : Detector) (lines : BufferLines) (startLine : Z)
    (it : ScanItem) (links : list ITerminalSimpleLink) : Async (list ITerminalSimpleLink) :=
  validateAndPush d (itemLink it)
    (convertLinkRangeToBuffer lines (xterm d)
       ((itemIndex it + 1)%Z, (itemIndex it + Z.of_nat (length (itemLink it)) + 1)%Z)
       startLine)
    links.

Fixpoint processItems (d : Detector) (lines : BufferLines) (startLine : Z)
    (items : list ScanItem) (links : list ITerminalSimpleLink)
  : Async (list ITerminalSimpleLink) :=
  match items with
  | [] => ret links
  | it :: rest =>
      await links' ← processItem d lines startLine it links;
      processItems d lines startLine rest links'
  end.

(** *** The process: several detectors, one cache, the timers *)

Record System := mkSystem {
  proc : Process;
  detectors : list Detector
}.

Inductive Event :=
| ev_detect (i : nat) (lines : BufferLines) (startLine endLine : Z)
| ev_elapse (dt : N).

(** A timer is due when its time has come. *)
Definition due (t : N) (w : Window) : bool := (t <=? now w)%N.

(** The armed timers that are due fire: each is removed and runs
    [cachedValidatedLinks.clear()]. *)
Definition fireTimers (p : Process) : Process :=
  let w := window p in
  let fired := filter (fun ht => due ht.2 w = true) (pending w) in
  if bool_decide (fired = ∅) then p
  else mkProcess ∅
         (mkWindow (now w) (nextHandle w) (filter (fun ht => due ht.2 w = false) (pending w)))
         (world p) (resolverLog p).

Definition elapse (dt : N) (p : Process) : Process :=
  let w := window p in
  fireTimers (mkProcess (cachedValidatedLinks p)
                (mkWindow (now w + dt) (nextHandle w) (pending w))
                (world p) (resolverLog p)).

(** One event of the process.  A detection pass runs without other
    passes or timer callbacks in between. *)
Definition step (s : System) (e : Event) : option System :=
  match e with
  | ev_detect i lines startLine endLine =>
      d ← detectors s !! i;
      r ← detect d lines startLine endLine (proc s);
      Some (mkSystem r.2 (<[i := r.1.1]> (detectors s)))
  | ev_elapse dt => Some (mkSystem (elapse dt (proc s)) (detectors s))
  end.

Fixpoint run (s : System) (es : list Event) : option System :=
  match es with
  | [] => Some s
  | e :: es' => s' ← step s e; run s' es'
  end.

Definition initialWindow : Window := mkWindow 0 1 ∅.

Definition initialProcess (w : World) : Process := mkProcess ∅ initialWindow w [].

End Detector.

Arguments Async {H} A.
Arguments ValidatedLink {H}.
Arguments ITerminalSimpleLink {H}.
Arguments Detector {H}.
Arguments Process {H}.
Arguments System {H}.
Arguments Event {H}.
Arguments ScanItem : clear implicits.

(** ** A concrete host for the examples

    The terminal is the text of its logical line, a buffer range is the
    column pair it was computed from, a URI is a path string, and the
    workspace has the single folder [/ws]. *)

Definition exampleHost : Host := {|
  URI := jsstring;
  Terminal := jsstring;
  BufferLines := unit;
  BufferRange := Z * Z;
  Reason := jsstring;
  World := unit;
  getXtermLineContent := fun t _ _ => t;
  convertLinkRangeToBuffer := fun _ _ r _ => r;
  isEqualOrParent := fun u folder => JS.startsWith u folder;
  workspaceFolders := fun _ => [str "/ws"]
|}.

Section Examples.
Existing Instance exampleHost.

Definition jseqb (a b : jsstring) : bool := bool_decide (a = b).

(** A resolver that finds the paths of [known] as files (canonical text
    [/ws/] followed by the path), rejects on the paths of [broken], and
    finds nothing else. *)
Definition resolver (known broken : list jsstring) (link : jsstring) (w : unit)
  : Completion jsstring (option ValidatedLink) * unit :=
  if existsb (jseqb link) broken then (Rejected (str "EIO"), w)
  else if existsb (jseqb link) known
       then (Fulfilled
               (Some (mkValidated (str "file:///ws/" ++ link) (str "/ws/" ++ link) false)),
             w)
       else (Fulfilled None, w).

Definition detectorOn (line : jsstring) (known broken : list jsstring) : Detector :=
  newDetector line Linux (resolver known broken).

(** The file the example resolver finds for a path. *)
Definition fileAt (link : jsstring) : ValidatedLink :=
  mkValidated (str "file:///ws/" ++ link) (str "/ws/" ++ link) false.

(** A process whose cache is [cache], at time 0 with no timer armed. *)
Definition processWith (cache : gmap jsstring (option ValidatedLink)) : Process :=
  mkProcess cache initialWindow tt [].

(** A process with an empty cache in which the resolver was asked [log]. *)
Definition logged (log : list jsstring) : Process :=
  mkProcess ∅ initialWindow tt log.

(** What a call of [detect] shows: the completion of the promise, the
    strings the resolver was asked, and the cache as a list. *)
Definition observe
    (r : option (Detector * Completion jsstring (list ITerminalSimpleLink) * Process))
  : option (Completion jsstring (list ITerminalSimpleLink) * list jsstring
            * list (jsstring * option ValidatedLink)) :=
  (fun r => (r.1.2, resolverLog r.2, map_to_list (cachedValidatedLinks r.2))) <$> r.

(** Two calls of [detect] in a row by the same detector. *)
Definition detectTwice (d : Detector) (p : Process) :=
  r ← detect d tt 0 0 p; detect r.1.1 tt 0 0 r.2.

(** [/a/b] followed by [n] spaces. *)
Definition paddedLine (n : nat) : jsstring := str "/a/b" ++ replicate n 32%N.

(** Two detectors and no timer to begin with. *)
Definition twoDetectors : System :=
  mkSystem (initialProcess tt)
    [detectorOn (str "a/b") [str "a/b"] []; detectorOn (str "c/d") [str "c/d"] []].

(** A detection pass of detector [i]. *)
Definition passOf (i : nat) : Event := ev_detect i tt 0 0.

(** For every handle given out so far, the time at which its timer fires
    if it is armed. *)
Definition armed (s : System) : list (option N) :=
  (fun h => pending (window (proc s)) !! h) <$> seq 1 (nextHandle (window (proc s)) - 1).

(** The size of the cache and its entries for [keys]. *)
Definition cacheAt (s : System) (keys : list jsstring)
  : nat * list (option (option ValidatedLink)) :=
  (size (cachedValidatedLinks (proc s)),
   (fun k => cachedValidatedLinks (proc s) !! k) <$> keys).

(** A folder the cache may hold: its URI and its canonical text are the
    path. *)
Definition folderAt (path : jsstring) : ValidatedLink := mkValidated path path true.

(** What a call of [detect] returns. *)
Definition passResult (d : Detector) (p : Process)
  : Detector * Completion jsstring (list ITerminalSimpleLink) * Process :=
  default (d, Fulfilled [], p) (detect d tt 0 0 p).

End Examples.

(** ** Notions used to state the properties *)

(** Two scanned items overlap when each starts before the other ends. *)
Definition itemEnd (it : ScanItem) : Z :=
  (itemIndex it + Z.of_nat (length (itemLink it)))%Z.

Definition overlaps (a b : ScanItem) : Prop :=
  (itemIndex a < itemEnd b)%Z ∧ (itemIndex b < itemEnd a)%Z.

(** The bodies of the capturing groups of a pattern, in the order of
    their opening parentheses: the body of group [k] is at position
    [k - 1]. *)
Fixpoint groupsOf (r : RegExp.regex) : list RegExp.regex :=
  match r with
  | RegExp.r_seq a b | RegExp.r_alt a b => groupsOf a ++ groupsOf b
  | RegExp.r_quant _ r' | RegExp.r_ngroup r' => groupsOf r'
  | RegExp.r_group r' => r' :: groupsOf r'
  | _ => []
  end.

Definition groupBody (R : RegExp.regex) (k : nat) : option RegExp.regex :=
  match k with O => None | S k' => groupsOf R !! k' end.

(** [\d+] *)
Definition digits : RegExp.regex :=
  RegExp.r_quant RegExp.q_plus (RegExp.r_escape RegExp.esc_d).

(** [lineAndColumnClause], parsed on its own. *)
Definition lineAndColumnRegex : RegExp.regex :=
  default RegExp.r_empty (RegExp.parse lineAndColumnClause).

(** [new RegExp(pattern).exec(text)] as the list [match[0], match[1], ...];
    [None] when the pattern is not well formed or does not match. *)
Definition execAll (pattern text : jsstring) : option (list (option jsstring)) :=
  R ← RegExp.parse pattern;
  r ← RegExp.exec text R 0;
  Some (Some (RegExp.matched text r)
          :: ((fun k => RegExp.group text r k) <$> seq 1 (RegExp.ngroups R))).

(** [match[k]] for the indices [ks], for the first match of the pattern of
    [os] in [text]. *)
Definition groupsAt (os : OperatingSystem) (text : jsstring) (ks : list nat)
  : list (option jsstring) :=
  match RegExp.exec text (_localLinkRegex os) 0 with
  | Some r => (fun k => match k with O => Some (RegExp.matched text r)
                                   | _ => RegExp.group text r k end) <$> ks
  | None => []
  end.

Section Invariants.
Context `{H : Host}.

(** Every armed timer is the one whose handle some detector holds. *)
Definition timers_owned (s : System) : Prop :=
  ∀ h t, pending (window (proc s)) !! h = Some t →
    ∃ i d, detectors s !! i = Some d ∧ _cacheTilTimeout d = h.

(** Handles are positive and below the next handle of the window. *)
Definition handles_fresh (s : System) : Prop :=
  (∀ h t, pending (window (proc s)) !! h = Some t →
     0 < h < nextHandle (window (proc s))) ∧
  (∀ i d, detectors s !! i = Some d →
     _cacheTilTimeout d < nextHandle (window (proc s))).

End Invariants.

(** The separators of the path grammar of a platform: [pathSeparatorClause]
    is [/], [winPathSeparatorClause] is [\] or [/]. *)
Definition isSeparator (os : OperatingSystem) (c : char) : bool :=
  match os with
  | Windows => (c =? 92)%N || (c =? 47)%N
  | _ => (c =? 47)%N
  end.

(** The one-character patterns [r_char c] with [P c]. *)
Definition char_where (P : char → bool) (a : RegExp.regex) : bool :=
  match a with RegExp.r_char c => P c | _ => false end.

(** The pieces of the Windows path grammar, as syntax; [win_shape] checks
    them against the parsed pattern. *)
Definition winExcluded : jsstring := str "<>?|/!`&*()[]'" ++ [dquote] ++ str ":;".

Definition winExcludedPathCharacters : list RegExp.ClassItem :=
  RegExp.ci_escape RegExp.esc_0
    :: (RegExp.ci_char <$> str "<>?|/")
    ++ RegExp.ci_escape RegExp.esc_s
    :: (RegExp.ci_char <$> (str "!`&*()[]'" ++ [dquote] ++ str ":;")).

Definition winBody : RegExp.regex := RegExp.r_class true winExcludedPathCharacters.

Definition winSeparator : RegExp.regex :=
  RegExp.r_group (RegExp.r_alt (RegExp.r_char 92) (RegExp.r_char 47)).

(** [winDrivePrefix]: an optional [\\?\] (in the pattern, each backslash
    escaped), a letter and a colon. *)
Definition winDrive : RegExp.regex :=
  RegExp.r_seq
    (RegExp.r_quant RegExp.q_opt
       (RegExp.r_ngroup
          (RegExp.r_seq (RegExp.r_char 92)
             (RegExp.r_seq (RegExp.r_char 92)
                (RegExp.r_seq (RegExp.r_char 63) (RegExp.r_char 92))))))
    (RegExp.r_seq
       (RegExp.r_class false [RegExp.ci_range 97 122; RegExp.ci_range 65 90])
       (RegExp.r_char 58)).

Definition winPrefix : RegExp.regex :=
  RegExp.r_group
    (RegExp.r_alt winDrive
       (RegExp.r_alt
          (RegExp.r_seq (RegExp.r_char 46) (RegExp.r_quant RegExp.q_opt (RegExp.r_char 46)))
          (RegExp.r_char 126))).

Definition winHead : RegExp.regex :=
  RegExp.r_group
    (RegExp.r_alt winPrefix (RegExp.r_quant RegExp.q_plus (RegExp.r_group winBody))).

Definition winTail : RegExp.regex :=
  RegExp.r_quant RegExp.q_plus
    (RegExp.r_group
       (RegExp.r_seq winSeparator (RegExp.r_quant RegExp.q_plus (RegExp.r_group winBody)))).

(** The Windows paths of the properties below: an optional drive,
    [C:] or [\\?\C:], followed by body characters of the Windows
    grammar (any character except NUL, whitespace and [winExcluded]; the
    backslash is one of them) among which a backslash is followed by
    something; after a drive the first of them is a backslash. *)
Definition is_win_body (c : char) : Prop :=
  c ≠ 0%N ∧ RegExp.isWhiteSpace c = false ∧ c ∉ winExcluded.

Definition isDriveLetter (c : char) : bool :=
  ((97 <=? c)%N && (c <=? 122)%N) || ((65 <=? c)%N && (c <=? 90)%N).

Definition is_drive (s : jsstring) : Prop :=
  ∃ letter, isDriveLetter letter = true ∧
    (s = [letter; 58%N] ∨ s = str "\\?\" ++ [letter; 58%N]).

Definition win_path (p : jsstring) : Prop :=
  ∃ drive rest,
    p = drive ++ rest ∧
    (drive = [] ∨ (is_drive drive ∧ head rest = Some 92%N)) ∧
    Forall is_win_body rest ∧
    ∃ j, rest !! j = Some 92%N ∧ S j < length rest.

(** The continuation succeeds, with a result in [Q], whenever it is
    tried at index [n] with [N] captures. *)
Definition good_at (n N : nat) (c : RegExp.Continuation)
    (Q : RegExp.MatchState → Prop) : Prop :=
  ∀ y, RegExp.endIndex y = n → length (RegExp.captures y) = N →
    ∃ z, c y = Some z ∧ Q z.

(** [atoms_all leaf r]: every one-character pattern of [r] is in [leaf]. *)
Fixpoint atoms_all (leaf : RegExp.regex → bool) (r : RegExp.regex) : bool :=
  match r with
  | RegExp.r_char _ | RegExp.r_escape _ | RegExp.r_class _ _ => leaf r
  | RegExp.r_seq a b | RegExp.r_alt a b => atoms_all leaf a && atoms_all leaf b
  | RegExp.r_quant _ r' | RegExp.r_group r' | RegExp.r_ngroup r' => atoms_all leaf r'
  | RegExp.r_empty | RegExp.r_bol => true
  end.

(** The one-character patterns that accept none of [chars]. *)
Definition rejects (chars : jsstring) (a : RegExp.regex) : bool :=
  match RegExp.atom_pred a with
  | Some A => forallb (fun ch => negb (A ch)) chars
  | None => false
  end.

(** The sixth line/column form, a run of characters other than the colon
    and some more, then up to two blocks of a colon and digits, as syntax;
    [sixth_shape] checks it against the parsed pattern. *)
Definition positionBlock : RegExp.regex :=
  RegExp.r_quant RegExp.q_opt
    (RegExp.r_group (RegExp.r_seq (RegExp.r_char 58) (RegExp.r_group digits))).

Definition sixthFormPath : RegExp.regex :=
  RegExp.r_class true
    (RegExp.ci_char 58 :: RegExp.ci_escape RegExp.esc_s
       :: (RegExp.ci_char <$> (str "()<>'" ++ [dquote] ++ str "[]"))).

Definition sixthForm : RegExp.regex :=
  RegExp.r_group
    (RegExp.r_seq (RegExp.r_group (RegExp.r_quant RegExp.q_star sixthFormPath))
       (RegExp.r_seq positionBlock positionBlock)).

(** The forms before the sixth. *)
Definition firstForms : list RegExp.regex := take 5 (alternatives lineAndColumnRegex).

(** A line number or column number, and the suffix [:line] or
    [:line:column]. *)
Definition digit_string (s : jsstring) : Prop :=
  s ≠ [] ∧ Forall (fun ch => RegExp.isDigit ch = true) s.

Definition positionSuffix (line : jsstring) (column : option jsstring) : jsstring :=
  str ":" ++ line ++ match column with Some c => str ":" ++ c | None => [] end.

Section Pass.
Context `{H : Host}.

(** The buffer range computed for a scanned item (lines 127-132). *)
Definition rangeOf (d : Detector) (lines : BufferLines) (startLine : Z) (it : ScanItem)
  : BufferRange :=
  convertLinkRangeToBuffer lines (xterm d)
    ((itemIndex it + 1)%Z, (itemIndex it + Z.of_nat (length (itemLink it)) + 1)%Z)
    startLine.

(** The link of an item whose text the cache maps to a validated link;
    nothing for NOT_FOUND or a missing entry. *)
Definition linkFromCache (d : Detector) (lines : BufferLines) (startLine : Z)
    (p : Process) (it : ScanItem) : list ITerminalSimpleLink :=
  match cachedValidatedLinks p !! itemLink it with
  | Some (Some ls) =>
      [mkLink (vl_link ls) (vl_uri ls) (rangeOf d lines startLine it) (linkType ls p)]
  | _ => []
  end.

(** The state in which the loop of [detect] starts: the process after
    the timer reset of lines 76-81. *)
Definition afterReset (d : Detector) (p : Process) : Process :=
  mkProcess (cachedValidatedLinks p) (resetCacheTimeout d (window p)).2
    (world p) (resolverLog p).

End Pass.

(** ** Passes that are suspended at their awaits

    [detect] is an async function.  At [await this._resolvePath(link)]
    (line 210) and at [await this._validateLinkCandidates(...)] (line 148)
    the pass is suspended, and until it is resumed the callbacks of the
    timers and the other passes of the process run on the shared cache.
    [callResolvePath] and [detect] above describe a pass that nothing
    interrupts.  Here a pass is cut at its awaits: it runs up to the next
    await, hands the state back, and goes on from the state it finds when
    it is resumed.

    The matches of the [while] loop depend on the line alone, which is
    read once on line 84, so the loop is taken over the scanned items. *)

Section Interleaving.
Context `{H : Host}.

(** A pass at rest: finished with the completion of the returned
    promise, or suspended at an await.  [asked] is the string handed to
    [_resolvePath] just before the suspension of line 210, and nothing
    at the suspension of line 148; [resume] is the rest of the pass up to
    its next await, run on the state it finds. *)
#[warnings="-register-all"]
Inductive Pass :=
| Finished (r : Completion Reason (list ITerminalSimpleLink))
| Suspended (asked : option jsstring) (resume : Process → Pass * Process).

(** [_validateLinkCandidates] over [linkCandidates], followed by the rest
    [k] of the caller from line 149 on.  The resolver is called and the
    pass is suspended until the answer is there; the caller is suspended
    on the promise of [_validateLinkCandidates] and goes on, or takes the
    rejection, when it is resumed. *)
Fixpoint validateSteps (d : Detector) (linkCandidates : list jsstring)
    (k : option ValidatedLink → Process → Pass * Process) (p : Process)
  : Pass * Process :=
  match linkCandidates with
  | [] => (Suspended None (k None), p)
  | link :: rest =>
      let '(r, w) := _resolvePath d link (world p) in
      (Suspended (Some link)
         (fun p' =>
            match r with
            | Fulfilled (Some result) => (Suspended None (k (Some result)), p')
            | Fulfilled None => validateSteps d rest k p'
            | Rejected e =>
                (Suspended None (fun p'' => (Finished (Rejected e), p'')), p')
            end),
       mkProcess (cachedValidatedLinks p) (window p) w (resolverLog p ++ [link]))
  end.

(** Lines 149-151, on the state the pass finds after the await. *)
Definition stored (d : Detector) (link : jsstring) (linkStat : option ValidatedLink)
    (p : Process) : Process :=
  if _enableCaching d then (cacheSet link linkStat p).2 else p.

(** The loop of [detect] over the scanned items, lines 126-185.  As in
    [validateAndPush], the [linkStat] read on line 156 is the one the
    cache gave on line 135. *)
Fixpoint detectSteps (d : Detector) (lines : BufferLines) (startLine : Z)
    (items : list ScanItem) (links : list ITerminalSimpleLink) (p : Process)
  : Pass * Process :=
  match items with
  | [] => (Finished (Fulfilled links), p)
  | it :: rest =>
      match cachedValidatedLinks p !! itemLink it with
      | Some None => detectSteps d lines startLine rest links p
      | Some (Some ls) =>
          detectSteps d lines startLine rest
            (links ++ [mkLink (vl_link ls) (vl_uri ls) (rangeOf d lines startLine it)
                         (linkType ls p)]) p
      | None =>
          validateSteps d (linkCandidates (itemLink it))
            (fun linkStat p' =>
               detectSteps d lines startLine rest links (stored d (itemLink it) linkStat p'))
            p
      end
  end.

(** [detect(lines, startLine, endLine)] up to its first await: the
    detector after the timer reset, the pass at rest, and the state. *)
Definition detectStart (d : Detector) (lines : BufferLines) (startLine endLine : Z)
    (p : Process) : option (Detector * Pass * Process) :=
  let '(d1, w1) := resetCacheTimeout d (window p) in
  let p1 := mkProcess (cachedValidatedLinks p) w1 (world p) (resolverLog p) in
  let text := getXtermLineContent (xterm d1) startLine endLine in
  if bool_decide (text = []) || (MaxLineLength <? length text) then
    Some (d1, Finished (Fulfilled []), p1)
  else
    items ← scan (_os d1) text;
    Some (d1, (detectSteps d1 lines startLine items [] p1).1,
              (detectSteps d1 lines startLine items [] p1).2).

(** A pass run to its end.  Whenever the pass is suspended the rest of
    the process takes the state from [p] to some [q] with [R p q], and
    the pass is resumed on [q].  The run gives the completion of the
    promise, the strings this pass handed to the resolver, and the state
    at the end. *)
Inductive runsTo (R : Process → Process → Prop)
  : Pass → Process → Completion Reason (list ITerminalSimpleLink) → list jsstring →
    Process → Prop :=
| runs_finished r p : runsTo R (Finished r) p r [] p
| runs_resumed a resume p q c asked p' :
    R p q →
    runsTo R (resume q).1 (resume q).2 c asked p' →
    runsTo R (Suspended a resume) p c (option_list a ++ asked) p'.

(** Every resumption of the pass, on whatever state, takes the state
    from [q] to some [q'] with [G q q']. *)
Inductive steps_within (G : Process → Process → Prop) : Pass → Prop :=
| within_finished r : steps_within G (Finished r)
| within_suspended a resume :
    (∀ q, G q (resume q).2) →
    (∀ q, steps_within G (resume q).1) →
    steps_within G (Suspended a resume).

(** What one stretch of a pass of [d] over [items] may do to the timers
    and the cache: nothing to the timers, and to the cache nothing or,
    with caching enabled, set the entry of the text of one item. *)
Definition ownStep (d : Detector) (items : list ScanItem) (q q' : Process) : Prop :=
  window q' = window q ∧
  (cachedValidatedLinks q' = cachedValidatedLinks q ∨
   (_enableCaching d = true ∧
    ∃ it v, it ∈ items ∧
      cachedValidatedLinks q' = <[itemLink it := v]> (cachedValidatedLinks q))).

(** The rest of the process removes no cache entry and replaces none: no
    timer fires, and no other pass sets an entry that is there. *)
Definition keepsCache (q q' : Process) : Prop :=
  cachedValidatedLinks q ⊆ cachedValidatedLinks q'.

(** The rest of the process leaves an empty cache empty. *)
Definition keepsEmpty (q q' : Process) : Prop :=
  cachedValidatedLinks q = ∅ → cachedValidatedLinks q' = ∅.

(** The rest of the process does not call the resolver. *)
Definition keepsLog (q q' : Process) : Prop := resolverLog q' = resolverLog q.

(** The rest of the process does nothing: time passes, and the timers
    that are due fire. *)
Definition timePasses (q q' : Process) : Prop := ∃ dt, q' = elapse dt q.

(** The pass resumed on [p]; a finished pass stays as it is. *)
Definition resumption (t : Pass) (p : Process) : Pass * Process :=
  match t with
  | Finished r => (Finished r, p)
  | Suspended _ resume => resume p
  end.

Definition suspended (t : Pass) : bool :=
  match t with Finished _ => false | Suspended _ _ => true end.

(** The run in which the rest of the process does [envs] to the state,
    one at each suspension of the pass in turn; [None] when the pass is
    still suspended after them. *)
Fixpoint resumeWith (envs : list (Process → Process)) (t : Pass) (p : Process)
  : option (Completion Reason (list ITerminalSimpleLink) * list jsstring * Process) :=
  match t with
  | Finished r => Some (r, [], p)
  | Suspended a resume =>
      match envs with
      | [] => None
      | env :: envs' =>
          r ← resumeWith envs' (resume (env p)).1 (resume (env p)).2;
          Some (r.1.1, option_list a ++ r.1.2, r.2)
      end
  end.

(** In that run, what the rest of the process does is within [R]. *)
Fixpoint relied (R : Process → Process → Prop) (envs : list (Process → Process))
    (t : Pass) (p : Process) : Prop :=
  match envs with
  | [] => True
  | env :: envs' =>
      if suspended t
      then R p (env p) ∧
           relied R envs' (resumption t (env p)).1 (resumption t (env p)).2
      else True
  end.

(** *** The process with its passes in flight

    The detectors, the shared state, and the passes begun so far.  A move
    is the start of a [detect] call, which runs up to its first await, the
    resumption of a suspended pass, or the passing of time, with the
    timers that are due firing. *)
Record Running := mkRunning {
  sys : System;
  inflight : list Pass
}.

Inductive Move :=
| mv_detect (i : nat) (lines : BufferLines) (startLine endLine : Z)
| mv_resume (k : nat)
| mv_elapse (dt : N).

Definition move (s : Running) (e : Move) : option Running :=
  match e with
  | mv_detect i lines startLine endLine =>
      d ← detectors (sys s) !! i;
      r ← detectStart d lines startLine endLine (proc (sys s));
      Some (mkRunning (mkSystem r.2 (<[i := r.1.1]> (detectors (sys s))))
              (inflight s ++ [r.1.2]))
  | mv_resume k =>
      t ← inflight s !! k;
      match t with
      | Finished _ => None
      | Suspended _ resume =>
          Some (mkRunning (mkSystem (resume (proc (sys s))).2 (detectors (sys s)))
                  (<[k := (resume (proc (sys s))).1]> (inflight s)))
      end
  | mv_elapse dt =>
      Some (mkRunning (mkSystem (elapse dt (proc (sys s))) (detectors (sys s)))
              (inflight s))
  end.

Fixpoint moves (s : Running) (es : list Move) : option Running :=
  match es with
  | [] => Some s
  | e :: es' => s' ← move s e; moves s' es'
  end.

(** The move is a [detect] call of detector [i] with caching enabled,
    one that resets the timer. *)
Definition arms (i : nat) (s : Running) (e : Move) : bool :=
  match e with
  | mv_detect j _ _ _ =>
      bool_decide (i = j) && from_option _enableCaching false (detectors (sys s) !! j)
  | _ => false
  end.

(** The time at which the last such call among the moves [es] made from
    [s] began; [last] when there is none. *)
Fixpoint lastCall (i : nat) (s : Running) (es : list Move) (last : option N) : option N :=
  match es with
  | [] => last
  | e :: es' =>
      match move s e with
      | Some s1 =>
          lastCall i s1 es' (if arms i s e then Some (now (window (proc (sys s)))) else last)
      | None => last
      end
  end.

(** The timers of a process with passes in flight, [L i] being the time
    at which the last [detect] call of detector [i] that reset the timer
    began, and [P0] the timers that were armed to begin with: every armed
    timer is held by a detector, and it fires 10 s after the last call of
    its holder, or is one of [P0] when the holder made no call; the timer
    of the last call of a detector is armed until its time has come; and a
    detector that made a call holds a handle of its own.  No pass in
    flight touches the timers after its start. *)
Definition timers_dated (P0 : gmap nat N) (L : nat → option N) (s : Running) : Prop :=
  timers_owned (sys s) ∧ handles_fresh (sys s) ∧
  Forall (steps_within (fun q q' => window q' = window q)) (inflight s) ∧
  (∀ h t, pending (window (proc (sys s))) !! h = Some t →
     ∃ i d, detectors (sys s) !! i = Some d ∧ _cacheTilTimeout d = h ∧
       match L i with
       | Some t0 => t = (t0 + 10000)%N
       | None => P0 !! h = Some t
       end) ∧
  (∀ i d t0, detectors (sys s) !! i = Some d → L i = Some t0 →
     (now (window (proc (sys s))) < t0 + 10000)%N →
     pending (window (proc (sys s))) !! _cacheTilTimeout d = Some (t0 + 10000)%N) ∧
  (∀ i j d d' t0, L i = Some t0 → i ≠ j →
     detectors (sys s) !! i = Some d → detectors (sys s) !! j = Some d' →
     _cacheTilTimeout d ≠ _cacheTilTimeout d').

End Interleaving.

Arguments Pass {H}.
Arguments Running {H}.
Arguments Move {H}.

Section RunningExamples.
Existing Instance exampleHost.

(** The two detectors of [twoDetectors], no pass begun. *)
Definition twoRunning : Running := mkRunning twoDetectors [].

(** The start of a pass of detector [i], the resumption of the pass
    begun as the [k]-th, and the passing of [dt] ms. *)
Definition startOf (i : nat) : Move := mv_detect i tt 0 0.

Definition resumeOf (k : nat) : Move := mv_resume k.

Definition waitFor (dt : N) : Move := mv_elapse dt.

(** What the start of a [detect] call returns. *)
Definition startResult (d : Detector) (p : Process) : Detector * Pass * Process :=
  default (d, Finished (Fulfilled []), p) (detectStart d tt 0 0 p).


(** What the rest of the process may do while a pass is suspended:
    another pass sets the cache entry of [k], or [dt] ms pass. *)
Definition otherSets (k : jsstring) (v : option ValidatedLink) (q : Process) : Process :=
  (cacheSet k v q).2.

Definition clock (dt : N) (q : Process) : Process := elapse dt q.

(** The end of the run of [resumeWith] from the start [r] of a pass. *)
Definition runResult (envs : list (Process → Process)) (r : Detector * Pass * Process)
  : Completion jsstring (list ITerminalSimpleLink) * list jsstring * Process :=
  default (Fulfilled [], [], r.2) (resumeWith envs r.1.2 r.2).

(** What a run from the start [r] of a pass shows: the completion, the
    strings the pass asked the resolver, the size of the cache at the end
    and its entries for [keys]. *)
Definition runSeen (envs : list (Process → Process)) (r : Detector * Pass * Process)
    (keys : list jsstring) :=
  ((runResult envs r).1.1, (runResult envs r).1.2,
   size (cachedValidatedLinks (runResult envs r).2),
   (fun k => cachedValidatedLinks (runResult envs r).2 !! k) <$> keys).

End RunningExamples.

(** * Properties *)

(** ** JavaScript strings *)

Module JSFacts.

Lemma startsWith_prefix s search :
  JS.startsWith s search = true ↔ search `prefix_of` s.
Proof.
  revert s. induction search as [|c search IH]; intros s.
  - split; [intros _; apply prefix_nil|by destruct s].
  - destruct s as [|d s]; simpl.
    + split; [done|]. intros [k Hk]. done.
    + rewrite andb_true_iff, N.eqb_eq, IH. split.
      * intros [-> Hp]. by apply prefix_cons.
      * intros [k [= -> ->]]. split; [done|]. by exists k.
Qed.

Lemma startsWith_refl s : JS.startsWith s s = true.
Proof. by apply startsWith_prefix. Qed.

Lemma startsWith_lookup s search i c :
  JS.startsWith s search = true → search !! i = Some c → s !! i = Some c.
Proof.
  rewrite startsWith_prefix. intros [k ->] Hi. by apply lookup_app_l_Some.
Qed.

Lemma indexOf_from_unfold s search i :
  JS.indexOf_from s search i =
  if JS.startsWith s search then Some i
  else match s with
       | [] => None
       | _ :: s' => JS.indexOf_from s' search (S i)
       end.
Proof. by destruct s. Qed.

Lemma indexOf_from_bounds s search i k :
  JS.indexOf_from s search i = Some k →
  i ≤ k ∧ k + length search ≤ i + length s ∧ JS.startsWith (drop (k - i) s) search = true.
Proof.
  revert i. induction s as [|d s IH]; intros i; rewrite indexOf_from_unfold.
  - destruct (JS.startsWith [] search) eqn:Hs; [|done]. intros [= <-].
    apply startsWith_prefix in Hs as Hp. apply prefix_length in Hp. simpl in Hp.
    rewrite Nat.sub_diag, drop_0. split_and!; [lia|lia|done].
  - destruct (JS.startsWith (d :: s) search) eqn:Hs.
    + intros [= <-]. apply startsWith_prefix in Hs as Hp. apply prefix_length in Hp.
      simpl in Hp. rewrite Nat.sub_diag, drop_0. split_and!; [lia|simpl; lia|done].
    + intros Hk. apply IH in Hk as (? & ? & Hp).
      replace (k - i) with (S (k - S i)) by lia.
      split_and!; [lia|simpl; lia|done].
Qed.

(** A found index is not before the (clamped) start position and
    leaves room for the searched string. *)
Lemma indexOf_found s search position :
  search ≠ [] →
  (0 ≤ JS.indexOf s search position)%Z →
  (position ≤ JS.indexOf s search position)%Z ∧
  (JS.indexOf s search position + Z.of_nat (length search) ≤ Z.of_nat (length s))%Z ∧
  JS.startsWith (drop (Z.to_nat (JS.indexOf s search position)) s) search = true.
Proof.
  intros Hne. unfold JS.indexOf.
  set (k := Z.to_nat (Z.min (Z.max position 0) (Z.of_nat (length s)))).
  destruct (JS.indexOf_from (drop k s) search k) as [i|] eqn:Hi; [|lia].
  intros _. apply indexOf_from_bounds in Hi as (H1 & H2 & H3).
  assert (0 < length search) by (destruct search; [done|simpl; lia]).
  rewrite length_drop in H2. rewrite drop_drop in H3.
  assert (k ≤ length s) by (unfold k; lia).
  replace (k + (i - k)) with i in H3 by lia.
  rewrite Nat2Z.id. split_and!; [|lia|done].
  destruct (decide (position ≤ Z.of_nat (length s))%Z); [unfold k in H1; lia|].
  assert (k = length s) by (unfold k; lia). lia.
Qed.

Lemma indexOf_self s : JS.indexOf s s 0 = 0%Z.
Proof.
  unfold JS.indexOf. replace (Z.to_nat _) with 0 by lia. rewrite drop_0.
  by rewrite indexOf_from_unfold, startsWith_refl.
Qed.

End JSFacts.

(** ** The matcher *)

Module RegExpFacts.
Import RegExp.

Section Facts.
Variable input : jsstring.

Local Abbreviation len := (length input).

Lemma CharacterSetMatcher_local A : local input (CharacterSetMatcher input A).
Proof.
  intros c c' x Hx Hc. unfold CharacterSetMatcher.
  destruct (input !! endIndex x) as [ch|] eqn:Hch; [|done].
  destruct (A ch); [|done].
  apply lookup_lt_Some in Hch. apply Hc; simpl; lia.
Qed.

Lemma RepeatMatcher_local mm fuel min max pI pC :
  local input mm → local input (RepeatMatcher mm fuel min max pI pC).
Proof.
  intros Hmm. revert min max.
  induction fuel as [|fuel IH]; intros min max c c' x Hx Hc; simpl.
  - destruct max as [[|?]|]; [apply Hc; lia|done..].
  - assert (Hd : ∀ y, endIndex x ≤ endIndex y → endIndex y ≤ len →
        (if (min =? 0) && (endIndex y =? endIndex x) then None
         else RepeatMatcher mm fuel (pred min) (pred <$> max) pI pC c y) =
        (if (min =? 0) && (endIndex y =? endIndex x) then None
         else RepeatMatcher mm fuel (pred min) (pred <$> max) pI pC c' y)).
    { intros y Hy1 Hy2. destruct ((min =? 0) && (endIndex y =? endIndex x)); [done|].
      apply IH; [done|]. intros y' ? ?. apply Hc; lia. }
    assert (Hm : ∀ d d' : Continuation,
        (∀ y, endIndex x ≤ endIndex y → endIndex y ≤ len → d y = d' y) →
        mm d (mkState (endIndex x) (clear_captures pI pC (captures x))) =
        mm d' (mkState (endIndex x) (clear_captures pI pC (captures x)))).
    { intros d d' Hdd. apply Hmm; simpl; [done|]. intros; by apply Hdd. }
    rewrite (Hm _ _ Hd), (Hc x) by lia.
    by destruct max as [[|?]|].
Qed.

Lemma m_local r pI : local input (m input r pI).
Proof.
  revert pI. induction r as [|ch|e|inv items|a IHa b IHb|a IHa b IHb|q r IH|r IH|r IH|];
    intros pI c c' x Hx Hc; cbn [m].
  - apply Hc; lia.
  - by apply CharacterSetMatcher_local.
  - by apply CharacterSetMatcher_local.
  - by apply CharacterSetMatcher_local.
  - apply IHa; [done|]. intros y ? ?. apply IHb; [done|]. intros; apply Hc; lia.
  - rewrite (IHa pI c c' x), (IHb _ c c' x); done.
  - apply RepeatMatcher_local; [apply IH|done..].
  - apply IH; [done|]. intros y ? ?. apply Hc; simpl; lia.
  - by apply IH.
  - rewrite (Hc x) by lia. done.
Qed.

(** Fuel above the measure of [RepeatMatcher] is never used up. *)
Lemma RepeatMatcher_fuel mm min max pI pC c :
  local input mm →
  ∀ fuel1 fuel2 x, endIndex x ≤ len →
    min + (len - endIndex x) < fuel1 → min + (len - endIndex x) < fuel2 →
    RepeatMatcher mm fuel1 min max pI pC c x =
    RepeatMatcher mm fuel2 min max pI pC c x.
Proof.
  intros Hmm fuel1. revert min max.
  induction fuel1 as [|f1 IH]; intros min max fuel2 x Hx H1 H2; [lia|].
  destruct fuel2 as [|f2]; [lia|]. simpl.
  assert (Hd : ∀ y, endIndex x ≤ endIndex y → endIndex y ≤ len →
      (if (min =? 0) && (endIndex y =? endIndex x) then None
       else RepeatMatcher mm f1 (pred min) (pred <$> max) pI pC c y) =
      (if (min =? 0) && (endIndex y =? endIndex x) then None
       else RepeatMatcher mm f2 (pred min) (pred <$> max) pI pC c y)).
  { intros y Hy1 Hy2.
    destruct (min =? 0) eqn:Hmin; simpl.
    - destruct (endIndex y =? endIndex x) eqn:He; [done|].
      apply Nat.eqb_eq in Hmin. apply Nat.eqb_neq in He.
      apply IH; [done|lia..].
    - apply Nat.eqb_neq in Hmin. apply IH; [done|lia..]. }
  rewrite (Hmm _ _ (mkState (endIndex x) (clear_captures pI pC (captures x))) Hx Hd).
  done.
Qed.

Lemma m_quant q r pI c x :
  m input (r_quant q r) pI c x =
  RepeatMatcher (m input r pI) (S (quant_min q + (len - endIndex x)))
    (quant_min q) (quant_max q) pI (ngroups r) c x.
Proof. done. Qed.

Lemma RepeatMatcher_S mm fuel min max pI pC c x :
  RepeatMatcher mm (S fuel) min max pI pC c x =
  match max with
  | Some O => c x
  | _ =>
      let d : Continuation := fun y =>
        if (min =? 0) && (endIndex y =? endIndex x) then None
        else RepeatMatcher mm fuel (pred min) (pred <$> max) pI pC c y in
      let xr := mkState (endIndex x) (clear_captures pI pC (captures x)) in
      if (min =? 0) then
        match mm d xr with
        | Some z => Some z
        | None => c x
        end
      else mm d xr
  end.
Proof. done. Qed.

Lemma m_star r pI c x :
  endIndex x ≤ len →
  m input (r_quant q_star r) pI c x =
  match m input r pI
          (fun y => if endIndex y =? endIndex x then None
                    else m input (r_quant q_star r) pI c y) (reset pI r x) with
  | Some z => Some z
  | None => c x
  end.
Proof.
  intros Hx. rewrite (m_quant q_star r pI c x), RepeatMatcher_S.
  cbn [quant_min quant_max Nat.eqb andb]. cbv zeta. unfold reset.
  erewrite (m_local r pI _ _ (mkState _ _)); [done|done|].
  intros y Hy1 Hy2. cbn [endIndex] in *.
  destruct (endIndex y =? endIndex x) eqn:He; [done|]. apply Nat.eqb_neq in He.
  rewrite m_quant.
  apply RepeatMatcher_fuel; [apply m_local|done|cbn [quant_min]; lia..].
Qed.

Lemma m_plus r pI c x :
  endIndex x ≤ len →
  m input (r_quant q_plus r) pI c x =
  m input r pI (fun y => m input (r_quant q_star r) pI c y) (reset pI r x).
Proof.
  intros Hx. rewrite (m_quant q_plus r pI c x), RepeatMatcher_S.
  cbn [quant_min quant_max Nat.eqb andb]. cbv zeta. unfold reset.
  apply m_local; [done|].
  intros y Hy1 Hy2. cbn [endIndex] in *.
  rewrite m_quant.
  apply RepeatMatcher_fuel; [apply m_local|done|cbn [quant_min]; lia..].
Qed.

Lemma RepeatMatcher_max0 mm fuel min pI pC c x :
  RepeatMatcher mm fuel min (Some 0) pI pC c x = c x.
Proof. by destruct fuel. Qed.

Lemma m_opt r pI c x :
  endIndex x ≤ len →
  m input (r_quant q_opt r) pI c x =
  match m input r pI
          (fun y => if endIndex y =? endIndex x then None else c y) (reset pI r x) with
  | Some z => Some z
  | None => c x
  end.
Proof.
  intros Hx. rewrite (m_quant q_opt r pI c x), RepeatMatcher_S.
  cbn [quant_min quant_max Nat.eqb andb]. cbv zeta. unfold reset.
  erewrite (m_local r pI _ _ (mkState _ _)); [done|done|].
  intros y _ _. cbn [endIndex]. destruct (endIndex y =? endIndex x); [done|].
  apply RepeatMatcher_max0.
Qed.

Lemma CharacterSetMatcher_forward A : forward input (CharacterSetMatcher input A).
Proof.
  intros c x z. unfold CharacterSetMatcher.
  destruct (input !! endIndex x) as [ch|] eqn:Hch; [|done].
  destruct (A ch); [|done]. intros Hc.
  apply lookup_lt_Some in Hch.
  eexists; split_and!; [| |exact Hc]; simpl; lia.
Qed.

Lemma RepeatMatcher_forward mm fuel min max pI pC :
  forward input mm → forward input (RepeatMatcher mm fuel min max pI pC).
Proof.
  intros Hmm. revert min max.
  induction fuel as [|fuel IH]; intros min max c x z.
  - destruct max as [[|?]|]; simpl; [|done..]. intros Hc. exists x. auto.
  - rewrite RepeatMatcher_S.
    assert (Hiter : mm (fun y =>
               if (min =? 0) && (endIndex y =? endIndex x) then None
               else RepeatMatcher mm fuel (pred min) (pred <$> max) pI pC c y)
              (mkState (endIndex x) (clear_captures pI pC (captures x))) = Some z →
            ∃ y, endIndex x ≤ endIndex y ∧ (endIndex x ≤ len → endIndex y ≤ len) ∧
                 c y = Some z).
    { intros Hz. apply Hmm in Hz as (y & Hy1 & Hy2 & Hz). simpl in *.
      destruct ((min =? 0) && (endIndex y =? endIndex x)); [done|].
      apply IH in Hz as (y' & ? & ? & ?). exists y'. split_and!; [lia|auto|done]. }
    destruct max as [[|?]|]; cbv zeta.
    + intros Hc. exists x. auto.
    + destruct (min =? 0); [|done].
      destruct (mm _ _) eqn:Hm; [intros [= ->]; auto|]. intros Hc. exists x. auto.
    + destruct (min =? 0); [|done].
      destruct (mm _ _) eqn:Hm; [intros [= ->]; auto|]. intros Hc. exists x. auto.
Qed.

Lemma m_forward r pI : forward input (m input r pI).
Proof.
  revert pI. induction r as [|ch|e|inv items|a IHa b IHb|a IHa b IHb|q r IH|r IH|r IH|];
    intros pI c x z; cbn [m].
  - intros Hc. exists x. auto.
  - apply CharacterSetMatcher_forward.
  - apply CharacterSetMatcher_forward.
  - apply CharacterSetMatcher_forward.
  - intros Hz. apply IHa in Hz as (y & ? & ? & Hz).
    apply IHb in Hz as (y' & ? & ? & ?). exists y'. split_and!; [lia|auto|done].
  - destruct (m input a pI c x) eqn:Ha.
    + intros [= ->]. by apply IHa in Ha.
    + apply IHb.
  - apply RepeatMatcher_forward, IH.
  - intros Hz. apply IH in Hz as (y & ? & ? & Hz). eexists; split_and!; [| |exact Hz]; done.
  - apply IH.
  - destruct (endIndex x =? 0); [|done]. intros Hc. exists x. auto.
Qed.

(** A pattern that must go through a one-character pattern fails
    where all such patterns fail. *)
Section Must.
Variable stuck : MatchState → Prop.
Variable leaf : regex → bool.
Hypothesis stuck_forward :
  ∀ x y, stuck x → endIndex x ≤ endIndex y → stuck y.
Hypothesis leaf_fails :
  ∀ a pI c x, leaf a = true → stuck x → m input a pI c x = None.

Lemma m_must r pI c x :
  must leaf r = true → stuck x → m input r pI c x = None.
Proof using stuck_forward leaf_fails.
  revert pI c x.
  induction r as [|ch|e|inv items|a IHa b IHb|a IHa b IHb|q r IH|r IH|r IH|];
    intros pI c x Hr Hx; cbn [must] in Hr; try done.
  - by apply leaf_fails.
  - by apply leaf_fails.
  - by apply leaf_fails.
  - cbn [m]. apply orb_true_iff in Hr as [Hr|Hr]; [by apply IHa|].
    destruct (m input a pI _ x) as [z|] eqn:Hz; [|done].
    apply m_forward in Hz as (y & Hy & _ & Hz).
    rewrite IHb in Hz; [done|done|]. by eapply stuck_forward.
  - cbn [m]. apply andb_true_iff in Hr as [Ha Hb].
    rewrite IHa by done. by apply IHb.
  - destruct q; try done. rewrite m_quant, RepeatMatcher_S. simpl.
    apply IH; [done|]. by eapply stuck_forward.
  - cbn [m]. by apply IH.
  - cbn [m]. by apply IH.
Qed.
End Must.

(** A pattern that needs the character [ch] fails when [ch] does not
    occur from the current index on. *)
Lemma m_needs_char ch r pI c x :
  must (is_char ch) r = true →
  (∀ j, endIndex x ≤ j → input !! j ≠ Some ch) →
  m input r pI c x = None.
Proof.
  intros Hr Hx.
  apply (m_must (fun x => ∀ j, endIndex x ≤ j → input !! j ≠ Some ch) (is_char ch));
    [| |done..].
  - intros x' y Hx' Hle j Hj. apply Hx'. lia.
  - clear. intros a pI c x Ha Hx. destruct a; try done.
    simpl in Ha. apply N.eqb_eq in Ha as ->.
    cbn [m]. unfold CharacterSetMatcher.
    destruct (input !! endIndex x) as [ch'|] eqn:Hl; [|done].
    destruct (N.eqb_spec ch ch') as [->|]; [|done].
    by apply Hx in Hl.
Qed.

(** A pattern that consumes a character fails at the end of the input. *)
Lemma m_at_end r pI c x :
  must is_atom r = true → len ≤ endIndex x → m input r pI c x = None.
Proof.
  intros Hr Hx.
  apply (m_must (fun x => len ≤ endIndex x) is_atom); [| |done..].
  - intros; lia.
  - clear. intros a pI c x Ha Hx.
    assert (input !! endIndex x = None) as Hl by by apply lookup_ge_None.
    destruct a; try done; cbn [m]; unfold CharacterSetMatcher; by rewrite Hl.
Qed.

(** A nullable pattern succeeds when its continuation succeeds at the
    current index. *)
Lemma m_nullable r pI c x :
  nullable r = true →
  (∀ y, endIndex y = endIndex x → is_Some (c y)) →
  is_Some (m input r pI c x).
Proof.
  revert pI c x.
  induction r as [|ch|e|inv items|a IHa b IHb|a IHa b IHb|q r IH|r IH|r IH|];
    intros pI c x Hr Hc; cbn [nullable] in Hr; try done.
  - cbn [m]. by apply Hc.
  - cbn [m]. apply andb_true_iff in Hr as [Ha Hb].
    apply IHa; [done|]. intros y Hy. apply IHb; [done|]. intros y' Hy'. apply Hc. lia.
  - cbn [m]. destruct (m input a pI c x) eqn:Ha; [done|].
    apply orb_true_iff in Hr as [Hr|Hr]; [|by apply IHb].
    pose proof (IHa pI c x Hr Hc) as Hs. rewrite Ha in Hs. by destruct Hs.
  - rewrite m_quant, RepeatMatcher_S.
    destruct q; try done; simpl; (destruct (m input r pI _ _); [done|by apply Hc]).
  - cbn [m]. apply IH; [done|]. intros y Hy. by apply Hc.
  - cbn [m]. by apply IH.
Qed.

Lemma m_seq a b pI c x :
  m input (r_seq a b) pI c x = m input a pI (m input b (pI + ngroups a) c) x.
Proof. done. Qed.

Lemma m_alt a b pI c x :
  m input (r_alt a b) pI c x =
  match m input a pI c x with
  | Some y => Some y
  | None => m input b (pI + ngroups a) c x
  end.
Proof. done. Qed.

Lemma m_group r pI c x :
  m input (r_group r) pI c x =
  m input r (S pI)
    (fun y => c (mkState (endIndex y)
                   (<[S pI := Some (endIndex x, endIndex y)]> (captures y)))) x.
Proof. done. Qed.

Lemma m_char ch pI c x :
  m input (r_char ch) pI c x =
  match input !! endIndex x with
  | Some ch' => if (ch =? ch')%N then c (mkState (S (endIndex x)) (captures x)) else None
  | None => None
  end.
Proof. done. Qed.

Lemma m_bol pI c x :
  m input r_bol pI c x = if endIndex x =? 0 then c x else None.
Proof. done. Qed.

Lemma m_atom a A pI c x :
  atom_pred a = Some A → m input a pI c x = CharacterSetMatcher input A c x.
Proof. destruct a; intros [= <-]; done. Qed.

(** *** Greedy loops over one capturing character class, [(a)*] and [(a)+] *)
Section ClassLoop.
Variables (a : regex) (A : char → bool).
Hypothesis a_atom : atom_pred a = Some A.

Lemma class_group_step pI (c : Continuation) x ch :
  input !! endIndex x = Some ch → A ch = true →
  m input (r_group a) pI c x =
  c (mkState (S (endIndex x))
       (<[S pI := Some (endIndex x, S (endIndex x))]> (captures x))).
Proof using a_atom.
  intros Hl HA. cbn [m]. rewrite (m_atom a A) by done.
  unfold CharacterSetMatcher. by rewrite Hl, HA.
Qed.

Lemma class_group_stop pI (c : Continuation) x :
  (∀ ch, input !! endIndex x = Some ch → A ch = false) →
  m input (r_group a) pI c x = None.
Proof using a_atom.
  intros Hl. cbn [m]. rewrite (m_atom a A) by done.
  unfold CharacterSetMatcher. destruct (input !! endIndex x) as [ch|]; [|done].
  by rewrite Hl.
Qed.

(** When every remaining character is in the class and the
    continuation succeeds at the end of the input, the loop runs to
    the end: the first try of the continuation is the result. *)
Lemma class_star_greedy (Q : MatchState → Prop) pI c x :
  endIndex x ≤ len →
  (∀ j ch, endIndex x ≤ j → input !! j = Some ch → A ch = true) →
  (∀ y, endIndex y = len → ∃ z, c y = Some z ∧ Q z) →
  ∃ z, m input (r_quant q_star (r_group a)) pI c x = Some z ∧ Q z.
Proof using a_atom.
  remember (len - endIndex x) as n eqn:Hn. revert x Hn.
  induction n as [n IH] using lt_wf_ind. intros x Hn Hx HA Hc.
  rewrite m_star by done.
  destruct (input !! endIndex x) as [ch|] eqn:Hl.
  - pose proof (lookup_lt_Some _ _ _ Hl) as Hlt.
    rewrite (class_group_step _ _ _ ch); [|done|by apply (HA (endIndex x))].
    cbv beta. cbn [endIndex reset]. rewrite (proj2 (Nat.eqb_neq _ _)) by lia.
    destruct (IH (len - S (endIndex x)) ltac:(lia)
                (mkState (S (endIndex x))
                   (<[S pI := Some (endIndex x, S (endIndex x))]>
                      (captures (reset pI (r_group a) x)))))
      as (z & Hz & HQ); cbn [endIndex]; [done|lia| |done|].
    + intros j ch' Hj. apply HA. lia.
    + cbn [reset endIndex captures] in *. rewrite Hz. eauto.
  - rewrite class_group_stop; [|intros ch; simpl; by rewrite Hl].
    apply Hc. apply lookup_ge_None in Hl. lia.
Qed.

Lemma class_plus_greedy (Q : MatchState → Prop) pI c x :
  endIndex x < len →
  (∀ j ch, endIndex x ≤ j → input !! j = Some ch → A ch = true) →
  (∀ y, endIndex y = len → ∃ z, c y = Some z ∧ Q z) →
  ∃ z, m input (r_quant q_plus (r_group a)) pI c x = Some z ∧ Q z.
Proof using a_atom.
  intros Hx HA Hc. rewrite m_plus by lia.
  destruct (lookup_lt_is_Some_2 input (endIndex x) Hx) as [ch Hl].
  rewrite (class_group_step _ _ _ ch); [|done|by apply (HA (endIndex x))].
  apply class_star_greedy; cbn [endIndex reset]; [lia| |done].
  intros j ch' Hj. apply HA. lia.
Qed.

(** When the continuation succeeds at some index [j] that the loop
    can reach, the loop succeeds. *)
Lemma class_star_reach pI c x j :
  endIndex x ≤ j → j ≤ len →
  (∀ i ch, endIndex x ≤ i < j → input !! i = Some ch → A ch = true) →
  (∀ y, endIndex y = j → is_Some (c y)) →
  is_Some (m input (r_quant q_star (r_group a)) pI c x).
Proof using a_atom.
  remember (j - endIndex x) as n eqn:Hn. revert x Hn.
  induction n as [n IH] using lt_wf_ind. intros x Hn Hx Hj HA Hc.
  rewrite m_star by lia.
  destruct (decide (endIndex x = j)) as [Heq|Hne].
  { destruct (m input (r_group a) _ _ _); [done|]. by apply Hc. }
  assert (endIndex x < len) as Hlt by lia.
  destruct (lookup_lt_is_Some_2 input (endIndex x) Hlt) as [ch Hl].
  rewrite (class_group_step _ _ _ ch); [|done|apply (HA (endIndex x)); [lia|done]].
  cbv beta. cbn [endIndex reset]. rewrite (proj2 (Nat.eqb_neq _ _)) by lia.
  destruct (IH (j - S (endIndex x)) ltac:(lia)
              (mkState (S (endIndex x))
                 (<[S pI := Some (endIndex x, S (endIndex x))]>
                    (captures (reset pI (r_group a) x)))))
    as [z Hz]; cbn [endIndex]; [done|lia|done| |done|].
  - intros i ch' Hi. apply HA. lia.
  - cbn [reset endIndex captures] in *. by rewrite Hz.
Qed.

Lemma class_plus_reach pI c x j :
  endIndex x < j → j ≤ len →
  (∀ i ch, endIndex x ≤ i < j → input !! i = Some ch → A ch = true) →
  (∀ y, endIndex y = j → is_Some (c y)) →
  is_Some (m input (r_quant q_plus (r_group a)) pI c x).
Proof using a_atom.
  intros Hx Hj HA Hc. rewrite m_plus by lia.
  assert (endIndex x < len) as Hlt by lia.
  destruct (lookup_lt_is_Some_2 input (endIndex x) Hlt) as [ch Hl].
  rewrite (class_group_step _ _ _ ch); [|done|apply (HA (endIndex x)); [lia|done]].
  apply (class_star_reach _ _ _ j); cbn [endIndex reset]; [lia|done| |done].
  intros i ch' Hi. apply HA. lia.
Qed.
End ClassLoop.

End Facts.
End RegExpFacts.

(** The matcher on the examples of the notes of ECMA-262 (22.2.2): the
    order of alternatives, the captures of a repeated group, which are
    reset at every iteration, and the empty iteration that is refused. *)
Example ecma_notes :
  execAll (str "((a)|(ab))((c)|(bc))") (str "abc") =
    Some [Some (str "abc"); Some (str "a"); Some (str "a"); None;
          Some (str "bc"); None; Some (str "bc")] ∧
  execAll (str "(z)((a+)?(b+)?(c))*") (str "zaacbbbcac") =
    Some [Some (str "zaacbbbcac"); Some (str "z"); Some (str "ac"); Some (str "a");
          None; Some (str "c")] ∧
  execAll (str "(a*)*") (str "b") = Some [Some []; None] ∧
  execAll (str "(a*)b\d+") (str "xaab12") = Some [Some (str "aab12"); Some (str "aa")] ∧
  execAll (str "a|ab") (str "abc") = Some [Some (str "a")].
Proof. split_and!; vm_compute; reflexivity. Qed.

(** ** The grammars *)

Lemma localLinkPattern_parses os :
  RegExp.parse (localLinkPattern os) = Some (_localLinkRegex os).
Proof. destruct os; vm_compute; reflexivity. Qed.

Lemma unix_shape :
  _localLinkRegex Linux =
  RegExp.r_seq
    (RegExp.r_group (RegExp.r_seq (RegExp.r_quant RegExp.q_opt unixHead) unixTail))
    (suffixOf (_localLinkRegex Linux)).
Proof. vm_compute. reflexivity. Qed.

Lemma excludedPathCharacters_parsed :
  RegExp.parse excludedPathCharactersClause = Some unixBody.
Proof. vm_compute. reflexivity. Qed.

Lemma suffix_nullable os : RegExp.nullable (suffixOf (_localLinkRegex os)) = true.
Proof. destruct os; vm_compute; reflexivity. Qed.

Lemma unix_needs_slash : RegExp.must (RegExp.is_char 47) (_localLinkRegex Linux) = true.
Proof. vm_compute. reflexivity. Qed.

Section UnixPath.
Import RegExp RegExpFacts.

Variable p : jsstring.
Hypothesis p_body :
  ∀ i ch, p !! i = Some ch → class_matches true excludedPathCharacters ch = true.

Lemma unixTail_fail pI c x :
  endIndex x ≤ length p →
  ¬ (p !! endIndex x = Some 47%N ∧ S (endIndex x) < length p) →
  m p unixTail pI c x = None.
Proof using Type.
  intros Hx Hno. unfold unixTail. rewrite m_plus by done.
  rewrite m_group, m_seq, m_char. cbn [reset endIndex captures].
  destruct (p !! endIndex x) as [ch|] eqn:Hl; [|done].
  destruct (N.eqb_spec 47 ch) as [<-|]; [|done].
  apply m_at_end; [done|]. cbn [endIndex].
  apply lookup_lt_Some in Hl. destruct (decide (S (endIndex x) < length p)); [|lia].
  destruct Hno. done.
Qed.

Lemma unixTail_ok pI c x :
  good_at_end p c →
  p !! endIndex x = Some 47%N → S (endIndex x) < length p →
  ∃ z, m p unixTail pI c x = Some z ∧ length p ≤ endIndex z.
Proof using p_body.
  intros Hc Hl Hlt. unfold unixTail. rewrite m_plus by lia.
  rewrite m_group, m_seq, m_char. cbn [reset endIndex captures].
  rewrite Hl, N.eqb_refl.
  apply (class_plus_greedy p unixBody (class_matches true excludedPathCharacters));
    [done|cbn [endIndex]; lia|intros j ch _; apply p_body|].
  intros y Hy. cbv beta. rewrite m_star by (cbn [endIndex]; lia).
  rewrite m_at_end; [|done|cbn [reset endIndex]; lia].
  apply Hc. done.
Qed.

Lemma unixTail_cases pI c x :
  good_at_end p c → endIndex x ≤ length p →
  m p unixTail pI c x = None ∨
  ∃ z, m p unixTail pI c x = Some z ∧ length p ≤ endIndex z.
Proof using p_body.
  intros Hc Hx.
  destruct (decide (p !! endIndex x = Some 47%N ∧ S (endIndex x) < length p))
    as [[Hl Hlt]|Hno].
  - right. by apply unixTail_ok.
  - left. by apply unixTail_fail.
Qed.

(** [(head)?tail]: every success ends at the end of the line, and
    there is one when a separator with something after it can be
    reached. *)
Lemma unixPath_cases pI c x :
  good_at_end p c → endIndex x ≤ length p →
  m p (r_seq (r_quant q_opt unixHead) unixTail) pI c x = None ∨
  ∃ z, m p (r_seq (r_quant q_opt unixHead) unixTail) pI c x = Some z
       ∧ length p ≤ endIndex z.
Proof using p_body.
  intros Hc Hx. rewrite m_seq, m_opt by done.
  destruct (m p unixHead _ _ _) as [z|] eqn:Hz.
  - right. exists z. split; [done|].
    apply m_forward in Hz as (y & Hy1 & Hy2 & Hz).
    cbn [reset endIndex] in *.
    destruct (endIndex y =? endIndex x); [done|].
    destruct (unixTail_cases (pI + ngroups (r_quant q_opt unixHead)) c y Hc)
      as [Hn|(z' & Hz' & ?)]; [auto|congruence|]. congruence.
  - by apply unixTail_cases.
Qed.

Lemma unixPath_found pI c x j :
  good_at_end p c → endIndex x ≤ j →
  p !! j = Some 47%N → S j < length p →
  is_Some (m p (r_seq (r_quant q_opt unixHead) unixTail) pI c x).
Proof using p_body.
  intros Hc Hx Hl Hlt. rewrite m_seq, m_opt by lia.
  destruct (m p unixHead _ _ _) as [z|] eqn:Hz; [done|].
  destruct (decide (endIndex x = j)) as [Heq|Hne].
  { subst j.
    destruct (unixTail_ok (pI + ngroups (r_quant q_opt unixHead)) c x Hc Hl Hlt)
      as (z & -> & _). done. }
  exfalso. revert Hz. unfold unixHead at 1. rewrite m_group, m_alt.
  destruct (m p (default r_empty (parse pathPrefix)) _ _ _); [done|].
  intros Hz.
  eassert (is_Some (m p (r_quant q_plus (r_group unixBody)) _ _ _)) as [z Hz'];
    [|rewrite Hz in Hz'; done].
  apply (class_plus_reach p unixBody (class_matches true excludedPathCharacters)
           eq_refl _ _ _ j); cbn [reset endIndex]; [lia|lia|intros i ch _; apply p_body|].
  intros y Hy. cbv beta. cbn [endIndex].
  rewrite (proj2 (Nat.eqb_neq _ _)) by lia.
  destruct (unixTail_ok (pI + ngroups (r_quant q_opt unixHead)) c
              (mkState (endIndex y)
                 (<[S pI := Some (endIndex x, endIndex y)]> (captures y))) Hc)
    as (z & -> & _); cbn [endIndex]; [by rewrite Hy|lia|done].
Qed.

(** The whole pattern at index 0 of a line that is a path. *)
Lemma unix_match_whole j :
  p !! j = Some 47%N → S j < length p →
  ∃ r, match_at p (_localLinkRegex Linux) 0 = Some r ∧
       index r = 0 ∧ length p ≤ endIndex (final r).
Proof using p_body.
  intros Hl Hlt. unfold match_at.
  generalize (replicate (S (ngroups (_localLinkRegex Linux))) (@None (nat * nat))).
  intros caps. rewrite unix_shape.
  set (x0 := mkState 0 caps). rewrite m_seq, m_group.
  set (K := fun y : MatchState => m p (suffixOf (_localLinkRegex Linux)) _ Some _).
  assert (good_at_end p K) as HK.
  { intros y Hy. unfold K.
    destruct (m_nullable p (suffixOf (_localLinkRegex Linux))
                (0 + ngroups (r_group (r_seq (r_quant q_opt unixHead) unixTail))) Some
                (mkState (endIndex y) (<[1 := Some (endIndex x0, endIndex y)]> (captures y))))
      as [z Hz]; [apply suffix_nullable|done|].
    exists z. split; [done|].
    apply m_forward in Hz as (y' & Hy' & _ & [= <-]). cbn [endIndex] in Hy'. lia. }
  destruct (unixPath_found 1 K x0 j HK) as [z Hz]; [simpl; lia|done..|].
  destruct (unixPath_cases 1 K x0 HK) as [Hn|(z' & Hz' & Hle)]; [simpl; lia|congruence|].
  rewrite Hz'. simpl. eauto.
Qed.

End UnixPath.

(** The class of the pattern is the body character of the specification. *)
Lemma existsb_ci_char c l :
  existsb (fun i => RegExp.item_matches i c) (RegExp.ci_char <$> l) = bool_decide (c ∈ l).
Proof.
  induction l as [|d l IH]; [done|]. rewrite fmap_cons. cbn [existsb]. rewrite IH.
  cbn [RegExp.item_matches].
  destruct (N.eqb_spec c d) as [->|Hne]; cbn [orb].
  - symmetry. apply bool_decide_eq_true. left.
  - apply eq_iff_eq_true. rewrite !bool_decide_eq_true, elem_of_cons.
    split; [by right|]. by intros [?|?].
Qed.

Lemma body_class c :
  RegExp.class_matches true excludedPathCharacters c = true ↔ is_body c.
Proof.
  unfold RegExp.class_matches, excludedPathCharacters, is_body.
  cbn [existsb RegExp.item_matches RegExp.escape_matches]. rewrite existsb_ci_char.
  destruct (N.eqb_spec c 0) as [->|Hc]; cbn [orb xorb negb].
  { split; [done|]. by intros [? _]. }
  destruct (RegExp.isWhiteSpace c); cbn [orb xorb negb].
  { split; [done|]. by intros (_ & ? & _). }
  case_bool_decide; split; try done. by intros (_ & _ & ?).
Qed.

Lemma unix_path_chars p :
  unix_path p →
  (∀ i ch, p !! i = Some ch → RegExp.class_matches true excludedPathCharacters ch = true) ∧
  ∃ j, p !! j = Some 47%N ∧ S j < length p.
Proof.
  intros (head & segs & -> & Hhead & Hsegs & Hbody).
  assert (is_body 47) as Hslash by (apply body_class; vm_compute; reflexivity).
  assert (Forall is_body head) as Hh.
  { destruct Hhead as [->|[[->|[->| ->]]|[_ ?]]]; [done| | | |done];
      repeat constructor; apply body_class; vm_compute; reflexivity. }
  split.
  - intros i ch Hi. apply body_class.
    apply list_elem_of_lookup_2 in Hi. apply elem_of_app in Hi as [Hi|Hi].
    + by eapply Forall_forall in Hh.
    + clear -Hi Hbody Hslash. induction Hbody as [|seg segs [_ Hseg] _ IH]; [by inversion Hi|].
      simpl in Hi. rewrite elem_of_cons, elem_of_app in Hi.
      destruct Hi as [->|[Hi|Hi]]; [done| |by apply IH].
      by eapply Forall_forall in Hseg.
  - exists (length head). destruct Hbody as [|seg segs [Hne _] _]; [done|].
    destruct seg as [|c seg]; [done|]. simpl.
    split; [apply list_lookup_middle; done|].
    rewrite length_app. simpl. lia.
Qed.

Lemma first_match_none text R idxs :
  (∀ i, RegExp.match_at text R i = None) → RegExp.first_match text R idxs = None.
Proof. intros Hn. induction idxs as [|i idxs IH]; simpl; [done|]. by rewrite Hn. Qed.

(** No separator from [i] on: the POSIX pattern does not match at [i]. *)
Lemma unix_no_match text i :
  (∀ j, i ≤ j → text !! j ≠ Some 47%N) →
  RegExp.match_at text (_localLinkRegex Linux) i = None.
Proof.
  intros Hno. unfold RegExp.match_at.
  rewrite (RegExpFacts.m_needs_char text 47); [done|apply unix_needs_slash|done].
Qed.

(** ** The scanning loop *)

Section ScanFacts.

Lemma adjustDiff_index text link si : (si ≤ (adjustDiff text link si).2)%Z.
Proof. unfold adjustDiff. destruct (looksLikeDiff _ _ _); simpl; lia. Qed.

Lemma scanLoop_S fuel text rex li si :
  scanLoop (S fuel) text rex li si =
  match RegExp.exec text rex li with
  | None => Some []
  | Some mt =>
      let link := RegExp.matched text mt in
      match link with
      | [] => Some []
      | _ :: _ =>
          let si' := JS.indexOf text link (si + 1) in
          if (si' <? 0)%Z then Some []
          else
            cons (mkItem link si' (adjustDiff text link si').1 (adjustDiff text link si').2)
              <$> scanLoop fuel text rex (si' + Z.of_nat (length link))
                    (adjustDiff text link si').2
      end
  end.
Proof.
  cbn [scanLoop]. destruct (RegExp.exec text rex li) as [mt|]; [|done]. cbv zeta.
  destruct (RegExp.matched text mt); [done|].
  destruct (_ <? _)%Z; [done|]. by destruct (adjustDiff _ _ _).
Qed.

(** One turn of the loop, read backwards. *)
Lemma scanLoop_inv fuel text rex li si items :
  scanLoop (S fuel) text rex li si = Some items →
  items = [] ∨
  ∃ mt rest,
    let link := RegExp.matched text mt in
    let si' := JS.indexOf text link (si + 1) in
    RegExp.exec text rex li = Some mt ∧ link ≠ [] ∧ (0 ≤ si')%Z ∧
    items = mkItem link si' (adjustDiff text link si').1 (adjustDiff text link si').2 :: rest ∧
    scanLoop fuel text rex (si' + Z.of_nat (length link)) (adjustDiff text link si').2
      = Some rest.
Proof.
  cbn [scanLoop]. destruct (RegExp.exec text rex li) as [mt|]; [|intros [= <-]; by left].
  destruct (RegExp.matched text mt) as [|ch link] eqn:Hlink; [intros [= <-]; by left|].
  destruct (Z.ltb_spec (JS.indexOf text (ch :: link) (si + 1)) 0);
    [intros [= <-]; by left|].
  destruct (adjustDiff text (ch :: link) _) as [link' si''] eqn:Hadj.
  destruct (scanLoop fuel _ _ _ _) as [rest|] eqn:Hrest; [|done].
  intros [= <-]. right. exists mt, rest. cbv zeta. rewrite Hlink, Hadj.
  split_and!; done.
Qed.

(** The loop ends before its fuel does: the string index grows with
    every turn and stays inside the line. *)
Lemma scanLoop_total fuel text rex li si :
  Z.to_nat (Z.of_nat (length text) - si) < fuel →
  is_Some (scanLoop fuel text rex li si).
Proof.
  revert li si. induction fuel as [|fuel IH]; intros li si Hfuel; [lia|].
  cbn [scanLoop]. destruct (RegExp.exec text rex li) as [mt|]; [|done].
  destruct (RegExp.matched text mt) as [|ch link] eqn:Hlink; [done|].
  destruct (Z.ltb_spec (JS.indexOf text (ch :: link) (si + 1)) 0) as [|Hfound]; [done|].
  destruct (adjustDiff text (ch :: link) _) as [link' si''] eqn:Hadj.
  assert (ch :: link ≠ []) as Hne by done.
  destruct (JSFacts.indexOf_found _ _ _ Hne Hfound) as (Hb1 & Hb2 & _).
  pose proof (adjustDiff_index text (ch :: link) (JS.indexOf text (ch :: link) (si + 1))) as Hi.
  rewrite Hadj in Hi. simpl in Hi, Hb2.
  destruct (IH (JS.indexOf text (ch :: link) (si + 1) + Z.of_nat (length (ch :: link)))%Z si'')
    as [rest ->]; [lia|done].
Qed.

Lemma scan_total os text : is_Some (scan os text).
Proof. apply scanLoop_total. lia. Qed.

(** What the loop records for an item is the diff adjustment of what
    it matched. *)
Lemma scanLoop_adjusted fuel text rex li si items :
  scanLoop fuel text rex li si = Some items →
  Forall (fun it => (itemLink it, itemIndex it) = adjustDiff text (rawLink it) (rawIndex it))
    items.
Proof.
  revert li si items. induction fuel as [|fuel IH]; intros li si items; [done|].
  intros [->|(mt & rest & Hex & Hne & Hfound & -> & Hrest)]%scanLoop_inv; [done|].
  constructor; [simpl; by destruct (adjustDiff _ _ _)|by eapply IH].
Qed.

(** The string indices grow strictly along the items. *)
Lemma scanLoop_increasing fuel text rex li si items :
  scanLoop fuel text rex li si = Some items →
  Forall (fun it => (si < rawIndex it)%Z) items ∧
  ∀ i j a b, i < j → items !! i = Some a → items !! j = Some b →
    (itemIndex a < rawIndex b)%Z.
Proof.
  revert li si items. induction fuel as [|fuel IH]; intros li si items; [done|].
  intros [->|(mt & rest & Hex & Hne & Hfound & -> & Hrest)]%scanLoop_inv.
  { split; [done|]. intros i j a b _ Hi. done. }
  apply IH in Hrest as [Hfirst Hpair].
  apply (JSFacts.indexOf_found _ _ _ Hne) in Hfound as (Hb1 & _ & _).
  pose proof (adjustDiff_index text (RegExp.matched text mt)
                (JS.indexOf text (RegExp.matched text mt) (si + 1))) as Hi.
  split.
  - constructor; [simpl; lia|].
    eapply Forall_impl; [exact Hfirst|]. simpl. intros; lia.
  - intros i j a b Hij Ha Hb. destruct j as [|j]; [lia|]. simpl in Hb.
    destruct i as [|i]; simpl in Ha.
    + injection Ha as <-. simpl.
      apply (Forall_lookup_1 _ _ _ _ Hfirst) in Hb. done.
    + eapply Hpair; [|done..]. lia.
Qed.

(** A line that is one path of the POSIX grammar: one match, the whole
    line at index 0. *)
Lemma scan_unix_path p :
  unix_path p → scan Linux p = Some [mkItem p 0 p 0].
Proof.
  intros Hp. destruct (unix_path_chars p Hp) as (Hbody & j & Hj & Hlt).
  destruct (unix_match_whole p Hbody j Hj Hlt) as (r & Hr & Hidx & Hend).
  assert (RegExp.matched p r = p) as Hm.
  { unfold RegExp.matched, JS.slice. rewrite Hidx, drop_0, Nat.sub_0_r. by apply take_ge. }
  assert (∀ c, c ∈ p → RegExp.isWhiteSpace c = false) as Hws.
  { intros c [i Hi]%list_elem_of_lookup_1. apply Hbody, body_class in Hi. apply Hi. }
  assert (looksLikeDiff p p 0 = false) as Hdiff.
  { unfold looksLikeDiff. rewrite andb_false_r. simpl.
    destruct (JS.startsWith p (str "diff --git")) eqn:Hs; [|done].
    apply (JSFacts.startsWith_lookup _ _ 4 32%N) in Hs; [|done].
    apply list_elem_of_lookup_2, Hws in Hs. done. }
  assert (RegExp.exec p (_localLinkRegex Linux) 0 = Some r) as Hex0.
  { unfold RegExp.exec. change (Z.to_nat 0) with 0. rewrite Nat.sub_0_r.
    cbn [seq RegExp.first_match]. by rewrite Hr. }
  assert (RegExp.exec p (_localLinkRegex Linux) (0 + Z.of_nat (length p)) = None) as Hex1.
  { unfold RegExp.exec. rewrite Z.add_0_l, Nat2Z.id.
    replace (S (length p) - length p) with 1 by lia. cbn [seq RegExp.first_match].
    rewrite unix_no_match; [done|].
    intros i Hi. rewrite (lookup_ge_None_2 p i) by lia. done. }
  unfold scan. replace (length p + 2) with (S (S (length p))) by lia.
  rewrite scanLoop_S, Hex0. cbv zeta. rewrite Hm.
  destruct p as [|c p'] eqn:Hpeq; [simpl in Hlt; lia|]. rewrite <-Hpeq in *.
  replace (-1 + 1)%Z with 0%Z by lia. rewrite JSFacts.indexOf_self.
  simpl Z.ltb. cbv iota. unfold adjustDiff. rewrite Hdiff. cbn [fst snd].
  rewrite scanLoop_S, Hex1. done.
Qed.

(** A line without a separator: no match. *)
Lemma scan_no_separator text :
  47%N ∉ text → scan Linux text = Some [].
Proof.
  intros Hno. unfold scan. replace (length text + 2) with (S (S (length text))) by lia.
  rewrite scanLoop_S. unfold RegExp.exec. rewrite first_match_none; [done|].
  intros i. apply unix_no_match. intros j _ Hj. by apply list_elem_of_lookup_2 in Hj.
Qed.

End ScanFacts.

(** ** The detector *)

Section DetectorFacts.
Context `{H : Host}.

(** The loop of [detect] is the scanner followed, item by item, by
    lines 126-185. *)
Lemma detectLoop_scan fuel d lines startLine text rex li si links p items :
  scanLoop fuel text rex li si = Some items →
  detectLoop fuel d lines startLine text rex li si links p =
  Some (processItems d lines startLine items links p).
Proof.
  revert li si links p items.
  induction fuel as [|fuel IH]; intros li si links p items; [done|].
  cbn [scanLoop detectLoop].
  destruct (RegExp.exec text rex li) as [mt|]; [|by intros [= <-]].
  destruct (RegExp.matched text mt) as [|ch link] eqn:Hlink; [by intros [= <-]|].
  destruct (JS.indexOf text (ch :: link) (si + 1) <? 0)%Z; [by intros [= <-]|].
  destruct (adjustDiff text (ch :: link) _) as [link' si''] eqn:Hadj.
  destruct (scanLoop fuel _ _ _ _) as [rest|] eqn:Hrest; [|done].
  intros [= <-]. cbn [processItems]. unfold bind, processItem. cbn [itemLink itemIndex].
  destruct (validateAndPush d link' _ links p) as [[links'|e] p']; [|done].
  by apply IH.
Qed.

Lemma resetCacheTimeout_fields d w :
  xterm (resetCacheTimeout d w).1 = xterm d ∧
  _os (resetCacheTimeout d w).1 = _os d ∧
  _resolvePath (resetCacheTimeout d w).1 = _resolvePath d ∧
  _enableCaching (resetCacheTimeout d w).1 = _enableCaching d.
Proof. unfold resetCacheTimeout. destruct (_enableCaching d) eqn:He; done. Qed.

(** [detect], as the timer reset, the length bound, the scanner and
    the processing of the scanned items. *)
Lemma detect_unfold d lines startLine endLine p :
  let d1 := (resetCacheTimeout d (window p)).1 in
  let p1 := mkProcess (cachedValidatedLinks p) (resetCacheTimeout d (window p)).2
              (world p) (resolverLog p) in
  let text := getXtermLineContent (xterm d) startLine endLine in
  detect d lines startLine endLine p =
  if bool_decide (text = []) || (MaxLineLength <? length text)
  then Some (d1, Fulfilled [], p1)
  else items ← scan (_os d) text;
       Some (d1, (processItems d1 lines startLine items [] p1).1,
                 (processItems d1 lines startLine items [] p1).2).
Proof.
  cbv zeta. unfold detect.
  destruct (resetCacheTimeout_fields d (window p)) as (Hx & Ho & _ & _).
  destruct (resetCacheTimeout d (window p)) as [d1 w1]. simpl in *. rewrite Hx, Ho.
  destruct (bool_decide _ || _); [done|].
  destruct (scan_total (_os d) (getXtermLineContent (xterm d) startLine endLine))
    as [items Hitems].
  rewrite Hitems. unfold scan in Hitems.
  rewrite (detectLoop_scan _ _ _ _ _ _ _ _ _ _ _ Hitems). done.
Qed.

(** The validator touches the world and the log only. *)
Lemma validate_frame d cands p :
  cachedValidatedLinks (_validateLinkCandidates d cands p).2 = cachedValidatedLinks p ∧
  window (_validateLinkCandidates d cands p).2 = window p.
Proof.
  revert p. induction cands as [|c cands IH]; intros p; [done|].
  cbn [_validateLinkCandidates]. unfold bind, callResolvePath.
  destruct (_resolvePath d c (world p)) as [[[v|]|e] w]; simpl; [done| |done].
  destruct (IH (mkProcess (cachedValidatedLinks p) (window p) w (resolverLog p ++ [c])))
    as [-> ->]. done.
Qed.

(** Every candidate answers [undefined]: the result is absent, and the
    resolver was asked for each candidate, in order. *)
Lemma validate_all_fail d cands p w' :
  resolveAllFail d cands (world p) = Some w' →
  _validateLinkCandidates d cands p =
  (Fulfilled None,
   mkProcess (cachedValidatedLinks p) (window p) w' (resolverLog p ++ cands)).
Proof.
  revert p. induction cands as [|c cands IH]; intros p; cbn [resolveAllFail].
  - intros [= <-]. rewrite app_nil_r. by destruct p.
  - cbn [_validateLinkCandidates]. unfold bind, callResolvePath.
    destruct (_resolvePath d c (world p)) as [[[v|]|e] w]; [done| |done].
    intros Hrest. rewrite (IH (mkProcess _ _ w _)) by done. simpl.
    by rewrite <-app_assoc.
Qed.

(** The candidates before [c] answer [undefined] and [c] answers [r]:
    the validator stops at [c] with that answer. *)
Lemma validate_stops_at d pre c post p w1 r w2 :
  resolveAllFail d pre (world p) = Some w1 →
  _resolvePath d c w1 = (r, w2) →
  r ≠ Fulfilled None →
  _validateLinkCandidates d (pre ++ c :: post) p =
  (r, mkProcess (cachedValidatedLinks p) (window p) w2 (resolverLog p ++ pre ++ [c])).
Proof.
  revert p. induction pre as [|c' pre IH]; intros p; cbn [resolveAllFail].
  - intros [= <-] Hc Hr. cbn [app _validateLinkCandidates]. unfold bind, callResolvePath.
    rewrite Hc. by destruct r as [[v|]|e].
  - cbn [app _validateLinkCandidates]. unfold bind, callResolvePath.
    destruct (_resolvePath d c' (world p)) as [[[v|]|e] w]; [done| |done].
    intros Hrest Hc Hr. rewrite (IH (mkProcess _ _ w _)) by done. simpl.
    by rewrite <-app_assoc.
Qed.

Lemma validate_same_resolver d d' cands p :
  _resolvePath d = _resolvePath d' →
  _validateLinkCandidates d cands p = _validateLinkCandidates d' cands p.
Proof.
  intros Hres. revert p. induction cands as [|c cands IH]; intros p; [done|].
  cbn [_validateLinkCandidates]. unfold bind, callResolvePath. rewrite Hres.
  destruct (_resolvePath d' c (world p)) as [[[v|]|e] w]; [done| |done]. apply IH.
Qed.

(** On a cached NOT_FOUND nothing happens. *)
Lemma validateAndPush_not_found d link range links p :
  cachedValidatedLinks p !! link = Some None →
  validateAndPush d link range links p = (Fulfilled links, p).
Proof. intros Hc. unfold validateAndPush. by rewrite Hc. Qed.

(** On a cached validated link the link is pushed, without the resolver. *)
Lemma validateAndPush_cached d link range links p ls :
  cachedValidatedLinks p !! link = Some (Some ls) →
  validateAndPush d link range links p =
  (Fulfilled (links ++ [mkLink (vl_link ls) (vl_uri ls) range (linkType ls p)]), p).
Proof. intros Hc. unfold validateAndPush. by rewrite Hc. Qed.

(** On a cache miss the candidates are validated and the answer is
    cached, but no link is pushed: line 156 reads the outer [linkStat]. *)
Lemma validateAndPush_miss d link range links p :
  cachedValidatedLinks p !! link = None →
  validateAndPush d link range links p =
  match _validateLinkCandidates d (linkCandidates link) p with
  | (Fulfilled r, p') =>
      (Fulfilled links,
       if _enableCaching d
       then mkProcess (<[link := r]> (cachedValidatedLinks p')) (window p') (world p')
              (resolverLog p')
       else p')
  | (Rejected e, p') => (Rejected e, p')
  end.
Proof.
  intros Hc. unfold validateAndPush. rewrite Hc. unfold bind.
  destruct (_validateLinkCandidates d (linkCandidates link) p) as [[r|e] p']; [|done].
  by destruct (_enableCaching d).
Qed.

(** Cache entries are written for missing keys only, so an entry that
    is there stays as it is. *)
Lemma validateAndPush_keeps d link range links p key v :
  cachedValidatedLinks p !! key = Some v →
  cachedValidatedLinks (validateAndPush d link range links p).2 !! key = Some v.
Proof.
  intros Hkey.
  destruct (cachedValidatedLinks p !! link) as [[ls|]|] eqn:Hc.
  - by rewrite (validateAndPush_cached _ _ _ _ _ _ Hc).
  - by rewrite (validateAndPush_not_found _ _ _ _ _ Hc).
  - rewrite (validateAndPush_miss _ _ _ _ _ Hc).
    pose proof (validate_frame d (linkCandidates link) p) as [Hf _].
    destruct (_validateLinkCandidates d (linkCandidates link) p) as [[r|e] p'];
      simpl in *; [|by rewrite Hf].
    destruct (_enableCaching d); simpl; [|by rewrite Hf].
    rewrite lookup_insert_ne, Hf; [done|]. intros ->. congruence.
Qed.

Lemma processItems_keeps d lines startLine items links p key v :
  cachedValidatedLinks p !! key = Some v →
  cachedValidatedLinks (processItems d lines startLine items links p).2 !! key = Some v.
Proof.
  revert links p. induction items as [|it items IH]; intros links p Hkey; [done|].
  cbn [processItems]. unfold bind.
  pose proof (validateAndPush_keeps d (itemLink it)
    (convertLinkRangeToBuffer lines (xterm d)
       ((itemIndex it + 1)%Z, (itemIndex it + Z.of_nat (length (itemLink it)) + 1)%Z)
       startLine) links p key v Hkey) as Hk.
  unfold processItem.
  destruct (validateAndPush _ _ _ _ _) as [[links'|e] p']; simpl in *; [|done].
  by apply IH.
Qed.

Lemma processItems_app d lines startLine items1 items2 links p :
  processItems d lines startLine (items1 ++ items2) links p =
  match processItems d lines startLine items1 links p with
  | (Fulfilled links', p') => processItems d lines startLine items2 links' p'
  | (Rejected e, p') => (Rejected e, p')
  end.
Proof.
  revert links p. induction items1 as [|it items1 IH]; intros links p; [done|].
  cbn [app processItems]. unfold bind.
  destruct (processItem d lines startLine it links p) as [[links'|e] p']; [|done].
  apply IH.
Qed.

(** The loop leaves the timers alone. *)
Lemma validateAndPush_window d link range links p :
  window (validateAndPush d link range links p).2 = window p.
Proof.
  destruct (cachedValidatedLinks p !! link) as [[ls|]|] eqn:Hc.
  - by rewrite (validateAndPush_cached _ _ _ _ _ _ Hc).
  - by rewrite (validateAndPush_not_found _ _ _ _ _ Hc).
  - rewrite (validateAndPush_miss _ _ _ _ _ Hc).
    pose proof (validate_frame d (linkCandidates link) p) as [_ Hf].
    destruct (_validateLinkCandidates d (linkCandidates link) p) as [[r|e] p'];
      simpl in *; [|done].
    by destruct (_enableCaching d).
Qed.

Lemma processItems_window d lines startLine items links p :
  window (processItems d lines startLine items links p).2 = window p.
Proof.
  revert links p. induction items as [|it items IH]; intros links p; [done|].
  cbn [processItems]. unfold bind.
  pose proof (validateAndPush_window d (itemLink it)
    (convertLinkRangeToBuffer lines (xterm d)
       ((itemIndex it + 1)%Z, (itemIndex it + Z.of_nat (length (itemLink it)) + 1)%Z)
       startLine) links p) as Hw.
  unfold processItem.
  destruct (validateAndPush _ _ _ _ _) as [[links'|e] p']; simpl in *; [|done].
  by rewrite IH.
Qed.

(** After [detect] the detector and the timers are those of the timer
    reset of lines 76-81. *)
Lemma detect_timers d lines startLine endLine p r :
  detect d lines startLine endLine p = Some r →
  r.1.1 = (resetCacheTimeout d (window p)).1 ∧
  window r.2 = (resetCacheTimeout d (window p)).2.
Proof.
  rewrite detect_unfold. cbv zeta. destruct (bool_decide _ || _); [by intros [= <-]|].
  destruct (scan _ _) as [items|]; [|done]. intros [= <-]. simpl.
  by rewrite processItems_window.
Qed.

(** [detect] always returns. *)
Lemma detect_total d lines startLine endLine p :
  is_Some (detect d lines startLine endLine p).
Proof.
  rewrite detect_unfold. cbv zeta. destruct (bool_decide _ || _); [done|].
  destruct (scan_total (_os d) (getXtermLineContent (xterm d) startLine endLine))
    as [items ->]. done.
Qed.

End DetectorFacts.

(** ** Candidates and their validation *)

Section ParentTraversal.
Import RegExp RegExpFacts.

Lemma parentTraversalPattern_parsed :
  parse parentTraversalPattern = Some (r_seq r_bol (r_quant q_plus parentSegmentGroup)).
Proof. vm_compute. reflexivity. Qed.

Variable link : jsstring.

Lemma drop_cons_lookup (l : jsstring) i a rest :
  drop i l = a :: rest → l !! i = Some a ∧ drop (S i) l = rest.
Proof.
  intros Hd. split.
  - rewrite <-(Nat.add_0_r i), <-lookup_drop, Hd. done.
  - by rewrite <-Nat.add_1_r, <-drop_drop, Hd.
Qed.

(** One [(\.\.[\/\\])]: three characters that are a parent segment. *)
Lemma segment_step pI c x :
  m link parentSegmentGroup pI c x =
  match drop (endIndex x) link with
  | a :: b :: ch :: _ =>
      if isParentSegment [a; b; ch]
      then c (mkState (S (S (S (endIndex x))))
                (<[S pI := Some (endIndex x, S (S (S (endIndex x))))]> (captures x)))
      else None
  | _ => None
  end.
Proof.
  unfold parentSegmentGroup. rewrite m_group, m_seq, m_char.
  destruct (drop (endIndex x) link) as [|a l1] eqn:H1.
  { apply drop_nil_inv in H1. by rewrite lookup_ge_None_2. }
  apply drop_cons_lookup in H1 as [-> H1].
  destruct (N.eqb_spec 46 a) as [<-|Ha].
  2:{ destruct l1 as [|b [|ch rest]]; try done.
      unfold isParentSegment. rewrite bool_decide_eq_false_2; [done|].
      intros [[=]|[=]]; done. }
  rewrite m_seq, m_char. cbn [endIndex captures].
  destruct l1 as [|b l2].
  { apply drop_nil_inv in H1. by rewrite lookup_ge_None_2. }
  apply drop_cons_lookup in H1 as [-> H2].
  destruct (N.eqb_spec 46 b) as [<-|Hb].
  2:{ destruct l2 as [|ch rest]; try done.
      unfold isParentSegment. rewrite bool_decide_eq_false_2; [done|].
      intros [[=]|[=]]; done. }
  cbn [m]. unfold CharacterSetMatcher. cbn [endIndex captures].
  destruct l2 as [|ch rest].
  { apply drop_nil_inv in H2. by rewrite lookup_ge_None_2. }
  apply drop_cons_lookup in H2 as [-> _].
  unfold class_matches, isParentSegment. cbn [existsb item_matches xorb orb].
  destruct (N.eqb_spec ch 47) as [->|H47]; cbn [orb].
  { by rewrite bool_decide_eq_true_2 by (by left). }
  destruct (N.eqb_spec ch 92) as [->|H92]; cbn [orb].
  { by rewrite bool_decide_eq_true_2 by (by right). }
  rewrite bool_decide_eq_false_2; [done|]. intros [[=]|[=]]; done.
Qed.

(** The greedy loop stops where the leading segments stop. *)
Lemma segments_star pI x :
  endIndex x ≤ length link →
  ∃ z, m link (r_quant q_star parentSegmentGroup) pI Some x = Some z ∧
       drop (endIndex z) link = stripParentTraversal (drop (endIndex x) link).
Proof.
  remember (length link - endIndex x) as n eqn:Hn. revert x Hn.
  induction n as [n IH] using lt_wf_ind. intros x Hn Hx.
  rewrite m_star by done. rewrite segment_step. cbn [reset endIndex captures].
  destruct (drop (endIndex x) link) as [|a [|b [|ch rest]]] eqn:Hd; try (by eexists).
  simpl stripParentTraversal.
  destruct (isParentSegment [a; b; ch]); [|by eexists].
  cbn [endIndex]. rewrite (proj2 (Nat.eqb_neq _ _)) by lia.
  assert (length (drop (endIndex x) link) = 3 + length rest) as Hlen by by rewrite Hd.
  rewrite length_drop in Hlen.
  assert (drop (S (S (S (endIndex x)))) link = rest) as Hrest.
  { replace (S (S (S (endIndex x)))) with (endIndex x + 3) by lia.
    by rewrite <-drop_drop, Hd. }
  destruct (IH (length link - S (S (S (endIndex x)))) ltac:(lia)
              (mkState (S (S (S (endIndex x))))
                 (<[S pI := Some (endIndex x, S (S (S (endIndex x))))]>
                    (clear_captures pI (ngroups parentSegmentGroup) (captures x)))))
    as (z & Hz & Hdz); cbn [endIndex]; [done|lia|].
  exists z. rewrite Hz. split; [done|]. cbn [endIndex] in Hdz. by rewrite Hdz, Hrest.
Qed.

Lemma bol_no_match i :
  i ≠ 0 → match_at link (r_seq r_bol (r_quant q_plus parentSegmentGroup)) i = None.
Proof.
  intros Hi. unfold match_at. rewrite m_seq, m_bol. cbn [endIndex].
  by rewrite (proj2 (Nat.eqb_neq _ _)).
Qed.

(** [link.match(...)] succeeds exactly on a text that begins with parent
    traversal, and the match is the leading segments. *)
Lemma matchParentTraversal_spec :
  match matchParentTraversal link with
  | Some r =>
      beginsWithParentTraversal link = true ∧ index r = 0 ∧
      drop (endIndex (final r)) link = stripParentTraversal link
  | None => beginsWithParentTraversal link = false
  end.
Proof.
  unfold matchParentTraversal. rewrite parentTraversalPattern_parsed.
  cbn [mbind option_bind]. unfold exec. change (Z.to_nat 0) with 0.
  rewrite Nat.sub_0_r. cbn [seq first_match].
  assert (first_match link (r_seq r_bol (r_quant q_plus parentSegmentGroup))
            (seq 1 (length link)) = None) as Hrest.
  { generalize (length link). intros n. generalize 0. induction n as [|n IH]; intros k; [done|].
    cbn [seq first_match]. rewrite bol_no_match by done. apply IH. }
  rewrite Hrest. unfold match_at at 1.
  rewrite m_seq, m_bol. cbn [endIndex Nat.eqb]. rewrite m_plus by (cbn [endIndex]; lia).
  rewrite segment_step. cbn [reset endIndex captures]. rewrite drop_0.
  destruct link as [|a [|b [|ch rest]]] eqn:Hl; try done.
  cbn [beginsWithParentTraversal stripParentTraversal].
  destruct (isParentSegment [a; b; ch]); [|done].
  rewrite <-Hl.
  match goal with
  | |- context [m link (r_quant q_star parentSegmentGroup) ?pI Some ?x] =>
      destruct (segments_star pI x) as (z & Hz & Hdz)
  end.
  { cbn [endIndex]. rewrite Hl. simpl. lia. }
  rewrite Hz. cbn [fmap option_fmap option_map index final].
  split_and!; [done..|]. rewrite Hdz. cbn [endIndex]. by rewrite Hl.
Qed.

End ParentTraversal.

(** The candidate list, in the words of the specification. *)
Lemma linkCandidates_spec link :
  linkCandidates link =
  if beginsWithParentTraversal link then [link; stripParentTraversal link] else [link].
Proof.
  unfold linkCandidates, replaceParentTraversal.
  pose proof (matchParentTraversal_spec link) as Hspec.
  destruct (matchParentTraversal link) as [r|].
  - destruct Hspec as (-> & -> & ->). by rewrite take_0.
  - by rewrite Hspec.
Qed.

(** What holds of the scanned items on every line: the string indices
    grow strictly, and each item is found after the (adjusted) index of
    every earlier one. *)
Lemma scan_increasing os text items i j a b :
  scan os text = Some items → i < j →
  items !! i = Some a → items !! j = Some b →
  (itemIndex a < rawIndex b)%Z ∧ (rawIndex b ≤ itemIndex b)%Z.
Proof.
  intros Hscan Hij Ha Hb. split.
  - by eapply (proj2 (scanLoop_increasing _ _ _ _ _ _ Hscan)).
  - apply scanLoop_adjusted in Hscan.
    apply (Forall_lookup_1 _ _ _ _ Hscan) in Hb.
    pose proof (adjustDiff_index text (rawLink b) (rawIndex b)) as Hi.
    rewrite <-Hb in Hi. done.
Qed.

(** ** The cache timers *)

Section TimerFacts.
Context `{H : Host}.

(** The timer reset of a detector with caching enabled: the timer of the
    handle it holds is cancelled, a timer 10 s from now is armed under a
    new handle, which the detector then holds; no other timer changes. *)
Lemma resetCacheTimeout_enabled d w :
  _enableCaching d = true →
  _cacheTilTimeout (resetCacheTimeout d w).1 = nextHandle w ∧
  nextHandle (resetCacheTimeout d w).2 = S (nextHandle w) ∧
  now (resetCacheTimeout d w).2 = now w ∧
  pending (resetCacheTimeout d w).2 =
    <[nextHandle w := (now w + 10000)%N]>
      (if _cacheTilTimeout d =? 0 then pending w
       else delete (_cacheTilTimeout d) (pending w)).
Proof.
  intros He. unfold resetCacheTimeout. rewrite He.
  by destruct (_cacheTilTimeout d =? 0).
Qed.

Lemma resetCacheTimeout_disabled d w :
  _enableCaching d = false → resetCacheTimeout d w = (d, w).
Proof. intros He. unfold resetCacheTimeout. by rewrite He. Qed.

Lemma fireTimers_pending p h t :
  pending (window (fireTimers p)) !! h = Some t → pending (window p) !! h = Some t.
Proof.
  unfold fireTimers. case_bool_decide; [done|]. simpl.
  by intros [? _]%map_lookup_filter_Some.
Qed.

Lemma fireTimers_nextHandle p :
  nextHandle (window (fireTimers p)) = nextHandle (window p).
Proof. unfold fireTimers. by case_bool_decide. Qed.

Lemma step_invariant s e s' :
  timers_owned s → handles_fresh s → step s e = Some s' →
  timers_owned s' ∧ handles_fresh s'.
Proof.
  intros Hown [Hpos Hbelow]. destruct e as [i lines startLine endLine|dt]; simpl.
  - destruct (detectors s !! i) as [d|] eqn:Hd; [|done]. simpl.
    destruct (detect d lines startLine endLine (proc s)) as [r|] eqn:Hr; [|done].
    intros [= <-]. apply detect_timers in Hr as [Hd1 Hw].
    destruct (_enableCaching d) eqn:He.
    2:{ rewrite resetCacheTimeout_disabled in Hd1, Hw by done. simpl in *.
        rewrite Hd1, list_insert_id by done.
        split; [intros h t|split; [intros h t|]]; simpl; rewrite ?Hw; eauto. }
    destruct (resetCacheTimeout_enabled d (window (proc s)) He) as (Hh & Hn & _ & Hp).
    rewrite <-Hd1 in Hh. rewrite <-Hw in Hn, Hp.
    assert (∀ h t, pending (window r.2) !! h = Some t →
              h = nextHandle (window (proc s)) ∨
              (h ≠ _cacheTilTimeout d ∧ pending (window (proc s)) !! h = Some t)) as Hcases.
    { intros h t Hl. rewrite Hp in Hl.
      destruct (decide (nextHandle (window (proc s)) = h)) as [<-|Hfresh]; [by left|].
      right. rewrite lookup_insert_ne in Hl by done.
      destruct (Nat.eqb_spec (_cacheTilTimeout d) 0) as [Hz|Hz].
      - split; [|done]. intros ->. apply Hpos in Hl. lia.
      - apply lookup_delete_Some in Hl as [? ?]. done. }
    split; [|split].
    + intros h t [->|[Hne Hold]]%Hcases; simpl.
      * exists i, r.1.1. split; [|done].
        apply list_lookup_insert_eq. by eapply lookup_lt_Some.
      * destruct (Hown h t Hold) as (j & dj & Hj & Hhj).
        exists j, dj. split; [|done].
        rewrite list_lookup_insert_ne; [done|]. intros ->. congruence.
    + intros h t [->|[Hne Hold]]%Hcases; simpl; rewrite Hn.
      * pose proof (Hbelow i d Hd). lia.
      * apply Hpos in Hold. lia.
    + intros j dj. simpl. rewrite Hn.
      destruct (decide (i = j)) as [<-|Hne].
      * rewrite list_lookup_insert_eq by by eapply lookup_lt_Some.
        intros [= <-]. lia.
      * rewrite list_lookup_insert_ne by done. intros Hj%Hbelow. lia.
  - intros [= <-]. unfold elapse. split; [|split]; simpl.
    + intros h t Hh%fireTimers_pending. simpl in Hh. eauto.
    + intros h t Hh%fireTimers_pending. rewrite fireTimers_nextHandle. simpl in *. eauto.
    + intros j dj Hj. rewrite fireTimers_nextHandle. simpl. eauto.
Qed.

Lemma run_invariant s es s' :
  timers_owned s → handles_fresh s → run s es = Some s' →
  timers_owned s' ∧ handles_fresh s'.
Proof.
  revert s. induction es as [|e es IH]; intros s Hown Hfresh; simpl.
  - by intros [= <-].
  - destruct (step s e) as [s1|] eqn:Hstep; [|done]. simpl.
    destruct (step_invariant s e s1 Hown Hfresh Hstep) as [? ?]. by apply IH.
Qed.

Lemma size_list_to_set_le (l : list nat) : size (list_to_set (C := gset nat) l) ≤ length l.
Proof.
  induction l as [|x l IH]; [by rewrite list_to_set_nil, size_empty|].
  rewrite list_to_set_cons, size_union_alt, size_singleton. simpl.
  assert (list_to_set l ∖ {[x]} ⊆ list_to_set (C := gset nat) l) as Hsub.
  { intros y Hy. by apply elem_of_difference in Hy as [? _]. }
  apply subseteq_size in Hsub. lia.
Qed.

End TimerFacts.

(** ** Passes suspended at their awaits *)

Section SuspendedFacts.
Context `{H : Host}.

Lemma validateSteps_cons d link rest k p :
  validateSteps d (link :: rest) k p =
  (Suspended (Some link)
     (fun p' =>
        match (_resolvePath d link (world p)).1 with
        | Fulfilled (Some result) => (Suspended None (k (Some result)), p')
        | Fulfilled None => validateSteps d rest k p'
        | Rejected e => (Suspended None (fun p'' => (Finished (Rejected e), p'')), p')
        end),
   mkProcess (cachedValidatedLinks p) (window p) (_resolvePath d link (world p)).2
     (resolverLog p ++ [link])).
Proof. cbn [validateSteps]. by destruct (_resolvePath d link (world p)). Qed.

Lemma detectSteps_cons d lines startLine it rest links p :
  detectSteps d lines startLine (it :: rest) links p =
  match cachedValidatedLinks p !! itemLink it with
  | Some None => detectSteps d lines startLine rest links p
  | Some (Some ls) =>
      detectSteps d lines startLine rest
        (links ++ [mkLink (vl_link ls) (vl_uri ls) (rangeOf d lines startLine it)
                     (linkType ls p)]) p
  | None =>
      validateSteps d (linkCandidates (itemLink it))
        (fun linkStat p' =>
           detectSteps d lines startLine rest links (stored d (itemLink it) linkStat p'))
        p
  end.
Proof. done. Qed.

Lemma stored_window d link v p : window (stored d link v p) = window p.
Proof. unfold stored. by destruct (_enableCaching d). Qed.

Lemma steps_within_mono (G G' : Process → Process → Prop) t :
  (∀ q q', G q q' → G' q q') → steps_within G t → steps_within G' t.
Proof. intros HG. induction 1; constructor; eauto. Qed.

(** The stretches of the validator leave the cache and the timers alone. *)
Lemma validateSteps_within (G : Process → Process → Prop) d cands k p :
  (∀ q q', cachedValidatedLinks q' = cachedValidatedLinks q → window q' = window q → G q q') →
  (∀ v q, G q (k v q).2 ∧ steps_within G (k v q).1) →
  cachedValidatedLinks (validateSteps d cands k p).2 = cachedValidatedLinks p ∧
  window (validateSteps d cands k p).2 = window p ∧
  steps_within G (validateSteps d cands k p).1.
Proof.
  intros Hframe Hk. revert p. induction cands as [|c cands IH]; intros p.
  - cbn [validateSteps fst snd]. split_and!; [done..|].
    constructor; intros q; apply Hk.
  - rewrite validateSteps_cons. cbn [fst snd cachedValidatedLinks window].
    split_and!; [done..|].
    constructor; intros q; destruct (_resolvePath d c (world p)).1 as [[v|]|e]; cbn [fst snd].
    + by apply Hframe.
    + destruct (IH q) as (Hc & Hw & _). by apply Hframe.
    + by apply Hframe.
    + constructor; intros q'; apply Hk.
    + by destruct (IH q) as (_ & _ & Hs).
    + constructor; intros q'; cbn [fst snd]; [by apply Hframe|constructor].
Qed.

(** A pass of [d] over items among [all]: up to its first await it
    leaves the cache and the timers alone, and every later stretch is an
    [ownStep]. *)
Lemma detectSteps_within d all lines startLine items links p :
  (∀ it, it ∈ items → it ∈ all) →
  cachedValidatedLinks (detectSteps d lines startLine items links p).2
    = cachedValidatedLinks p ∧
  window (detectSteps d lines startLine items links p).2 = window p ∧
  steps_within (ownStep d all) (detectSteps d lines startLine items links p).1.
Proof.
  revert links p. induction items as [|it items IH]; intros links p Hall.
  { cbn [detectSteps fst snd]. split_and!; [done..|constructor]. }
  assert (∀ it', it' ∈ items → it' ∈ all) as Hall' by (intros it' ?; apply Hall; by right).
  rewrite detectSteps_cons.
  destruct (cachedValidatedLinks p !! itemLink it) as [[ls|]|]; [by apply IH..|].
  apply validateSteps_within.
  - intros q q' Hc Hw. split; [done|by left].
  - intros v q.
    destruct (IH links (stored d (itemLink it) v q) Hall') as (Hc & Hw & Hs).
    split; [|done]. split; [by rewrite Hw, stored_window|].
    rewrite Hc. unfold stored. destruct (_enableCaching d) eqn:He; [|by left].
    right. split; [done|]. exists it, v. split; [apply Hall; by left|done].
Qed.

Lemma detectStart_unfold d lines startLine endLine p :
  let d1 := (resetCacheTimeout d (window p)).1 in
  let text := getXtermLineContent (xterm d) startLine endLine in
  detectStart d lines startLine endLine p =
  if bool_decide (text = []) || (MaxLineLength <? length text)
  then Some (d1, Finished (Fulfilled []), afterReset d p)
  else items ← scan (_os d) text;
       Some (d1, (detectSteps d1 lines startLine items [] (afterReset d p)).1,
                 (detectSteps d1 lines startLine items [] (afterReset d p)).2).
Proof.
  cbv zeta. unfold detectStart, afterReset.
  destruct (resetCacheTimeout_fields d (window p)) as (Hx & Ho & _ & _).
  destruct (resetCacheTimeout d (window p)) as [d1 w1]. simpl in *. by rewrite Hx, Ho.
Qed.

(** The start of a [detect] call resets the timer as lines 76-81 say and
    leaves the cache as it is; no later stretch of the pass touches the
    timers. *)
Lemma detectStart_timers d lines startLine endLine p r :
  detectStart d lines startLine endLine p = Some r →
  r.1.1 = (resetCacheTimeout d (window p)).1 ∧
  window r.2 = (resetCacheTimeout d (window p)).2 ∧
  cachedValidatedLinks r.2 = cachedValidatedLinks p ∧
  steps_within (fun q q' => window q' = window q) r.1.2.
Proof.
  rewrite detectStart_unfold. cbv zeta. destruct (bool_decide _ || _).
  { intros [= <-]. split_and!; [done..|constructor]. }
  destruct (scan _ _) as [items|]; [|done]. intros [= <-]. cbn [fst snd].
  destruct (detectSteps_within (resetCacheTimeout d (window p)).1 items lines startLine
              items [] (afterReset d p)) as (Hc & Hw & Hs); [done|].
  split_and!; [done|by rewrite Hw|by rewrite Hc|].
  eapply steps_within_mono; [|exact Hs]. by intros q q' [? _].
Qed.

(** Up to its first await a pass leaves the cache as it is, and every
    later stretch is an [ownStep] for the items of its line. *)
Lemma detectStart_within d lines startLine endLine p r items :
  detectStart d lines startLine endLine p = Some r →
  scan (_os d) (getXtermLineContent (xterm d) startLine endLine) = Some items →
  cachedValidatedLinks r.2 = cachedValidatedLinks p ∧
  steps_within (ownStep d items) r.1.2.
Proof.
  rewrite detectStart_unfold. cbv zeta. destruct (bool_decide _ || _).
  { intros [= <-] _. split; [done|constructor]. }
  intros Hr Hscan. rewrite Hscan in Hr. injection Hr as <-. cbn [fst snd].
  destruct (detectSteps_within (resetCacheTimeout d (window p)).1 items lines startLine
              items [] (afterReset d p)) as (Hc & _ & Hs); [done|].
  split; [by rewrite Hc|].
  eapply steps_within_mono; [|exact Hs]. intros q q' [Hw Hcache]. split; [done|].
  destruct (resetCacheTimeout_fields d (window p)) as (_ & _ & _ & He).
  by rewrite <-He.
Qed.

(** The start of a [detect] call always returns. *)
Lemma detectStart_total d lines startLine endLine p :
  is_Some (detectStart d lines startLine endLine p).
Proof.
  rewrite detectStart_unfold. cbv zeta. destruct (bool_decide _ || _); [done|].
  destruct (scan_total (_os d) (getXtermLineContent (xterm d) startLine endLine))
    as [items ->]. done.
Qed.

(** *** Time and the timers *)

Lemma elapse_now dt p : now (window (elapse dt p)) = (now (window p) + dt)%N.
Proof. unfold elapse, fireTimers. by case_bool_decide. Qed.

Lemma elapse_nextHandle dt p :
  nextHandle (window (elapse dt p)) = nextHandle (window p).
Proof. unfold elapse, fireTimers. by case_bool_decide. Qed.

(** After [dt] the timers still armed are those whose time has not come. *)
Lemma elapse_pending dt p h t :
  pending (window (elapse dt p)) !! h = Some t ↔
  pending (window p) !! h = Some t ∧ (now (window p) + dt < t)%N.
Proof.
  unfold elapse, fireTimers. cbn [window pending now].
  case_bool_decide as Hnone; cbn [window pending].
  - split; [|by intros [? _]]. intros Hh. split; [done|].
    destruct (N.ltb_spec (now (window p) + dt) t) as [|Hle]; [done|].
    assert (filter (fun ht : nat * N => due ht.2
              (mkWindow (now (window p) + dt) (nextHandle (window p)) (pending (window p)))
              = true) (pending (window p)) !! h = Some t) as Hin.
    { apply map_lookup_filter_Some. split; [done|]. unfold due. simpl. by apply N.leb_le. }
    by rewrite Hnone, lookup_empty in Hin.
  - rewrite map_lookup_filter_Some. unfold due. cbn [snd now].
    rewrite N.leb_gt. done.
Qed.

(** When the time of an armed timer has come the cache is cleared. *)
Lemma elapse_clears dt p h t :
  pending (window p) !! h = Some t → (t ≤ now (window p) + dt)%N →
  cachedValidatedLinks (elapse dt p) = ∅.
Proof.
  intros Hh Hle. unfold elapse, fireTimers. cbn [window pending now].
  rewrite bool_decide_eq_false_2; [done|]. intros Hnone.
  assert (filter (fun ht : nat * N => due ht.2
            (mkWindow (now (window p) + dt) (nextHandle (window p)) (pending (window p)))
            = true) (pending (window p)) !! h = Some t) as Hin.
  { apply map_lookup_filter_Some. split; [done|]. unfold due. simpl. by apply N.leb_le. }
  by rewrite Hnone, lookup_empty in Hin.
Qed.

(** While the time of no armed timer has come, time leaves the cache
    and the timers as they are. *)
Lemma elapse_keeps dt p :
  (∀ h t, pending (window p) !! h = Some t → (now (window p) + dt < t)%N) →
  cachedValidatedLinks (elapse dt p) = cachedValidatedLinks p ∧
  pending (window (elapse dt p)) = pending (window p).
Proof.
  intros Hnone. unfold elapse, fireTimers. cbn [window pending now].
  rewrite bool_decide_eq_true_2; [done|].
  apply map_empty. intros h. apply map_lookup_filter_None. right.
  intros t Ht. unfold due. cbn [snd now]. apply Hnone in Ht.
  intros Hdue%N.leb_le. lia.
Qed.

(** *** The timers of a process with passes in flight *)

Lemma dated_frame P0 (L L' : nat → option N) s s' :
  window (proc (sys s')) = window (proc (sys s)) →
  detectors (sys s') = detectors (sys s) →
  Forall (steps_within (fun q q' => window q' = window q)) (inflight s') →
  (∀ i, L' i = L i) →
  timers_dated P0 L s → timers_dated P0 L' s'.
Proof.
  intros Hw Hd Hfl HL (Hown & [Hpos Hbelow] & _ & Hc & Hd' & He).
  unfold timers_dated, timers_owned, handles_fresh. rewrite Hw, Hd.
  split_and!; [done..| | |].
  - intros h t Hh. destruct (Hc h t Hh) as (i & d & ? & ? & ?).
    exists i, d. by rewrite HL.
  - intros i d t0 Hi. rewrite HL. by apply Hd'.
  - intros i j d d' t0. rewrite HL. by apply He.
Qed.

Lemma move_dated P0 L s e s' :
  timers_dated P0 L s → move s e = Some s' →
  timers_dated P0
    (fun i => if arms i s e then Some (now (window (proc (sys s)))) else L i) s'.
Proof.
  intros HJ. pose proof HJ as (Hown & [Hpos Hbelow] & Hfl & Hc & Hd & He).
  destruct e as [j lines startLine endLine|k|dt]; cbn [move arms].
  - destruct (detectors (sys s) !! j) as [dj|] eqn:Hj; [|done]. cbn [mbind option_bind].
    destruct (detectStart dj lines startLine endLine (proc (sys s))) as [r|] eqn:Hr; [|done].
    cbn [mbind option_bind from_option]. intros [= <-].
    apply detectStart_timers in Hr as (Hd1 & Hw & _ & Hs).
    destruct (_enableCaching dj) eqn:Hen.
    2:{ rewrite resetCacheTimeout_disabled in Hd1, Hw by done. cbn [fst snd] in Hd1, Hw.
        apply (dated_frame P0 L _ s); cbn [sys proc detectors inflight]; [done| | |
          |done].
        - by rewrite Hd1, list_insert_id.
        - apply Forall_app. split; [done|]. by constructor.
        - intros i. by rewrite andb_false_r. }
    destruct (resetCacheTimeout_enabled dj (window (proc (sys s))) Hen) as (Hh & Hn & Hnow & Hp).
    rewrite <-Hd1 in Hh. rewrite <-Hw in Hn, Hnow, Hp.
    set (w := window (proc (sys s))) in *.
    assert (∀ h t, pending (window r.2) !! h = Some t →
              (h = nextHandle w ∧ t = (now w + 10000)%N) ∨
              (h ≠ nextHandle w ∧ h ≠ _cacheTilTimeout dj ∧ pending w !! h = Some t))
      as Hcases.
    { intros h t Hl. rewrite Hp in Hl.
      destruct (decide (nextHandle w = h)) as [<-|Hne].
      { rewrite lookup_insert_eq in Hl. left. split; [done|congruence]. }
      right. rewrite lookup_insert_ne in Hl by done. split; [done|].
      destruct (Nat.eqb_spec (_cacheTilTimeout dj) 0) as [Hz|Hz].
      - split; [|done]. intros ->. apply Hpos in Hl. lia.
      - apply lookup_delete_Some in Hl as [? ?]. done. }
    assert (∀ h, h ≠ nextHandle w → h ≠ _cacheTilTimeout dj →
              pending (window r.2) !! h = pending w !! h) as Hother.
    { intros h Hne1 Hne2. rewrite Hp, lookup_insert_ne by done.
      destruct (_cacheTilTimeout dj =? 0); [done|]. by rewrite lookup_delete_ne. }
    assert (j < length (detectors (sys s))) as Hlt by (by eapply lookup_lt_Some).
    unfold timers_dated, timers_owned, handles_fresh.
    cbn [sys proc detectors inflight].
    split_and!.
    + intros h t [[-> _]|(Hne & Hnj & Hold)]%Hcases.
      * exists j, r.1.1. split; [|done]. by apply list_lookup_insert_eq.
      * destruct (Hown h t Hold) as (i & di & Hi & Hhi).
        exists i, di. split; [|done].
        rewrite list_lookup_insert_ne; [done|]. intros ->. congruence.
    + intros h t [[-> _]|(Hne & _ & Hold)]%Hcases; rewrite Hn.
      * pose proof (Hbelow j dj Hj). lia.
      * apply Hpos in Hold. lia.
    + intros i di. rewrite Hn.
      destruct (decide (j = i)) as [<-|Hne].
      * rewrite list_lookup_insert_eq by done. intros [= <-]. lia.
      * rewrite list_lookup_insert_ne by done. intros Hi%Hbelow. lia.
    + apply Forall_app. split; [done|]. by constructor.
    + intros h t Hl. destruct (Hcases h t Hl) as [[-> ->]|(Hne & Hnj & Hold)].
      * exists j, r.1.1. split_and!; [by apply list_lookup_insert_eq|done|].
        by rewrite bool_decide_eq_true_2.
      * destruct (Hc h t Hold) as (i & di & Hi & Hhi & HL).
        assert (i ≠ j) as Hij by (intros ->; congruence).
        exists i, di. split_and!; [by rewrite list_lookup_insert_ne|done|].
        by rewrite bool_decide_eq_false_2.
    + intros i di t0. destruct (decide (i = j)) as [->|Hij].
      * rewrite list_lookup_insert_eq, bool_decide_eq_true_2 by done.
        intros [= <-] [= <-] _. rewrite Hh, Hp. apply lookup_insert_eq.
      * rewrite list_lookup_insert_ne, bool_decide_eq_false_2 by done.
        cbn [andb]. intros Hi HL Hlt'. rewrite Hnow in Hlt'.
        rewrite Hother; [by eapply Hd| |].
        -- apply Hbelow in Hi. lia.
        -- by eapply He.
    + intros i i' di di' t0. destruct (decide (i = j)) as [->|Hij].
      * rewrite list_lookup_insert_eq, bool_decide_eq_true_2 by done.
        intros _ Hne [= <-]. rewrite list_lookup_insert_ne by done.
        intros Hi'%Hbelow. rewrite Hh. lia.
      * rewrite (list_lookup_insert_ne _ j i), bool_decide_eq_false_2 by done.
        cbn [andb]. intros HL Hne Hi. destruct (decide (i' = j)) as [->|Hij'].
        -- rewrite list_lookup_insert_eq by done. intros [= <-]. rewrite Hh.
           apply Hbelow in Hi. lia.
        -- rewrite list_lookup_insert_ne by done. intros Hi'. by eapply He.
  - destruct (inflight s !! k) as [[c|a resume]|] eqn:Hk; [done| |done].
    cbn [mbind option_bind]. intros [= <-].
    pose proof (Forall_lookup_1 _ _ _ _ Hfl Hk) as Hs. inversion Hs as [|? ? Hstep Hrest]; subst.
    apply (dated_frame P0 L _ s); cbn [sys proc detectors inflight]; [by apply Hstep|done| |done|done].
    apply Forall_insert; [done|apply Hrest].
  - intros [= <-]. unfold timers_dated, timers_owned, handles_fresh.
    cbn [sys proc detectors inflight].
    split_and!; [| | |done| | |done].
    + intros h t [Hh _]%elapse_pending. eauto.
    + intros h t [Hh _]%elapse_pending. rewrite elapse_nextHandle. eauto.
    + intros i di Hi. rewrite elapse_nextHandle. eauto.
    + intros h t [Hh _]%elapse_pending. eauto.
    + intros i di t0 Hi HL Hlt. rewrite elapse_now in Hlt.
      apply elapse_pending. split; [|lia]. eapply Hd; [done..|lia].
Qed.

Lemma moves_dated P0 L s es s' :
  timers_dated P0 L s → moves s es = Some s' →
  timers_dated P0 (fun i => lastCall i s es (L i)) s'.
Proof.
  revert s L. induction es as [|e es IH]; intros s L HJ; cbn [moves lastCall].
  - by intros [= <-].
  - destruct (move s e) as [s1|] eqn:Hmove; [|done]. cbn [mbind option_bind].
    intros Hrest. exact (IH s1 _ (move_dated P0 L s e s1 HJ Hmove) Hrest).
Qed.

End SuspendedFacts.

(** * The claims *)

(** C1 (the code departs from the claim).  The claim: when the text of a
    match is absent from the cache and validation of its candidates
    succeeds, [detect] appends the link in that same pass.  The code: a
    pass over [../../x/y.ts], with an empty cache and a resolver that
    finds only the stripped fallback [x/y.ts], asks the resolver for both
    candidates, caches the resolved link under the matched text, and
    returns no link; only the next pass returns it, from the cache. *)
Theorem resolved_miss_emits_no_link :
  let d := detectorOn (str "../../x/y.ts") [str "x/y.ts"] [] in
  observe (detect d tt 0 0 (processWith ∅)) =
    Some (Fulfilled [],
          [str "../../x/y.ts"; str "x/y.ts"],
          [(str "../../x/y.ts", Some (fileAt (str "x/y.ts")))]) ∧
  observe (detectTwice d (processWith ∅)) =
    Some (Fulfilled [@mkLink exampleHost (str "/ws/x/y.ts") (str "file:///ws/x/y.ts")
                       (1, 13)%Z LocalFile],
          [str "../../x/y.ts"; str "x/y.ts"],
          [(str "../../x/y.ts", Some (fileAt (str "x/y.ts")))]).
Proof. split; vm_compute; reflexivity. Qed.

(** C2.  A match whose text the cache maps to the NOT_FOUND sentinel
    ([null]) yields no link and no call of the resolver: its turn of the
    loop leaves the links and the whole process state as they were
    (first part); a pass gives the same completion, the same resolver
    log and the same state as the pass over the line with every match
    of that text left out (second part); and the entry is still
    NOT_FOUND after the pass, so that, until the cache is cleared,
    another pass does the same (third part). *)
Theorem not_found_short_circuits `{H : Host} d lines startLine link items links p :
  cachedValidatedLinks p !! link = Some None →
  (∀ range, validateAndPush d link range links p = (Fulfilled links, p)) ∧
  processItems d lines startLine items links p =
    processItems d lines startLine (filter (fun it => itemLink it ≠ link) items) links p ∧
  cachedValidatedLinks (processItems d lines startLine items links p).2 !! link = Some None.
Proof.
  intros Hnull. split_and!.
  - intros range. by apply validateAndPush_not_found.
  - revert links p Hnull. induction items as [|it items IH]; intros links p Hnull; [done|].
    rewrite filter_cons. destruct (decide (itemLink it ≠ link)) as [Hne|Heq].
    + cbn [processItems]. unfold bind.
      pose proof (validateAndPush_keeps d (itemLink it)
        (convertLinkRangeToBuffer lines (xterm d)
           ((itemIndex it + 1)%Z, (itemIndex it + Z.of_nat (length (itemLink it)) + 1)%Z)
           startLine) links p link None Hnull) as Hk.
      unfold processItem.
      destruct (validateAndPush _ _ _ _ _) as [[links'|e] p']; simpl in *; [|done].
      by apply IH.
    + apply dec_stable in Heq. cbn [processItems]. unfold bind, processItem.
      rewrite Heq, validateAndPush_not_found by done. by apply IH.
  - by apply processItems_keeps.
Qed.

(** The line [no/such ok/file no/such], with [no/such] cached as
    NOT_FOUND: the pass behaves as the pass over [ok/file] alone. *)
Lemma not_found_short_circuits_witness :
  let d := detectorOn (str "no/such ok/file no/such") [str "ok/file"] [] in
  let p := processWith {[ str "no/such" := None ]} in
  let items := [mkItem (str "no/such") 0 (str "no/such") 0;
                mkItem (str "ok/file") 8 (str "ok/file") 8;
                mkItem (str "no/such") 16 (str "no/such") 16] in
  scan Linux (str "no/such ok/file no/such") = Some items ∧
  cachedValidatedLinks p !! str "no/such" = Some None ∧
  (∀ range, validateAndPush d (str "no/such") range [] p = (Fulfilled [], p)) ∧
  processItems d tt 0 items [] p =
    processItems d tt 0 (filter (fun it => itemLink it ≠ str "no/such") items) [] p ∧
  cachedValidatedLinks (processItems d tt 0 items [] p).2 !! str "no/such" = Some None.
Proof.
  split; [vm_compute; reflexivity|].
  split; [vm_compute; reflexivity|].
  apply (not_found_short_circuits
           (detectorOn (str "no/such ok/file no/such") [str "ok/file"] []) tt 0%Z
           (str "no/such")).
  vm_compute; reflexivity.
Defined.

(** Through [detect]: a first pass over [no/such] asks the resolver once
    and caches NOT_FOUND; the second pass returns no link and asks nothing. *)
Example not_found_cached_twice :
  observe (detect (detectorOn (str "no/such") [] []) tt 0 0 (processWith ∅)) =
    Some (Fulfilled [], [str "no/such"], [(str "no/such", None)]) ∧
  observe (detectTwice (detectorOn (str "no/such") [] []) (processWith ∅)) =
    Some (Fulfilled [], [str "no/such"], [(str "no/such", None)]).
Proof. split; vm_compute; reflexivity. Qed.

(** C3.  For every match the scanner records: when the line starts with
    [--- a/] or [+++ b/] and the match was found at string index 4, or the
    line starts with [diff --git] and the matched text starts with [a/] or
    [b/], the text that goes on (to the buffer range, the cache and the
    resolver) is the matched text without its first two characters, and
    its index is the found index plus 2. *)
Theorem diff_prefix_stripped os text items it :
  scan os text = Some items → it ∈ items →
  ((str "--- a/" `prefix_of` text ∨ str "+++ b/" `prefix_of` text) ∧ rawIndex it = 4%Z) ∨
  (str "diff --git" `prefix_of` text ∧
     (str "a/" `prefix_of` rawLink it ∨ str "b/" `prefix_of` rawLink it)) →
  itemLink it = drop 2 (rawLink it) ∧ itemIndex it = (rawIndex it + 2)%Z.
Proof.
  intros Hscan Hit Hdiff.
  apply scanLoop_adjusted in Hscan.
  apply (proj1 (Forall_forall _ _) Hscan) in Hit.
  assert (looksLikeDiff text (rawLink it) (rawIndex it) = true) as Hlooks.
  { unfold looksLikeDiff. apply orb_true_iff.
    destruct Hdiff as [[Hp ->]|[Hp Hl]]; [left|right]; apply andb_true_iff.
    - split; [|done]. apply orb_true_iff.
      destruct Hp as [Hp|Hp]; [left|right]; by apply JSFacts.startsWith_prefix.
    - split; [by apply JSFacts.startsWith_prefix|]. apply orb_true_iff.
      destruct Hl as [Hl|Hl]; [left|right]; by apply JSFacts.startsWith_prefix. }
  unfold adjustDiff in Hit. rewrite Hlooks in Hit. by injection Hit as -> ->.
Qed.

(** The line [--- a/src/foo.ts]: the match [a/src/foo.ts] at index 4 goes
    on as [src/foo.ts] at index 6. *)
Lemma diff_prefix_stripped_witness :
  let text := str "--- a/src/foo.ts" in
  let it := mkItem (str "a/src/foo.ts") 4 (str "src/foo.ts") 6 in
  scan Linux text = Some [it] ∧
  itemLink it = drop 2 (rawLink it) ∧ itemIndex it = (rawIndex it + 2)%Z.
Proof.
  split; [vm_compute; reflexivity|].
  apply (diff_prefix_stripped Linux (str "--- a/src/foo.ts")
           [mkItem (str "a/src/foo.ts") 4 (str "src/foo.ts") 6]).
  - vm_compute; reflexivity.
  - apply list_elem_of_here.
  - left. split; [left; by exists (str "src/foo.ts")|reflexivity].
Defined.

(** The same line through [detect], with [src/foo.ts] in the cache: the
    link covers columns 7 to 17, the path without [a/]. *)
Example diff_prefix_detect :
  observe (detect (detectorOn (str "--- a/src/foo.ts") [] []) tt 0 0
             (processWith {[ str "src/foo.ts" := Some (fileAt (str "src/foo.ts")) ]})) =
  Some (Fulfilled [@mkLink exampleHost (str "/ws/src/foo.ts") (str "file:///ws/src/foo.ts")
                     (7, 17)%Z
                     LocalFile],
        [], [(str "src/foo.ts", Some (fileAt (str "src/foo.ts")))]).
Proof. vm_compute. reflexivity. Qed.

(** [diff --git a/x/y.c b/x/y.c]: both matches lose their prefix. *)
Example diff_git_scan :
  scan Linux (str "diff --git a/x/y.c b/x/y.c") =
  Some [mkItem (str "a/x/y.c") 11 (str "x/y.c") 13; mkItem (str "b/x/y.c") 19 (str "x/y.c") 21].
Proof. vm_compute. reflexivity. Qed.

(** C4.  When the reconstructed line is empty or longer than 2000
    characters, [detect] fulfils with no link: nothing is scanned, the
    resolver is not called, the cache is as it was (only the cache timer
    is reset).  Otherwise, so also at exactly 2000 characters, the line is
    scanned and every scanned item is processed. *)
Theorem length_bound `{H : Host} d lines startLine endLine p :
  let text := getXtermLineContent (xterm d) startLine endLine in
  let d1 := (resetCacheTimeout d (window p)).1 in
  let p1 := mkProcess (cachedValidatedLinks p) (resetCacheTimeout d (window p)).2
              (world p) (resolverLog p) in
  (text = [] ∨ 2000 < length text →
     detect d lines startLine endLine p = Some (d1, Fulfilled [], p1)) ∧
  (text ≠ [] → length text ≤ 2000 →
     ∃ items, scan (_os d) text = Some items ∧
       detect d lines startLine endLine p =
         Some (d1, (processItems d1 lines startLine items [] p1).1,
                   (processItems d1 lines startLine items [] p1).2)).
Proof.
  cbv zeta. rewrite detect_unfold. cbv zeta. unfold MaxLineLength. split.
  - intros [->|Hlong]; [done|].
    rewrite (proj2 (Nat.ltb_lt _ _) Hlong). by rewrite orb_true_r.
  - intros Hne Hle.
    rewrite bool_decide_eq_false_2 by done.
    rewrite (proj2 (Nat.ltb_ge _ _) Hle). cbn [orb].
    destruct (scan_total (_os d) (getXtermLineContent (xterm d) startLine endLine))
      as [items Hitems].
    exists items. by rewrite Hitems.
Qed.

(** A line of 2001 characters yields no link although its path is in the
    cache; the line of 2000 characters is scanned and yields the link. *)
Lemma length_bound_witness :
  let p := processWith {[ str "/a/b" := Some (fileAt (str "a/b")) ]} in
  let long := detectorOn (paddedLine 1997) [] [] in
  let full := detectorOn (paddedLine 1996) [] [] in
  length (paddedLine 1997) = 2001 ∧ length (paddedLine 1996) = 2000 ∧
  (fun r => r.1.2) <$> detect long tt 0 0 p = Some (Fulfilled []) ∧
  (∃ items, scan Linux (paddedLine 1996) = Some items ∧
     detect full tt 0 0 p =
       Some ((resetCacheTimeout full (window p)).1,
             (processItems (resetCacheTimeout full (window p)).1 tt 0 items []
                (mkProcess (cachedValidatedLinks p) (resetCacheTimeout full (window p)).2
                   (world p) (resolverLog p))).1,
             (processItems (resetCacheTimeout full (window p)).1 tt 0 items []
                (mkProcess (cachedValidatedLinks p) (resetCacheTimeout full (window p)).2
                   (world p) (resolverLog p))).2)).
Proof.
  split; [vm_compute; reflexivity|]. split; [vm_compute; reflexivity|]. split.
  - rewrite (proj1 (length_bound (detectorOn (paddedLine 1997) [] []) tt 0%Z 0%Z
                      (processWith {[ str "/a/b" := Some (fileAt (str "a/b")) ]}))); [done|].
    right. vm_compute. lia.
  - apply (proj2 (length_bound (detectorOn (paddedLine 1996) [] []) tt 0%Z 0%Z
                    (processWith {[ str "/a/b" := Some (fileAt (str "a/b")) ]}))).
    + discriminate.
    + vm_compute. lia.
Defined.

Example length_2000_detect :
  observe (detect (detectorOn (paddedLine 1996) [] []) tt 0 0
             (processWith {[ str "/a/b" := Some (fileAt (str "a/b")) ]})) =
  Some (Fulfilled [@mkLink exampleHost (str "/ws/a/b") (str "file:///ws/a/b") (1, 5)%Z LocalFile],
        [], [(str "/a/b", Some (fileAt (str "a/b")))]).
Proof. vm_compute. reflexivity. Qed.

Example length_2001_detect :
  observe (detect (detectorOn (paddedLine 1997) [] []) tt 0 0
             (processWith {[ str "/a/b" := Some (fileAt (str "a/b")) ]})) =
  Some (Fulfilled [], [], [(str "/a/b", Some (fileAt (str "a/b")))]).
Proof. vm_compute. reflexivity. Qed.

(** C5.  The candidate list is the matched text, followed by the text
    with all its leading [../] and [..\\] segments stripped exactly when it
    begins with such a segment.  The validator asks the resolver for the
    candidates in the order of the list: when all answer [undefined] the
    result is absent and each was asked once; when the candidates before
    [c] answer [undefined] and [c] answers a link, the result is that link
    and the candidates after [c] are not asked. *)
Theorem candidates_in_order `{H : Host} d link p :
  linkCandidates link =
    (if beginsWithParentTraversal link then [link; stripParentTraversal link] else [link]) ∧
  (∀ cands w',
     resolveAllFail d cands (world p) = Some w' →
     _validateLinkCandidates d cands p =
       (Fulfilled None,
        mkProcess (cachedValidatedLinks p) (window p) w' (resolverLog p ++ cands))) ∧
  (∀ pre c post w1 v w2,
     resolveAllFail d pre (world p) = Some w1 →
     _resolvePath d c w1 = (Fulfilled (Some v), w2) →
     _validateLinkCandidates d (pre ++ c :: post) p =
       (Fulfilled (Some v),
        mkProcess (cachedValidatedLinks p) (window p) w2 (resolverLog p ++ pre ++ [c]))).
Proof.
  split_and!.
  - apply linkCandidates_spec.
  - intros cands w'. apply validate_all_fail.
  - intros pre c post w1 v w2 Hpre Hc. by eapply validate_stops_at.
Qed.

(** [../../x/y.ts] with a resolver that finds [x/y.ts] only: the
    candidates are the text and the stripped text, the first answers
    [undefined], the second is the result. *)
Lemma candidates_in_order_witness :
  let d := detectorOn (str "../../x/y.ts") [str "x/y.ts"] [] in
  let p := processWith ∅ in
  linkCandidates (str "../../x/y.ts") = [str "../../x/y.ts"; str "x/y.ts"] ∧
  linkCandidates (str "..\..\x") = [str "..\..\x"; str "x"] ∧
  linkCandidates (str "x/../y") = [str "x/../y"] ∧
  _validateLinkCandidates d [str "../../x/y.ts"; str "x/y.ts"] p =
    (Fulfilled (Some (fileAt (str "x/y.ts"))),
     logged [str "../../x/y.ts"; str "x/y.ts"]) ∧
  _validateLinkCandidates d [str "a"; str "b"] p =
    (Fulfilled None, logged [str "a"; str "b"]).
Proof.
  pose proof (candidates_in_order
                (detectorOn (str "../../x/y.ts") [str "x/y.ts"] [])) as Hc.
  pose (p0 := processWith ∅).
  split_and!.
  - rewrite (proj1 (Hc (str "../../x/y.ts") p0)). reflexivity.
  - rewrite (proj1 (Hc (str "..\..\x") p0)). reflexivity.
  - rewrite (proj1 (Hc (str "x/../y") p0)). reflexivity.
  - apply (proj2 (proj2 (Hc [] p0)) [str "../../x/y.ts"] (str "x/y.ts") []
             (tt : @World exampleHost) (fileAt (str "x/y.ts")) (tt : @World exampleHost));
      reflexivity.
  - apply (proj1 (proj2 (Hc [] p0)) [str "a"; str "b"] (tt : @World exampleHost)).
    reflexivity.
Defined.

(** C6 (the code departs from the claim).  The claim: the matches of one
    scan never overlap.  The code: on [a/b/c b/c], two paths separated by
    a space, the second match [b/c] is looked up with [indexOf] from
    index 1 and found at index 2, inside the first match [a/b/c] of
    indices 0 to 5; the pattern then matches [b/c] again and the scan
    yields three items, the second overlapping the first. *)
Theorem scan_overlap :
  let a := mkItem (str "a/b/c") 0 (str "a/b/c") 0 in
  let b := mkItem (str "b/c") 2 (str "b/c") 2 in
  let c := mkItem (str "b/c") 6 (str "b/c") 6 in
  scan Linux (str "a/b/c b/c") = Some [a; b; c] ∧ overlaps a b.
Proof. split; [vm_compute; reflexivity|]. split; vm_compute; reflexivity. Qed.

(** Two paths that do not share text are two disjoint items. *)
Example scan_two_paths :
  scan Linux (str "a/b c/d") =
  Some [mkItem (str "a/b") 0 (str "a/b") 0; mkItem (str "c/d") 4 (str "c/d") 4].
Proof. vm_compute. reflexivity. Qed.

(** C7 (counterexample).  For [foo/bar.ts:45:9] the group at the platform
    constant is not the block [:45:9]: it is undefined, on both platforms. *)
Lemma suffix_constant_is_not_the_block :
  groupsAt Linux (str "foo/bar.ts:45:9") [unixLineAndColumnMatchIndex] ≠ [Some (str ":45:9")] ∧
  groupsAt Windows (str "foo/bar.ts:45:9") [winLineAndColumnMatchIndex] ≠ [Some (str ":45:9")] ∧
  groupsAt Linux (str "foo/bar.ts:45:9") [unixLineAndColumnMatchIndex] = [None] ∧
  groupsAt Windows (str "foo/bar.ts:45:9") [winLineAndColumnMatchIndex] = [None].
Proof. split_and!; vm_compute; congruence. Qed.

(** C7 (amended).  The suffix grammar is a disjunction of six forms with
    six capturing groups each ([lineAndColumnClauseGroupCount]), and it is
    the body of the last group of either pattern.  The platform constant
    (11 for POSIX, 12 for Windows) is the index of the line-number group
    [(\d+)] of the first form; the line-number group of form [i] (from 0)
    is at the constant plus [6 * i], its column-number group 2 further,
    and the group of the whole form 3 before.  For [foo/bar.ts:45:9] the
    sixth form matches: the group at the constant plus 30 is [45], the one
    2 further is [9], the group at the constant is undefined, and the
    block [:45:9] is the group 4 before the constant (7 and 8).  When the
    first form matches, the group at the constant is the line number. *)
Theorem suffix_groups :
  length (alternatives lineAndColumnRegex) = 6 ∧
  RegExp.ngroups <$> alternatives lineAndColumnRegex
    = replicate 6 lineAndColumnClauseGroupCount ∧
  suffixOf (_localLinkRegex Linux) = RegExp.r_group lineAndColumnRegex ∧
  suffixOf (_localLinkRegex Windows) = RegExp.r_group lineAndColumnRegex ∧
  unixLineAndColumnMatchIndex = RegExp.ngroups (_localLinkRegex Linux) - 6 * 6 + 4 ∧
  winLineAndColumnMatchIndex = RegExp.ngroups (_localLinkRegex Windows) - 6 * 6 + 4 ∧
  (fun i => groupBody (_localLinkRegex Linux)
              (unixLineAndColumnMatchIndex + lineAndColumnClauseGroupCount * i))
     <$> seq 0 6 = replicate 6 (Some digits) ∧
  (fun i => groupBody (_localLinkRegex Linux)
              (unixLineAndColumnMatchIndex + lineAndColumnClauseGroupCount * i + 2))
     <$> seq 0 6 = replicate 6 (Some digits) ∧
  (fun i => RegExp.r_group <$>
            groupBody (_localLinkRegex Linux)
              (unixLineAndColumnMatchIndex + lineAndColumnClauseGroupCount * i - 3))
     <$> seq 0 6 = Some <$> alternatives lineAndColumnRegex ∧
  (fun i => groupBody (_localLinkRegex Windows)
              (winLineAndColumnMatchIndex + lineAndColumnClauseGroupCount * i))
     <$> seq 0 6 = replicate 6 (Some digits) ∧
  (fun i => groupBody (_localLinkRegex Windows)
              (winLineAndColumnMatchIndex + lineAndColumnClauseGroupCount * i + 2))
     <$> seq 0 6 = replicate 6 (Some digits) ∧
  (fun i => RegExp.r_group <$>
            groupBody (_localLinkRegex Windows)
              (winLineAndColumnMatchIndex + lineAndColumnClauseGroupCount * i - 3))
     <$> seq 0 6 = Some <$> alternatives lineAndColumnRegex ∧
  groupsAt Linux (str "foo/bar.ts:45:9")
    [0; unixLineAndColumnMatchIndex - 4; unixLineAndColumnMatchIndex;
     unixLineAndColumnMatchIndex + 30; unixLineAndColumnMatchIndex + 32]
    = [Some (str "foo/bar.ts:45:9"); Some (str ":45:9"); None; Some (str "45"); Some (str "9")] ∧
  groupsAt Windows (str "foo/bar.ts:45:9")
    [0; winLineAndColumnMatchIndex - 4; winLineAndColumnMatchIndex;
     winLineAndColumnMatchIndex + 30; winLineAndColumnMatchIndex + 32]
    = [Some (str "foo/bar.ts:45:9"); Some (str ":45:9"); None; Some (str "45"); Some (str "9")] ∧
  groupsAt Linux (str "'foo/bar', line 45 column 3")
    [unixLineAndColumnMatchIndex; unixLineAndColumnMatchIndex + 2]
    = [Some (str "45"); Some (str "3")] ∧
  groupsAt Windows (str "'foo\bar', line 45 column 3")
    [winLineAndColumnMatchIndex; winLineAndColumnMatchIndex + 2]
    = [Some (str "45"); Some (str "3")].
Proof. split_and!; vm_compute; reflexivity. Qed.

(** C8.  With the POSIX grammar, a line that is a path of the form
    [(prefix|body+)?(separator body+)+] is found by the scan, as one match
    that is the whole line at index 0; a line without [/] gives no match. *)
Theorem posix_scan_finds_paths text :
  (unix_path text → scan Linux text = Some [mkItem text 0 text 0]) ∧
  (47%N ∉ text → scan Linux text = Some []).
Proof. split; [apply scan_unix_path|apply scan_no_separator]. Qed.

(** [./foo/bar] is a path of the grammar and is found; [foo] has no
    separator and is not. *)
Lemma posix_scan_finds_paths_witness :
  unix_path (str "./foo/bar") ∧
  scan Linux (str "./foo/bar") = Some [mkItem (str "./foo/bar") 0 (str "./foo/bar") 0] ∧
  (47%N ∉ str "foo") ∧
  scan Linux (str "foo") = Some [].
Proof.
  assert (unix_path (str "./foo/bar")) as Hp.
  { exists (str "."), [str "foo"; str "bar"]. split_and!; [reflexivity| |discriminate|].
    - right. left. by left.
    - repeat constructor; try discriminate; apply body_class; vm_compute; reflexivity. }
  assert (47%N ∉ str "foo") as Hn by (apply (bool_decide_unpack _); vm_compute; exact I).
  split_and!; [exact Hp| |exact Hn|].
  - exact (proj1 (posix_scan_finds_paths (str "./foo/bar")) Hp).
  - exact (proj2 (posix_scan_finds_paths (str "foo")) Hn).
Defined.

Example posix_scan_examples :
  scan Linux (str "./foo/bar") = Some [mkItem (str "./foo/bar") 0 (str "./foo/bar") 0] ∧
  scan Linux (str "../a/b") = Some [mkItem (str "../a/b") 0 (str "../a/b") 0] ∧
  scan Linux (str "~/x") = Some [mkItem (str "~/x") 0 (str "~/x") 0] ∧
  scan Linux (str "/etc/hosts") = Some [mkItem (str "/etc/hosts") 0 (str "/etc/hosts") 0] ∧
  scan Linux (str "foo") = Some [] ∧
  scan Linux (str "see ./foo/bar and /etc/hosts") =
    Some [mkItem (str "./foo/bar") 4 (str "./foo/bar") 4;
          mkItem (str "/etc/hosts") 18 (str "/etc/hosts") 18].
Proof. split_and!; vm_compute; reflexivity. Qed.

(** C9 (counterexample).  After a pass of each of two detectors two
    timers are armed: the second pass did not cancel the timer of the
    first.  And the cache is not cleared after a quiet period: the first
    detector runs at time 0, the second at 6 s and caches [c/d]; at 10 s
    the timer of the first fires and the cache is empty, 4 s after the
    last pass, with the timer of the second still armed. *)
Lemma two_timers_armed :
  let s2 := default twoDetectors (run twoDetectors [passOf 0; passOf 1]) in
  run twoDetectors [passOf 0; passOf 1] = Some s2 ∧
  armed s2 = [Some 10000%N; Some 10000%N] ∧
  ¬ size (pending (window (proc s2))) ≤ 1 ∧
  (fun s => (armed s, cacheAt s [str "a/b"; str "c/d"]))
    <$> run twoDetectors [passOf 0; ev_elapse 6000; passOf 1]
    = Some ([Some 10000%N; Some 16000%N],
            (2, [Some (Some (fileAt (str "a/b"))); Some (Some (fileAt (str "c/d")))])) ∧
  (fun s => (armed s, cacheAt s [str "a/b"; str "c/d"], now (window (proc s))))
    <$> run twoDetectors [passOf 0; ev_elapse 6000; passOf 1; ev_elapse 4000]
    = Some ([None; Some 16000%N], (0, [None; None]), 10000%N).
Proof.
  split_and!; try (vm_compute; reflexivity).
  vm_compute. lia.
Qed.

(** C9 (amended).  In a process that starts with every armed timer held
    by a detector and no pass begun, after any sequence of starts of
    [detect] calls, resumptions of suspended passes and elapsed time:
    every armed cache-clear timer is the one whose handle some detector
    instance holds, so at most as many timers are armed as there are
    instances (one per instance, not one per process); a [detect] call
    with caching enabled cancels, before its first await, the timer of
    the handle that same instance holds, and no other, and arms its own
    timer of 10 s; every armed timer is due 10 s after the start of the
    last such call of the instance that holds it (or was armed before the
    moves), and the timer of that call stays armed until then; when an
    armed timer falls due the cache is cleared, whatever passes are then
    suspended, and while none is due the passing of time leaves the cache
    as it is. *)
Theorem one_timer_per_detector `{H : Host} s es s' :
  timers_owned (sys s) → handles_fresh (sys s) → inflight s = [] →
  moves s es = Some s' →
  timers_owned (sys s') ∧
  size (pending (window (proc (sys s')))) ≤ length (detectors (sys s')) ∧
  (∀ i d lines startLine endLine r,
     detectors (sys s') !! i = Some d → _enableCaching d = true →
     detectStart d lines startLine endLine (proc (sys s')) = Some r →
     _cacheTilTimeout r.1.1 = nextHandle (window (proc (sys s'))) ∧
     pending (window r.2) =
       <[nextHandle (window (proc (sys s'))) := (now (window (proc (sys s'))) + 10000)%N]>
         (delete (_cacheTilTimeout d) (pending (window (proc (sys s')))))) ∧
  (∀ h t, pending (window (proc (sys s'))) !! h = Some t →
     ∃ i d, detectors (sys s') !! i = Some d ∧ _cacheTilTimeout d = h ∧
       match lastCall i s es None with
       | Some t0 => t = (t0 + 10000)%N
       | None => pending (window (proc (sys s))) !! h = Some t
       end) ∧
  (∀ i d t0, detectors (sys s') !! i = Some d → lastCall i s es None = Some t0 →
     (now (window (proc (sys s'))) < t0 + 10000)%N →
     pending (window (proc (sys s'))) !! _cacheTilTimeout d = Some (t0 + 10000)%N) ∧
  (∀ dt h t, pending (window (proc (sys s'))) !! h = Some t →
     (t ≤ now (window (proc (sys s'))) + dt)%N →
     cachedValidatedLinks (elapse dt (proc (sys s'))) = ∅) ∧
  (∀ dt, (∀ h t, pending (window (proc (sys s'))) !! h = Some t →
            (now (window (proc (sys s'))) + dt < t)%N) →
     cachedValidatedLinks (elapse dt (proc (sys s'))) = cachedValidatedLinks (proc (sys s'))).
Proof.
  intros Hown Hfresh Hnone Hrun.
  assert (timers_dated (pending (window (proc (sys s)))) (fun _ => None) s) as HJ.
  { split_and!; [done|done|by rewrite Hnone| |done|done].
    intros h t Hh. destruct (Hown h t Hh) as (i & d & ? & ?). by exists i, d. }
  destruct (moves_dated _ _ s es s' HJ Hrun) as (Hown' & [Hpos Hbelow] & _ & Hc & Hd & _).
  split_and!; [done| | |done|done| |].
  - rewrite <-(length_fmap _cacheTilTimeout), <-size_dom.
    etrans; [|apply size_list_to_set_le]. apply subseteq_size.
    intros h [t Ht]%elem_of_dom. destruct (Hown' h t Ht) as (i & d & Hi & <-).
    apply elem_of_list_to_set, list_elem_of_fmap. exists d. split; [done|].
    by eapply list_elem_of_lookup_2.
  - intros i d lines startLine endLine r Hi He Hr.
    apply detectStart_timers in Hr as (-> & -> & _).
    destruct (resetCacheTimeout_enabled d (window (proc (sys s'))) He) as (-> & _ & _ & ->).
    split; [done|]. f_equal.
    destruct (Nat.eqb_spec (_cacheTilTimeout d) 0) as [Hz|Hz]; [|done].
    rewrite delete_id; [done|]. rewrite Hz.
    destruct (pending (window (proc (sys s'))) !! 0) as [t|] eqn:Ht; [|done].
    apply Hpos in Ht. lia.
  - intros dt h t Hh Hle. by eapply elapse_clears.
  - intros dt Hnot. by apply elapse_keeps.
Qed.

(** Two detectors.  The first begins a pass over [a/b] at time 0, the
    second a pass over [c/d] at 6 s; the first pass is resumed and caches
    [a/b], and the first detector calls [detect] again, still at 6 s:
    that call cancels the timer of handle 1, its own, and no other.  At
    10 s, the time of the cancelled timer, nothing fires; the second pass
    is resumed and caches [c/d].  Two timers are armed, one per detector,
    each for 10 s after the start of the last call of its holder. *)
Lemma one_timer_per_detector_witness :
  let es := [startOf 0; waitFor 6000; startOf 1; resumeOf 0; resumeOf 0;
             startOf 0; waitFor 4000; resumeOf 1; resumeOf 1] in
  let s' := default twoRunning (moves twoRunning es) in
  armed (sys s') = [None; Some 16000%N; Some 16000%N] ∧
  cacheAt (sys s') [str "a/b"; str "c/d"] =
    (2, [Some (Some (fileAt (str "a/b"))); Some (Some (fileAt (str "c/d")))]) ∧
  now (window (proc (sys s'))) = 10000%N ∧
  lastCall 0 twoRunning es None = Some 6000%N ∧
  lastCall 1 twoRunning es None = Some 6000%N ∧
  timers_owned (sys twoRunning) ∧ handles_fresh (sys twoRunning) ∧
  inflight twoRunning = [] ∧
  moves twoRunning es = Some s' ∧
  (timers_owned (sys s') ∧
   size (pending (window (proc (sys s')))) ≤ length (detectors (sys s')) ∧
   (∀ i d lines startLine endLine r,
      detectors (sys s') !! i = Some d → _enableCaching d = true →
      detectStart d lines startLine endLine (proc (sys s')) = Some r →
      _cacheTilTimeout r.1.1 = nextHandle (window (proc (sys s'))) ∧
      pending (window r.2) =
        <[nextHandle (window (proc (sys s'))) := (now (window (proc (sys s'))) + 10000)%N]>
          (delete (_cacheTilTimeout d) (pending (window (proc (sys s')))))) ∧
   (∀ h t, pending (window (proc (sys s'))) !! h = Some t →
      ∃ i d, detectors (sys s') !! i = Some d ∧ _cacheTilTimeout d = h ∧
        match lastCall i twoRunning es None with
        | Some t0 => t = (t0 + 10000)%N
        | None => pending (window (proc (sys twoRunning))) !! h = Some t
        end) ∧
   (∀ i d t0, detectors (sys s') !! i = Some d → lastCall i twoRunning es None = Some t0 →
      (now (window (proc (sys s'))) < t0 + 10000)%N →
      pending (window (proc (sys s'))) !! _cacheTilTimeout d = Some (t0 + 10000)%N) ∧
   (∀ dt h t, pending (window (proc (sys s'))) !! h = Some t →
      (t ≤ now (window (proc (sys s'))) + dt)%N →
      cachedValidatedLinks (elapse dt (proc (sys s'))) = ∅) ∧
   (∀ dt, (∀ h t, pending (window (proc (sys s'))) !! h = Some t →
             (now (window (proc (sys s'))) + dt < t)%N) →
      cachedValidatedLinks (elapse dt (proc (sys s'))) =
        cachedValidatedLinks (proc (sys s')))).
Proof.
  assert (timers_owned (sys twoRunning)) as Hown.
  { intros h t Hl. vm_compute in Hl. discriminate. }
  assert (handles_fresh (sys twoRunning)) as Hfresh.
  { split.
    - intros h t Hl. vm_compute in Hl. discriminate.
    - intros [|[|i]] d; [intros [= <-]; simpl; lia..|discriminate]. }
  assert (moves twoRunning
            [startOf 0; waitFor 6000; startOf 1; resumeOf 0; resumeOf 0;
             startOf 0; waitFor 4000; resumeOf 1; resumeOf 1] =
          Some (default twoRunning
                  (moves twoRunning
                     [startOf 0; waitFor 6000; startOf 1; resumeOf 0; resumeOf 0;
                      startOf 0; waitFor 4000; resumeOf 1; resumeOf 1]))) as Hrun.
  { vm_compute. reflexivity. }
  split; [vm_compute; reflexivity|].
  split; [vm_compute; reflexivity|].
  split; [vm_compute; reflexivity|].
  split; [vm_compute; reflexivity|].
  split; [vm_compute; reflexivity|].
  split; [exact Hown|]. split; [exact Hfresh|]. split; [reflexivity|]. split; [exact Hrun|].
  exact (one_timer_per_detector twoRunning _ _ Hown Hfresh eq_refl Hrun).
Defined.

(** C10.  When the resolver rejects for a candidate of some match — the
    matches before it were processed, its text is not in the cache, and
    the candidates before the rejected one answered [undefined] — [detect]
    rejects with the resolver's reason: the promise carries no link, also
    none of those pushed before, and the process keeps the cache as the
    earlier matches left it. *)
Theorem resolver_rejection_propagates `{H : Host} d lines startLine endLine p
    items1 it items2 links1 p1 pre c post w1 e w2 :
  let text := getXtermLineContent (xterm d) startLine endLine in
  let d1 := (resetCacheTimeout d (window p)).1 in
  let p0 := mkProcess (cachedValidatedLinks p) (resetCacheTimeout d (window p)).2
              (world p) (resolverLog p) in
  text ≠ [] → length text ≤ 2000 →
  scan (_os d) text = Some (items1 ++ it :: items2) →
  processItems d1 lines startLine items1 [] p0 = (Fulfilled links1, p1) →
  cachedValidatedLinks p1 !! itemLink it = None →
  linkCandidates (itemLink it) = pre ++ c :: post →
  resolveAllFail d pre (world p1) = Some w1 →
  _resolvePath d c w1 = (Rejected e, w2) →
  detect d lines startLine endLine p =
    Some (d1, Rejected e,
          mkProcess (cachedValidatedLinks p1) (window p1) w2 (resolverLog p1 ++ pre ++ [c])).
Proof.
  cbv zeta. intros Hne Hle Hscan Hitems Hmiss Hcands Hpre Hc.
  destruct (resetCacheTimeout_fields d (window p)) as (_ & _ & Hres & _).
  rewrite detect_unfold. cbv zeta. unfold MaxLineLength.
  rewrite bool_decide_eq_false_2 by done.
  rewrite (proj2 (Nat.ltb_ge _ _) Hle). cbn [orb]. rewrite Hscan. cbn [mbind option_bind].
  rewrite processItems_app, Hitems. cbn [processItems]. unfold bind, processItem.
  rewrite validateAndPush_miss by done. rewrite Hcands.
  rewrite (validate_same_resolver _ d) by done.
  by rewrite (validate_stops_at d pre c post p1 w1 (Rejected e) w2).
Qed.

(** The line [hit/x ok/a bad/b]: [hit/x] is in the cache and is pushed,
    [ok/a] is resolved and cached, the resolver rejects on [bad/b].  The
    call rejects; the link of [hit/x] is gone, the entry of [ok/a] stays. *)
Lemma resolver_rejection_propagates_witness :
  let d := detectorOn (str "hit/x ok/a bad/b") [str "ok/a"] [str "bad/b"] in
  let p := processWith {[ str "hit/x" := Some (fileAt (str "hit/x")) ]} in
  let d1 := (resetCacheTimeout d (window p)).1 in
  let p0 := mkProcess (cachedValidatedLinks p) (resetCacheTimeout d (window p)).2
              (world p) (resolverLog p) in
  let items1 := [mkItem (str "hit/x") 0 (str "hit/x") 0; mkItem (str "ok/a") 6 (str "ok/a") 6] in
  let it := mkItem (str "bad/b") 11 (str "bad/b") 11 in
  let links1 := [@mkLink exampleHost (str "/ws/hit/x") (str "file:///ws/hit/x") (1, 6)%Z
                   LocalFile] in
  let p1 := (processItems d1 tt 0%Z items1 [] p0).2 in
  processItems d1 tt 0%Z items1 [] p0 = (Fulfilled links1, p1) ∧
  cachedValidatedLinks p1 !! str "ok/a" = Some (Some (fileAt (str "ok/a"))) ∧
  detect d tt 0%Z 0%Z p =
    Some (d1, Rejected (str "EIO"),
          mkProcess (cachedValidatedLinks p1) (window p1) tt
            (resolverLog p1 ++ [] ++ [str "bad/b"])).
Proof.
  cbv zeta. split; [vm_compute; reflexivity|]. split; [vm_compute; reflexivity|].
  apply (resolver_rejection_propagates (H := exampleHost)
           (detectorOn (str "hit/x ok/a bad/b") [str "ok/a"] [str "bad/b"]) tt 0%Z 0%Z
           (processWith {[ str "hit/x" := Some (fileAt (str "hit/x")) ]})
           [mkItem (str "hit/x") 0 (str "hit/x") 0; mkItem (str "ok/a") 6 (str "ok/a") 6]
           (mkItem (str "bad/b") 11 (str "bad/b") 11) []
           [@mkLink exampleHost (str "/ws/hit/x") (str "file:///ws/hit/x") (1, 6)%Z LocalFile]
           _ [] (str "bad/b") [] (tt : @World exampleHost) (str "EIO")
           (tt : @World exampleHost)).
  - discriminate.
  - vm_compute. lia.
  - vm_compute. reflexivity.
  - vm_compute. reflexivity.
  - vm_compute. reflexivity.
  - vm_compute. reflexivity.
  - reflexivity.
  - vm_compute. reflexivity.
Defined.

Example resolver_rejection_observed :
  observe (detect (detectorOn (str "ok/a bad/b") [str "ok/a"] [str "bad/b"]) tt 0 0
             (processWith ∅)) =
  Some (Rejected (str "EIO"), [str "ok/a"; str "bad/b"],
        [(str "ok/a", Some (fileAt (str "ok/a")))]).
Proof. vm_compute. reflexivity. Qed.


(** * Further properties of the detector *)

(** ** What the scanner records *)

Section ScanMore.

Lemma scanLoop_located fuel text rex li si items :
  scanLoop fuel text rex li si = Some items →
  Forall (fun it =>
            rawLink it ≠ [] ∧ (0 ≤ rawIndex it)%Z ∧
            (rawIndex it + Z.of_nat (length (rawLink it)) ≤ Z.of_nat (length text))%Z ∧
            rawLink it `prefix_of` drop (Z.to_nat (rawIndex it)) text) items.
Proof.
  revert li si items. induction fuel as [|fuel IH]; intros li si items; [done|].
  intros [->|(mt & rest & Hex & Hne & Hfound & -> & Hrest)]%scanLoop_inv; [done|].
  constructor; [|by eapply IH]. cbn [rawLink rawIndex].
  destruct (JSFacts.indexOf_found _ _ _ Hne Hfound) as (_ & Hb & Hs).
  apply JSFacts.startsWith_prefix in Hs. done.
Qed.

Lemma prefix_drop_both (l1 l2 : jsstring) n :
  l1 `prefix_of` l2 → drop n l1 `prefix_of` drop n l2.
Proof. intros [k ->]. rewrite drop_app. by apply prefix_app_r. Qed.

(** The loop turns at most once for every character after the string
    index. *)
Lemma scanLoop_length fuel text rex li si items :
  scanLoop fuel text rex li si = Some items →
  length items ≤ Z.to_nat (Z.of_nat (length text) - 1 - si).
Proof.
  revert li si items. induction fuel as [|fuel IH]; intros li si items; [done|].
  intros [->|(mt & rest & Hex & Hne & Hfound & -> & Hrest)]%scanLoop_inv; [simpl; lia|].
  apply IH in Hrest.
  destruct (JSFacts.indexOf_found _ _ _ Hne Hfound) as (Hb1 & Hb2 & _).
  pose proof (adjustDiff_index text (RegExp.matched text mt)
                (JS.indexOf text (RegExp.matched text mt) (si + 1))) as Hi.
  assert (0 < length (RegExp.matched text mt)) by (destruct (RegExp.matched text mt); [done|simpl; lia]).
  simpl. lia.
Qed.

End ScanMore.

(** X1.  Every item the scanner records lies in the line: the matched
    text is not empty, its string index is not negative, the text fits
    into the line from that index and occurs there; and the text and the
    index that go on after the diff adjustment (to the buffer range, the
    cache and the resolver) are again an occurrence of that text in the
    line. *)
Theorem scan_items_located os text items it :
  scan os text = Some items → it ∈ items →
  rawLink it ≠ [] ∧ (0 ≤ rawIndex it)%Z ∧
  (rawIndex it + Z.of_nat (length (rawLink it)) ≤ Z.of_nat (length text))%Z ∧
  rawLink it `prefix_of` drop (Z.to_nat (rawIndex it)) text ∧
  itemLink it `prefix_of` drop (Z.to_nat (itemIndex it)) text.
Proof.
  intros Hscan Hit.
  pose proof (scanLoop_located _ _ _ _ _ _ Hscan) as Hloc.
  pose proof (scanLoop_adjusted _ _ _ _ _ _ Hscan) as Hadj.
  apply (proj1 (Forall_forall _ _) Hloc) in Hit as Hl.
  apply (proj1 (Forall_forall _ _) Hadj) in Hit as Ha.
  destruct Hl as (Hne & H0 & Hfit & Hocc). split_and!; [done..|].
  unfold adjustDiff in Ha. destruct (looksLikeDiff _ _ _); injection Ha as -> ->; [|done].
  unfold JS.substring. replace (Z.to_nat (rawIndex it + 2)) with (Z.to_nat (rawIndex it) + 2) by lia.
  rewrite <-(drop_drop text). exact (prefix_drop_both _ _ 2 Hocc).
Qed.

(** The line [--- a/src/foo.ts]: [a/src/foo.ts] occurs at index 4 and
    [src/foo.ts] at index 6. *)
Lemma scan_items_located_witness :
  let text := str "--- a/src/foo.ts" in
  let it := mkItem (str "a/src/foo.ts") 4 (str "src/foo.ts") 6 in
  scan Linux text = Some [it] ∧
  rawLink it ≠ [] ∧ (0 ≤ rawIndex it)%Z ∧
  (rawIndex it + Z.of_nat (length (rawLink it)) ≤ Z.of_nat (length text))%Z ∧
  rawLink it `prefix_of` drop (Z.to_nat (rawIndex it)) text ∧
  itemLink it `prefix_of` drop (Z.to_nat (itemIndex it)) text.
Proof.
  split; [vm_compute; reflexivity|].
  apply (scan_items_located Linux (str "--- a/src/foo.ts")
           [mkItem (str "a/src/foo.ts") 4 (str "src/foo.ts") 6]).
  - vm_compute; reflexivity.
  - apply list_elem_of_here.
Defined.

(** X2.  Along the items of a scan the string indices grow strictly, so
    the loop of [detect] turns at most once for every character of the
    line: a line of [n] characters gives at most [n] items. *)
Theorem scan_indices_increase os text items :
  scan os text = Some items →
  (∀ i j a b, i < j → items !! i = Some a → items !! j = Some b →
     (rawIndex a < rawIndex b)%Z) ∧
  length items ≤ length text.
Proof.
  intros Hscan. split.
  - intros i j a b Hij Ha Hb.
    pose proof (proj2 (scanLoop_increasing _ _ _ _ _ _ Hscan) i j a b Hij Ha Hb) as Hlt.
    pose proof (scanLoop_adjusted _ _ _ _ _ _ Hscan) as Hadj.
    apply (Forall_lookup_1 _ _ _ _ Hadj) in Ha.
    pose proof (adjustDiff_index text (rawLink a) (rawIndex a)) as Hi.
    rewrite <-Ha in Hi. simpl in Hi. lia.
  - apply scanLoop_length in Hscan. lia.
Qed.

(** The line [a/b/c b/c] of nine characters: three items, at the
    indices 0, 2 and 6. *)
Lemma scan_indices_increase_witness :
  let text := str "a/b/c b/c" in
  let items := [mkItem (str "a/b/c") 0 (str "a/b/c") 0; mkItem (str "b/c") 2 (str "b/c") 2;
                mkItem (str "b/c") 6 (str "b/c") 6] in
  scan Linux text = Some items ∧
  (∀ i j a b, i < j → items !! i = Some a → items !! j = Some b →
     (rawIndex a < rawIndex b)%Z) ∧
  length items ≤ length text.
Proof.
  split; [vm_compute; reflexivity|].
  apply (scan_indices_increase Linux (str "a/b/c b/c")).
  vm_compute; reflexivity.
Defined.

(** X3.  An item is adjusted only on a diff line: when the text or the
    index that goes on differs from what was matched, the line starts
    with [--- a/] or [+++ b/] and the match was found at index 4, or the
    line starts with [diff --git] and the match starts with [a/] or [b/].
    On every other line the items go on as they were matched. *)
Theorem adjusted_only_on_diff os text items it :
  scan os text = Some items → it ∈ items →
  itemLink it ≠ rawLink it ∨ itemIndex it ≠ rawIndex it →
  ((str "--- a/" `prefix_of` text ∨ str "+++ b/" `prefix_of` text) ∧ rawIndex it = 4%Z) ∨
  (str "diff --git" `prefix_of` text ∧
     (str "a/" `prefix_of` rawLink it ∨ str "b/" `prefix_of` rawLink it)).
Proof.
  intros Hscan Hit Hdiff.
  apply scanLoop_adjusted in Hscan.
  apply (proj1 (Forall_forall _ _) Hscan) in Hit.
  unfold adjustDiff in Hit. destruct (looksLikeDiff _ _ _) eqn:Hlooks.
  2:{ injection Hit as Hl Hi. by destruct Hdiff. }
  clear Hit Hdiff. unfold looksLikeDiff in Hlooks.
  apply orb_true_iff in Hlooks as [Hl|Hl]; apply andb_true_iff in Hl as [H1 H2]; [left|right].
  - split; [|by apply Z.eqb_eq].
    apply orb_true_iff in H1 as [H1|H1]; [left|right]; by apply JSFacts.startsWith_prefix.
  - split; [by apply JSFacts.startsWith_prefix|].
    apply orb_true_iff in H2 as [H2|H2]; [left|right]; by apply JSFacts.startsWith_prefix.
Qed.

(** [diff --git a/x/y.c b/x/y.c]: the second item is adjusted, and its
    match starts with [b/]. *)
Lemma adjusted_only_on_diff_witness :
  let text := str "diff --git a/x/y.c b/x/y.c" in
  let it := mkItem (str "b/x/y.c") 19 (str "x/y.c") 21 in
  scan Linux text = Some [mkItem (str "a/x/y.c") 11 (str "x/y.c") 13; it] ∧
  (((str "--- a/" `prefix_of` text ∨ str "+++ b/" `prefix_of` text) ∧ rawIndex it = 4%Z) ∨
   (str "diff --git" `prefix_of` text ∧
      (str "a/" `prefix_of` rawLink it ∨ str "b/" `prefix_of` rawLink it))).
Proof.
  split; [vm_compute; reflexivity|].
  apply (adjusted_only_on_diff Linux (str "diff --git a/x/y.c b/x/y.c")
           [mkItem (str "a/x/y.c") 11 (str "x/y.c") 13;
            mkItem (str "b/x/y.c") 19 (str "x/y.c") 21]).
  - vm_compute; reflexivity.
  - apply list_elem_of_further, list_elem_of_here.
  - right. discriminate.
Defined.

(** ** Every match goes through a separator *)

Section Through.
Import RegExp RegExpFacts.

Variable input : jsstring.
Variable P : char → bool.

(** A success of a pattern that must go through a character of [P]
    has consumed such a character. *)
Lemma m_through r pI c x z :
  must (char_where P) r = true → m input r pI c x = Some z →
  ∃ y j ch, c y = Some z ∧ endIndex x ≤ j < endIndex y ∧
            input !! j = Some ch ∧ P ch = true.
Proof.
  revert pI c x.
  induction r as [|ch|e|inv items|a IHa b IHb|a IHa b IHb|q r IH|r IH|r IH|];
    intros pI c x Hr; cbn [must char_where] in Hr; try done.
  - rewrite m_char. destruct (input !! endIndex x) as [ch'|] eqn:Hl; [|done].
    destruct (N.eqb_spec ch ch') as [<-|]; [|done]. intros Hz.
    eexists _, (endIndex x), ch. split_and!; [exact Hz|done|simpl; lia|done..].
  - rewrite m_seq. intros Hz. apply orb_true_iff in Hr as [Hr|Hr].
    + apply (IHa _ _ _ Hr) in Hz as (y & j & ch & Hy & Hj & Hl & HP).
      apply m_forward in Hy as (y' & Hle & _ & Hc).
      exists y', j, ch. split_and!; [done|lia..|done|done].
    + apply m_forward in Hz as (y & Hle & _ & Hb).
      apply (IHb _ _ _ Hr) in Hb as (y' & j & ch & Hy & Hj & Hl & HP).
      exists y', j, ch. split_and!; [done|lia..|done|done].
  - rewrite m_alt. apply andb_true_iff in Hr as [Ha Hb].
    destruct (m input a pI c x) as [z'|] eqn:Hz'.
    + intros [= <-]. exact (IHa _ _ _ Ha Hz').
    + by apply IHb.
  - destruct q; try done. rewrite m_quant, RepeatMatcher_S.
    cbn [quant_min quant_max]. cbv zeta. change (1 =? 0) with false. cbv iota.
    intros Hz. apply (IH _ _ _ Hr) in Hz as (y & j & ch & Hy & Hj & Hl & HP).
    cbn [andb] in Hy. apply (RepeatMatcher_forward input) in Hy as (y' & Hle & _ & Hc);
      [|apply m_forward].
    cbn [endIndex] in Hj. exists y', j, ch. split_and!; [done|lia..|done|done].
  - rewrite m_group. intros Hz.
    apply (IH _ _ _ Hr) in Hz as (y & j & ch & Hy & Hj & Hl & HP).
    eexists _, j, ch. split_and!; [exact Hy|simpl; lia..|done|done].
  - cbn [m]. by apply IH.
Qed.

Lemma first_match_at R idxs mt :
  first_match input R idxs = Some mt → ∃ i, match_at input R i = Some mt.
Proof.
  induction idxs as [|i idxs IH]; [done|]. cbn [first_match].
  destruct (match_at input R i) as [r|] eqn:Hr; [|done]. intros [= <-]. eauto.
Qed.

(** So has the text of a match found by [exec]. *)
Lemma exec_through R lastIndex mt :
  must (char_where P) R = true → exec input R lastIndex = Some mt →
  ∃ ch, ch ∈ matched input mt ∧ P ch = true.
Proof.
  intros HR [i Hi]%first_match_at. unfold match_at in Hi.
  destruct (m input R 0 Some _) as [z|] eqn:Hz; [|done]. injection Hi as <-.
  apply (m_through _ _ _ _ _ HR) in Hz as (y & j & ch & [= ->] & Hj & Hl & HP).
  cbn [endIndex] in Hj. exists ch. split; [|done].
  unfold matched, JS.slice. cbn [index final].
  apply elem_of_take. exists (j - i). split; [|lia].
  rewrite lookup_drop. by replace (i + (j - i)) with j by lia.
Qed.

End Through.

Lemma separator_must os :
  RegExp.must (char_where (isSeparator os)) (_localLinkRegex os) = true.
Proof. destruct os; vm_compute; reflexivity. Qed.

Lemma scanLoop_through P fuel text rex li si items :
  RegExp.must (char_where P) rex = true →
  scanLoop fuel text rex li si = Some items →
  Forall (fun it => ∃ c, c ∈ rawLink it ∧ P c = true) items.
Proof.
  intros Hrex. revert li si items. induction fuel as [|fuel IH]; intros li si items; [done|].
  intros [->|(mt & rest & Hex & Hne & Hfound & -> & Hrest)]%scanLoop_inv; [done|].
  constructor; [|by eapply IH]. cbn [rawLink]. by eapply exec_through.
Qed.

(** X4.  Every text the scanner matches contains a separator of the
    grammar of its platform: [/] for the POSIX grammar, [\] or [/] for the
    Windows grammar.  So a line without a separator gives no item, on
    either platform. *)
Theorem matches_contain_separator os text items :
  scan os text = Some items →
  Forall (fun it => ∃ c, c ∈ rawLink it ∧ isSeparator os c = true) items ∧
  ((∀ c, c ∈ text → isSeparator os c = false) → items = []).
Proof.
  intros Hscan.
  pose proof (scanLoop_through _ _ _ _ _ _ _ (separator_must os) Hscan) as Hsep.
  split; [done|]. intros Hno.
  destruct items as [|it items]; [done|]. exfalso.
  apply Forall_cons in Hsep as [(c & Hc & Hs) _].
  pose proof (scanLoop_located _ _ _ _ _ _ Hscan) as Hloc.
  apply Forall_cons in Hloc as [(_ & _ & _ & Hocc) _].
  rewrite Hno in Hs; [done|].
  eapply subseteq_drop, elem_of_prefix; done.
Qed.

(** [C:\foo\bar] with the Windows grammar: one match, with its [\]. *)
Lemma matches_contain_separator_witness :
  let text := str "C:\foo\bar" in
  let items := [mkItem text 0 text 0] in
  scan Windows text = Some items ∧
  Forall (fun it => ∃ c, c ∈ rawLink it ∧ isSeparator Windows c = true) items ∧
  ((∀ c, c ∈ text → isSeparator Windows c = false) → items = []).
Proof.
  split; [vm_compute; reflexivity|].
  apply (matches_contain_separator Windows (str "C:\foo\bar")).
  vm_compute; reflexivity.
Defined.

(** ** A pass over the scanned items *)

Section PassFacts.
Context `{H : Host}.

Lemma linkCandidates_length link : length (linkCandidates link) ≤ 2.
Proof. unfold linkCandidates. destruct (matchParentTraversal link); cbn [length]; lia. Qed.

(** What the validator asked is a prefix of the candidates, and when it
    rejects, the rejection is the answer of the resolver for the last
    string asked. *)
Lemma validate_trace d cands p :
  ∃ asked, asked `prefix_of` cands ∧
    resolverLog (_validateLinkCandidates d cands p).2 = resolverLog p ++ asked ∧
    ∀ e, (_validateLinkCandidates d cands p).1 = Rejected e →
      ∃ pre c w, asked = pre ++ [c] ∧
        _resolvePath d c w = (Rejected e, world (_validateLinkCandidates d cands p).2).
Proof.
  revert p. induction cands as [|c cands IH]; intros p.
  - exists []. split_and!; [done|by rewrite app_nil_r|done].
  - cbn [_validateLinkCandidates]. unfold bind, callResolvePath.
    destruct (_resolvePath d c (world p)) as [[[v|]|e] w] eqn:Hc.
    + exists [c]. split_and!; [by apply prefix_cons, prefix_nil|done|done].
    + destruct (IH (mkProcess (cachedValidatedLinks p) (window p) w (resolverLog p ++ [c])))
        as (asked & Hpre & Hlog & Hrej).
      exists (c :: asked). split_and!; [by apply prefix_cons| |].
      * rewrite Hlog. simpl. by rewrite <-app_assoc.
      * intros e He. destruct (Hrej e He) as (pre & c' & w' & -> & Hres).
        by exists (c :: pre), c', w'.
    + exists [c]. split_and!; [by apply prefix_cons, prefix_nil|done|].
      intros e' [= <-]. by exists [], c, (world p).
Qed.

(** One turn of the loop from line 135 on, by the state of the cache. *)
Lemma validateAndPush_cases d link range links p :
  (∃ ls, cachedValidatedLinks p !! link = Some (Some ls) ∧
         validateAndPush d link range links p =
           (Fulfilled (links ++ [mkLink (vl_link ls) (vl_uri ls) range (linkType ls p)]), p)) ∨
  (cachedValidatedLinks p !! link = Some None ∧
   validateAndPush d link range links p = (Fulfilled links, p)) ∨
  (cachedValidatedLinks p !! link = None ∧
   ∃ asked w', asked `prefix_of` linkCandidates link ∧
     ((∃ r, validateAndPush d link range links p =
              (Fulfilled links,
               mkProcess (if _enableCaching d then <[link := r]> (cachedValidatedLinks p)
                          else cachedValidatedLinks p)
                 (window p) w' (resolverLog p ++ asked))) ∨
      (∃ e pre c w, asked = pre ++ [c] ∧ _resolvePath d c w = (Rejected e, w') ∧
         validateAndPush d link range links p =
           (Rejected e,
            mkProcess (cachedValidatedLinks p) (window p) w' (resolverLog p ++ asked))))).
Proof.
  destruct (cachedValidatedLinks p !! link) as [[ls|]|] eqn:Hc.
  - left. exists ls. split; [done|]. by apply validateAndPush_cached.
  - right; left. split; [done|]. by apply validateAndPush_not_found.
  - right; right. split; [done|].
    rewrite (validateAndPush_miss _ _ _ _ _ Hc).
    destruct (validate_trace d (linkCandidates link) p) as (asked & Hpre & Hlog & Hrej).
    destruct (validate_frame d (linkCandidates link) p) as [Hcache Hwin].
    generalize dependent (linkCandidates link). intros cands Hpre Hlog Hrej Hcache Hwin.
    destruct (_validateLinkCandidates d cands p) as [[r|e] p'] eqn:Hv;
      cbn [fst snd] in *.
    + exists asked, (world p'). split; [done|]. left. exists r.
      destruct p'; cbn [cachedValidatedLinks window world resolverLog] in *; subst.
      by destruct (_enableCaching d).
    + exists asked, (world p'). split; [done|]. right.
      destruct (Hrej e eq_refl) as (pre & c & w & -> & Hres).
      exists e, pre, c, w. split_and!; [done..|].
      destruct p'; cbn [cachedValidatedLinks window world resolverLog] in *; by subst.
Qed.

Lemma processItems_cons d lines startLine it rest links p :
  processItems d lines startLine (it :: rest) links p =
  match validateAndPush d (itemLink it) (rangeOf d lines startLine it) links p with
  | (Fulfilled links', p') => processItems d lines startLine rest links' p'
  | (Rejected e, p') => (Rejected e, p')
  end.
Proof. done. Qed.

Lemma linkType_file ls p : linkType ls p = LocalFile ↔ vl_isDirectory ls = false.
Proof.
  unfold linkType. destruct (vl_isDirectory ls); [|done].
  by destruct (_isDirectoryInsideWorkspace _ _).
Qed.

(** A pass over items whose texts are all in the cache: the links of
    the validated entries, and the state as it was. *)
Lemma processItems_warm d lines startLine items links p :
  (∀ it, it ∈ items → is_Some (cachedValidatedLinks p !! itemLink it)) →
  processItems d lines startLine items links p =
  (Fulfilled (links ++ items ≫= linkFromCache d lines startLine p), p).
Proof.
  revert links. induction items as [|it items IH]; intros links Hall.
  - simpl. by rewrite app_nil_r.
  - rewrite processItems_cons, bind_cons. unfold linkFromCache at 1.
    destruct (Hall it) as [[ls|] Hc]; [left|..]; rewrite Hc.
    + rewrite (validateAndPush_cached _ _ _ _ _ _ Hc), IH, <-app_assoc; [done|].
      intros it' Hit'. apply Hall. by right.
    + rewrite (validateAndPush_not_found _ _ _ _ _ Hc), IH; [done|].
      intros it' Hit'. apply Hall. by right.
Qed.

(** With caching enabled a fulfilled pass leaves the text of every item
    in the cache. *)
Lemma processItems_fills d lines startLine items links p links' p' :
  _enableCaching d = true →
  processItems d lines startLine items links p = (Fulfilled links', p') →
  ∀ it, it ∈ items → is_Some (cachedValidatedLinks p' !! itemLink it).
Proof.
  intros He. revert links p.
  induction items as [|it items IH]; intros links p Hrun it' Hit'; [by inversion Hit'|].
  rewrite processItems_cons in Hrun.
  destruct (validateAndPush d (itemLink it) (rangeOf d lines startLine it) links p)
    as [[l1|e] p1] eqn:Hv; [|done].
  apply elem_of_cons in Hit' as [->|Hit']; [|by eapply IH].
  assert (is_Some (cachedValidatedLinks p1 !! itemLink it)) as [v Hv1].
  { destruct (validateAndPush_cases d (itemLink it) (rangeOf d lines startLine it) links p)
      as [(ls & Hc & Hv')|[(Hc & Hv')|(Hc & asked & w' & _ & [(r & Hv')|(e & ? & ? & ? & _ & _ & Hv')])]];
      rewrite Hv' in Hv; try done; injection Hv as <- <-; simpl; eauto.
    rewrite He, lookup_insert_eq. eauto. }
  pose proof (processItems_keeps d lines startLine items l1 p1 _ _ Hv1) as Hk.
  rewrite Hrun in Hk. eauto.
Qed.

(** A pass in full: what the resolver was asked, which cache entries
    are new, where the returned links come from, and where a rejection
    comes from. *)
Lemma processItems_summary d lines startLine items links p :
  ∃ asked,
    resolverLog (processItems d lines startLine items links p).2 = resolverLog p ++ asked ∧
    length asked ≤ 2 * length items ∧
    Forall (fun s => ∃ it, it ∈ items ∧ s ∈ linkCandidates (itemLink it) ∧
                          cachedValidatedLinks p !! itemLink it = None) asked ∧
    (∀ k, is_Some (cachedValidatedLinks (processItems d lines startLine items links p).2 !! k) →
          is_Some (cachedValidatedLinks p !! k) ∨
          (_enableCaching d = true ∧ ∃ it, it ∈ items ∧ k = itemLink it)) ∧
    (∀ links', (processItems d lines startLine items links p).1 = Fulfilled links' →
       ∃ new, links' = links ++ new ∧
         Forall (fun l => ∃ it ls, it ∈ items ∧
                   cachedValidatedLinks (processItems d lines startLine items links p).2
                     !! itemLink it = Some (Some ls) ∧
                   l = mkLink (vl_link ls) (vl_uri ls) (rangeOf d lines startLine it) (type l) ∧
                   (type l = LocalFile ↔ vl_isDirectory ls = false)) new) ∧
    (∀ e, (processItems d lines startLine items links p).1 = Rejected e →
       ∃ pre c w, asked = pre ++ [c] ∧
         _resolvePath d c w =
           (Rejected e, world (processItems d lines startLine items links p).2)).
Proof.
  revert links p. induction items as [|it items IH]; intros links p.
  { exists []. simpl. split_and!; [by rewrite app_nil_r|lia|done|by left| |done].
    intros links' [= <-]. exists []. by rewrite app_nil_r. }
  rewrite processItems_cons.
  destruct (validateAndPush_cases d (itemLink it) (rangeOf d lines startLine it) links p)
    as [(ls & Hc & ->)|[(Hc & ->)|(Hc & asked1 & w' & Hpre &
          [(r & ->)|(e & pre & c & w & -> & Hres & ->)])]].
  - destruct (IH (links ++ [mkLink (vl_link ls) (vl_uri ls) (rangeOf d lines startLine it)
                              (linkType ls p)]) p)
      as (asked & Hlog & Hlen & Hasked & Hkeys & Hlinks & Hrej).
    exists asked. split_and!; [done|simpl; lia| | | |done].
    + eapply Forall_impl; [exact Hasked|]. intros s (it' & ? & ? & ?).
      exists it'. split; [by right|done].
    + intros k [?|[? (it' & ? & ?)]]%Hkeys; [by left|right].
      split; [done|]. exists it'. split; [by right|done].
    + intros links' (new & -> & Hnew)%Hlinks. eexists (_ :: new).
      split; [by rewrite <-app_assoc|]. constructor.
      * exists it, ls. split_and!; [by left| |done|apply linkType_file].
        by apply processItems_keeps.
      * eapply Forall_impl; [exact Hnew|]. intros l (it' & ls' & ? & ?).
        exists it', ls'. split; [by right|done].
  - destruct (IH links p) as (asked & Hlog & Hlen & Hasked & Hkeys & Hlinks & Hrej).
    exists asked. split_and!; [done|simpl; lia| | | |done].
    + eapply Forall_impl; [exact Hasked|]. intros s (it' & ? & ? & ?).
      exists it'. split; [by right|done].
    + intros k [?|[? (it' & ? & ?)]]%Hkeys; [by left|right].
      split; [done|]. exists it'. split; [by right|done].
    + intros links' (new & -> & Hnew)%Hlinks. exists new. split; [done|].
      eapply Forall_impl; [exact Hnew|]. intros l (it' & ls' & ? & ?).
      exists it', ls'. split; [by right|done].
  - set (p1 := mkProcess _ (window p) w' (resolverLog p ++ asked1)).
    destruct (IH links p1) as (asked & Hlog & Hlen & Hasked & Hkeys & Hlinks & Hrej).
    pose proof (prefix_length _ _ Hpre) as Hl1.
    pose proof (linkCandidates_length (itemLink it)) as Hl2.
    exists (asked1 ++ asked). split_and!.
    + rewrite Hlog. simpl. by rewrite app_assoc.
    + rewrite length_app. simpl. lia.
    + apply Forall_app. split.
      * apply Forall_forall. intros s Hs. exists it.
        split_and!; [by left|by eapply elem_of_prefix|done].
      * eapply Forall_impl; [exact Hasked|]. intros s (it' & ? & ? & Hmiss).
        exists it'. split_and!; [by right|done|].
        simpl in Hmiss. destruct (_enableCaching d); [|done].
        by apply lookup_insert_None in Hmiss as [? _].
    + intros k [Hk|[? (it' & ? & ?)]]%Hkeys.
      * simpl in Hk. destruct (_enableCaching d) eqn:He; [|by left].
        destruct (decide (itemLink it = k)) as [<-|Hne].
        -- right. split; [done|]. exists it. split; [by left|done].
        -- rewrite lookup_insert_ne in Hk by done. by left.
      * right. split; [done|]. exists it'. split; [by right|done].
    + intros links' (new & -> & Hnew)%Hlinks. exists new. split; [done|].
      eapply Forall_impl; [exact Hnew|]. intros l (it' & ls' & ? & ?).
      exists it', ls'. split; [by right|done].
    + intros e (pre & c & w & -> & Hres)%Hrej. exists (asked1 ++ pre), c, w.
      split; [by rewrite app_assoc|done].
  - exists (pre ++ [c]). simpl.
    pose proof (prefix_length _ _ Hpre) as Hl1.
    pose proof (linkCandidates_length (itemLink it)) as Hl2.
    split_and!; [done|lia| |by left|done|].
    + apply Forall_forall. intros s Hs. exists it.
      split_and!; [by left|by eapply elem_of_prefix|done].
    + intros e' [= <-]. by exists pre, c, w.
Qed.

(** [detect], by the length of the line. *)
Lemma detect_cases d lines startLine endLine p :
  let d1 := (resetCacheTimeout d (window p)).1 in
  let text := getXtermLineContent (xterm d) startLine endLine in
  ∃ items, scan (_os d) text = Some items ∧
    (((text = [] ∨ 2000 < length text) ∧
      detect d lines startLine endLine p = Some (d1, Fulfilled [], afterReset d p)) ∨
     (text ≠ [] ∧ length text ≤ 2000 ∧
      detect d lines startLine endLine p =
        Some (d1, (processItems d1 lines startLine items [] (afterReset d p)).1,
                  (processItems d1 lines startLine items [] (afterReset d p)).2))).
Proof.
  cbv zeta.
  destruct (scan_total (_os d) (getXtermLineContent (xterm d) startLine endLine))
    as [items Hitems].
  exists items. split; [done|]. rewrite detect_unfold. cbv zeta. rewrite Hitems.
  unfold MaxLineLength, afterReset.
  case_bool_decide as Hnil; [left; split; [by left|done]|].
  destruct (Nat.ltb_spec 2000 (length (getXtermLineContent (xterm d) startLine endLine)));
    [left; split; [by right|done]|right; done].
Qed.

End PassFacts.

Section DetectMore.
Context `{H : Host}.

Lemma linkFromCache_afterReset d lines startLine p it :
  linkFromCache (resetCacheTimeout d (window p)).1 lines startLine (afterReset d p) it =
  linkFromCache d lines startLine p it.
Proof.
  destruct (resetCacheTimeout_fields d (window p)) as (Hx & _).
  unfold linkFromCache, rangeOf, linkType, _isDirectoryInsideWorkspace, afterReset.
  cbn [cachedValidatedLinks world]. by rewrite Hx.
Qed.

(** A pass over a line whose matches are all in the cache. *)
Lemma detect_warm d lines startLine endLine p items :
  getXtermLineContent (xterm d) startLine endLine ≠ [] →
  length (getXtermLineContent (xterm d) startLine endLine) ≤ 2000 →
  scan (_os d) (getXtermLineContent (xterm d) startLine endLine) = Some items →
  (∀ it, it ∈ items → is_Some (cachedValidatedLinks p !! itemLink it)) →
  detect d lines startLine endLine p =
    Some ((resetCacheTimeout d (window p)).1,
          Fulfilled (items ≫= linkFromCache d lines startLine p),
          afterReset d p).
Proof.
  intros Hne Hle Hscan Hall.
  destruct (detect_cases d lines startLine endLine p) as (items' & Hscan' & Hcases).
  rewrite Hscan in Hscan'. injection Hscan' as <-.
  destruct Hcases as [[[?|?] _]|(_ & _ & ->)]; [done|lia|].
  rewrite processItems_warm by done. cbn [fst snd app]. do 4 f_equal.
  apply list_bind_ext; [|done]. intros it. apply linkFromCache_afterReset.
Qed.

(** What a pass changes, for the items of its line; nothing when the
    line is empty or too long. *)
Lemma detect_summary d lines startLine endLine p r items :
  detect d lines startLine endLine p = Some r →
  scan (_os d) (getXtermLineContent (xterm d) startLine endLine) = Some items →
  ∃ asked,
    resolverLog r.2 = resolverLog p ++ asked ∧
    length asked ≤ 2 * length items ∧
    Forall (fun s => ∃ it, it ∈ items ∧ s ∈ linkCandidates (itemLink it) ∧
                          cachedValidatedLinks p !! itemLink it = None) asked ∧
    (∀ k v, cachedValidatedLinks p !! k = Some v → cachedValidatedLinks r.2 !! k = Some v) ∧
    (∀ k, is_Some (cachedValidatedLinks r.2 !! k) →
          is_Some (cachedValidatedLinks p !! k) ∨
          (_enableCaching d = true ∧ ∃ it, it ∈ items ∧ k = itemLink it)) ∧
    (∀ links, r.1.2 = Fulfilled links →
       Forall (fun l => ∃ it ls, it ∈ items ∧
                 cachedValidatedLinks r.2 !! itemLink it = Some (Some ls) ∧
                 l = mkLink (vl_link ls) (vl_uri ls) (rangeOf d lines startLine it) (type l) ∧
                 (type l = LocalFile ↔ vl_isDirectory ls = false)) links) ∧
    (∀ e, r.1.2 = Rejected e →
       ∃ pre c w, asked = pre ++ [c] ∧ _resolvePath d c w = (Rejected e, world r.2)).
Proof.
  intros Hr Hscan.
  destruct (detect_cases d lines startLine endLine p) as (items' & Hscan' & Hcases).
  rewrite Hscan in Hscan'. injection Hscan' as <-.
  destruct (resetCacheTimeout_fields d (window p)) as (Hx & _ & Hres & He).
  destruct Hcases as [[_ Hd]|(_ & _ & Hd)]; rewrite Hd in Hr; injection Hr as <-.
  - exists []. cbn [fst snd]. unfold afterReset. cbn [cachedValidatedLinks resolverLog].
    split_and!; [by rewrite app_nil_r|simpl; lia|done|done|by left| |done].
    by intros links [= <-].
  - set (d1 := (resetCacheTimeout d (window p)).1) in *.
    destruct (processItems_summary d1 lines startLine items [] (afterReset d p))
      as (asked & Hlog & Hlen & Hasked & Hkeys & Hlinks & Hrej).
    exists asked. cbn [fst snd].
    split_and!; [done|done|done| | | |].
    + intros k v Hk. by apply processItems_keeps.
    + intros k Hk. rewrite <-He. by apply Hkeys.
    + intros links (new & -> & Hnew)%Hlinks. simpl.
      eapply Forall_impl; [exact Hnew|]. intros l (it & ls & Hit & Hc & Hl & Hty).
      exists it, ls. split_and!; [done..| |done].
      rewrite Hl at 1. unfold rangeOf. by rewrite Hx.
    + intros e Hrj. rewrite <-Hres. by apply Hrej.
Qed.

End DetectMore.

(** ** A pass among the other work of the process *)

Section RunFacts.
Context `{H : Host}.

Lemma runsTo_finished R r p c asked p' :
  runsTo R (Finished r) p c asked p' → c = r ∧ asked = [] ∧ p' = p.
Proof. by inversion 1. Qed.

Lemma runsTo_suspended R a resume p c asked p' :
  runsTo R (Suspended a resume) p c asked p' →
  ∃ q asked', R p q ∧ asked = option_list a ++ asked' ∧
    runsTo R (resume q).1 (resume q).2 c asked' p'.
Proof. inversion 1; subst. eauto. Qed.

Lemma runsTo_mono (R R' : Process → Process → Prop) t p c asked p' :
  (∀ q q', R q q' → R' q q') → runsTo R t p c asked p' → runsTo R' t p c asked p'.
Proof. intros HR. induction 1; econstructor; eauto. Qed.

(** The run that [resumeWith] computes is a run. *)
Lemma resumeWith_runsTo R envs t p r :
  relied R envs t p → resumeWith envs t p = Some r → runsTo R t p r.1.1 r.1.2 r.2.
Proof.
  revert t p r. induction envs as [|env envs IH]; intros [c|a resume] p r; cbn [resumeWith].
  - intros _ [= <-]. constructor.
  - done.
  - intros _ [= <-]. constructor.
  - cbn [relied suspended resumption]. intros [HR Hrest].
    destruct (resumeWith envs _ _) as [r'|] eqn:Hr'; [|done]. cbn [mbind option_bind].
    intros [= <-]. cbn [fst snd]. econstructor; [exact HR|]. by apply IH.
Qed.

Lemma relied_nil R t p : relied R [] t p.
Proof. done. Qed.

Lemma relied_cons R env envs t p :
  R p (env p) → relied R envs (resumption t (env p)).1 (resumption t (env p)).2 →
  relied R (env :: envs) t p.
Proof. intros HR Hrest. cbn [relied]. by destruct (suspended t). Qed.

(** *** One item of the line *)

Section Rely.
Variable R : Process → Process → Prop.
Variable Inv : Process → Prop.
Hypothesis HR : ∀ q q', R q q' → Inv q → Inv q'.
Hypothesis Hcall : ∀ q w l,
  Inv q → Inv (mkProcess (cachedValidatedLinks q) (window q) w l).

(** A run of the validator: it asked for a prefix of the candidates and
    went on with the rest [k] of the pass, or the last one asked was
    rejected and so is the pass. *)
Lemma validateSteps_run d cands k p c asked p' :
  Inv p →
  runsTo R (validateSteps d cands k p).1 (validateSteps d cands k p).2 c asked p' →
  ∃ asked1, asked1 `prefix_of` cands ∧
    ((∃ v q asked2, Inv q ∧ asked = asked1 ++ asked2 ∧
        runsTo R (k v q).1 (k v q).2 c asked2 p' ∧
        ((∀ q1 q2, R q1 q2 → keepsLog q1 q2) → resolverLog q = resolverLog p ++ asked1)) ∨
     (∃ e pre cnd w w', c = Rejected e ∧ asked = asked1 ∧ asked1 = pre ++ [cnd] ∧
        _resolvePath d cnd w = (Rejected e, w') ∧ Inv p' ∧
        ((∀ q1 q2, R q1 q2 → keepsLog q1 q2) → resolverLog p' = resolverLog p ++ asked1))).
Proof using HR Hcall.
  revert p asked. induction cands as [|c1 rest IH]; intros p asked Hp Hrun.
  - cbn [validateSteps fst snd] in Hrun.
    apply runsTo_suspended in Hrun as (q & asked' & HRq & -> & Hrun).
    exists []. split; [apply prefix_nil|]. left. exists None, q, asked'.
    split_and!; [by eapply HR|done|done|].
    intros Hlog. by rewrite (Hlog _ _ HRq), app_nil_r.
  - rewrite validateSteps_cons in Hrun. cbn [fst snd] in Hrun.
    apply runsTo_suspended in Hrun as (q & asked' & HRq & -> & Hrun).
    assert (Inv q) as Hq by (eapply HR; [exact HRq|by apply Hcall]).
    destruct (_resolvePath d c1 (world p)) as [[[v|]|e] w] eqn:Hres; cbn [fst snd] in Hrun, HRq.
    + apply runsTo_suspended in Hrun as (q2 & asked2 & HR2 & -> & Hrun).
      exists [c1]. split; [by apply prefix_cons, prefix_nil|]. left.
      exists (Some v), q2, asked2. split_and!; [by eapply HR|done|done|].
      intros Hlog. by rewrite (Hlog _ _ HR2), (Hlog _ _ HRq).
    + destruct (IH q asked' Hq Hrun) as (asked1 & Hpre & Hcases).
      exists (c1 :: asked1). split; [by apply prefix_cons|].
      destruct Hcases as [(v & q2 & asked2 & Hq2 & -> & Hrun2 & Hl)|
                          (e & pre & cnd & w1 & w2 & -> & -> & -> & Hrej & Hp' & Hl)].
      * left. exists v, q2, asked2. split_and!; [done..|].
        intros Hlog. rewrite (Hl Hlog), (Hlog _ _ HRq). cbn [resolverLog].
        by rewrite <-app_assoc.
      * right. exists e, (c1 :: pre), cnd, w1, w2. split_and!; [done..|].
        intros Hlog. rewrite (Hl Hlog), (Hlog _ _ HRq). cbn [resolverLog].
        by rewrite <-app_assoc.
    + apply runsTo_suspended in Hrun as (q2 & asked2 & HR2 & -> & Hrun).
      cbn [fst snd] in Hrun. apply runsTo_finished in Hrun as (-> & -> & ->).
      exists [c1]. split; [by apply prefix_cons, prefix_nil|]. right.
      exists e, [], c1, (world p), w. split_and!; [done..|by eapply HR|].
      intros Hlog. by rewrite (Hlog _ _ HR2), (Hlog _ _ HRq).
Qed.

(** One turn of the loop, by what the cache gives on line 135. *)
Lemma detectSteps_run d lines startLine it rest links p c asked p' :
  Inv p →
  runsTo R (detectSteps d lines startLine (it :: rest) links p).1
    (detectSteps d lines startLine (it :: rest) links p).2 c asked p' →
  match cachedValidatedLinks p !! itemLink it with
  | Some (Some ls) =>
      runsTo R
        (detectSteps d lines startLine rest
           (links ++ [mkLink (vl_link ls) (vl_uri ls) (rangeOf d lines startLine it)
                        (linkType ls p)]) p).1
        (detectSteps d lines startLine rest
           (links ++ [mkLink (vl_link ls) (vl_uri ls) (rangeOf d lines startLine it)
                        (linkType ls p)]) p).2 c asked p'
  | Some None =>
      runsTo R (detectSteps d lines startLine rest links p).1
        (detectSteps d lines startLine rest links p).2 c asked p'
  | None =>
      ∃ asked1, asked1 `prefix_of` linkCandidates (itemLink it) ∧
        ((∃ v q asked2, Inv q ∧ asked = asked1 ++ asked2 ∧
            runsTo R
              (detectSteps d lines startLine rest links (stored d (itemLink it) v q)).1
              (detectSteps d lines startLine rest links (stored d (itemLink it) v q)).2
              c asked2 p' ∧
            ((∀ q1 q2, R q1 q2 → keepsLog q1 q2) →
               resolverLog q = resolverLog p ++ asked1)) ∨
         (∃ e pre cnd w w', c = Rejected e ∧ asked = asked1 ∧ asked1 = pre ++ [cnd] ∧
            _resolvePath d cnd w = (Rejected e, w') ∧ Inv p' ∧
            ((∀ q1 q2, R q1 q2 → keepsLog q1 q2) →
               resolverLog p' = resolverLog p ++ asked1)))
  end.
Proof using HR Hcall.
  intros Hp. rewrite detectSteps_cons.
  destruct (cachedValidatedLinks p !! itemLink it) as [[ls|]|]; [done..|].
  intros Hrun. by apply validateSteps_run in Hrun.
Qed.

End Rely.

(** *** The whole pass *)

(** Whatever the rest of the process does: the pass asks the resolver
    at most twice for every item, each time for a candidate of an item,
    and when it is rejected, the last string asked is one for which the
    resolver rejects. *)
Lemma run_trace R d lines startLine items links p c asked p' :
  runsTo R (detectSteps d lines startLine items links p).1
    (detectSteps d lines startLine items links p).2 c asked p' →
  length asked ≤ 2 * length items ∧
  Forall (fun s => ∃ it, it ∈ items ∧ s ∈ linkCandidates (itemLink it)) asked ∧
  (∀ e, c = Rejected e →
     ∃ pre cnd w w', asked = pre ++ [cnd] ∧ _resolvePath d cnd w = (Rejected e, w')) ∧
  ((∀ q q', R q q' → keepsLog q q') → resolverLog p' = resolverLog p ++ asked).
Proof.
  revert links p asked. induction items as [|it items IH]; intros links p asked Hrun.
  { apply runsTo_finished in Hrun as (-> & -> & ->).
    split_and!; [simpl; lia|done|done|by rewrite app_nil_r]. }
  apply (detectSteps_run R (fun _ => True)) in Hrun; [|done..].
  assert (∀ asked' : list jsstring,
    Forall (fun s => ∃ it', it' ∈ items ∧ s ∈ linkCandidates (itemLink it')) asked' →
    Forall (fun s => ∃ it', it' ∈ it :: items ∧ s ∈ linkCandidates (itemLink it')) asked')
    as Hweak.
  { intros asked' Hf. eapply Forall_impl; [exact Hf|].
    intros s (it' & ? & ?). exists it'. split; [by right|done]. }
  destruct (cachedValidatedLinks p !! itemLink it) as [[ls|]|].
  - destruct (IH _ _ _ Hrun) as (Hlen & Hall & Hrej & Hlog).
    split_and!; [simpl; lia|by apply Hweak|done|done].
  - destruct (IH _ _ _ Hrun) as (Hlen & Hall & Hrej & Hlog).
    split_and!; [simpl; lia|by apply Hweak|done|done].
  - destruct Hrun as (asked1 & Hpre & Hcases).
    pose proof (prefix_length _ _ Hpre) as Hl1.
    pose proof (linkCandidates_length (itemLink it)) as Hl2.
    assert (Forall (fun s => ∃ it', it' ∈ it :: items ∧ s ∈ linkCandidates (itemLink it'))
              asked1) as Hfirst.
    { apply Forall_forall. intros s Hs. exists it. split; [by left|by eapply elem_of_prefix]. }
    destruct Hcases as [(v & q & asked2 & _ & -> & Hrun & Hl)|
                        (e & pre & cnd & w & w' & -> & -> & -> & Hres & _ & Hl)].
    + destruct (IH _ _ _ Hrun) as (Hlen & Hall & Hrej & Hlog).
      split_and!.
      * rewrite length_app. simpl. lia.
      * apply Forall_app. split; [done|by apply Hweak].
      * intros e (pre & cnd & w & w' & -> & Hres)%Hrej.
        exists (asked1 ++ pre), cnd, w, w'. split; [by rewrite app_assoc|done].
      * intros HRl. rewrite (Hlog HRl). unfold stored.
        destruct (_enableCaching d); cbn [cacheSet snd resolverLog];
          by rewrite (Hl HRl), app_assoc.
    + split_and!; [simpl; lia|done| |done].
      intros e' [= <-]. by exists pre, cnd, w, w'.
Qed.

(** While the rest of the process removes and replaces no cache entry:
    the entries of [m], when they are in the cache as the loop starts,
    are in the cache at the end, and the resolver is asked only for
    items whose text [m] does not have. *)
Lemma run_keeps d lines startLine items links p c asked p' m :
  m ⊆ cachedValidatedLinks p →
  runsTo keepsCache (detectSteps d lines startLine items links p).1
    (detectSteps d lines startLine items links p).2 c asked p' →
  m ⊆ cachedValidatedLinks p' ∧
  Forall (fun s => ∃ it, it ∈ items ∧ s ∈ linkCandidates (itemLink it) ∧
                        m !! itemLink it = None) asked.
Proof.
  revert links p asked. induction items as [|it items IH]; intros links p asked Hm Hrun.
  { by apply runsTo_finished in Hrun as (-> & -> & ->). }
  apply (detectSteps_run keepsCache (fun q => m ⊆ cachedValidatedLinks q)) in Hrun;
    [| |done|done].
  2:{ intros q q' Hqq Hq. by etrans. }
  assert (∀ asked' : list jsstring,
    Forall (fun s => ∃ it', it' ∈ items ∧ s ∈ linkCandidates (itemLink it') ∧
                           m !! itemLink it' = None) asked' →
    Forall (fun s => ∃ it', it' ∈ it :: items ∧ s ∈ linkCandidates (itemLink it') ∧
                           m !! itemLink it' = None) asked')
    as Hweak.
  { intros asked' Hf. eapply Forall_impl; [exact Hf|].
    intros s (it' & ? & ?). exists it'. split; [by right|done]. }
  destruct (cachedValidatedLinks p !! itemLink it) as [[ls|]|] eqn:Hc.
  - destruct (IH _ _ _ Hm Hrun) as [? ?]. split; [done|by apply Hweak].
  - destruct (IH _ _ _ Hm Hrun) as [? ?]. split; [done|by apply Hweak].
  - pose proof (lookup_weaken_None _ _ _ Hc Hm) as Hmiss.
    destruct Hrun as (asked1 & Hpre & Hcases).
    assert (Forall (fun s => ∃ it', it' ∈ it :: items ∧ s ∈ linkCandidates (itemLink it') ∧
                                   m !! itemLink it' = None) asked1) as Hfirst.
    { apply Forall_forall. intros s Hs. exists it.
      split_and!; [by left|by eapply elem_of_prefix|done]. }
    destruct Hcases as [(v & q & asked2 & Hq & -> & Hrun & _)|
                        (e & pre & cnd & w & w' & -> & -> & -> & _ & Hp' & _)]; [|done].
    assert (m ⊆ cachedValidatedLinks (stored d (itemLink it) v q)) as Hm'.
    { unfold stored. destruct (_enableCaching d); [|done].
      cbn [cacheSet snd cachedValidatedLinks]. by apply insert_subseteq_r. }
    destruct (IH _ _ _ Hm' Hrun) as [? ?]. split; [done|].
    apply Forall_app. split; [done|by apply Hweak].
Qed.

(** Under the same proviso every link the pass returns is the link of
    an item whose text the cache maps to a validated link at the end. *)
Lemma run_links d lines startLine items links p links' asked p' :
  runsTo keepsCache (detectSteps d lines startLine items links p).1
    (detectSteps d lines startLine items links p).2 (Fulfilled links') asked p' →
  ∃ new, links' = links ++ new ∧
    Forall (fun l => ∃ it ls, it ∈ items ∧
              cachedValidatedLinks p' !! itemLink it = Some (Some ls) ∧
              l = mkLink (vl_link ls) (vl_uri ls) (rangeOf d lines startLine it) (type l) ∧
              (type l = LocalFile ↔ vl_isDirectory ls = false)) new.
Proof.
  revert links p asked. induction items as [|it items IH]; intros links p asked Hrun.
  { apply runsTo_finished in Hrun as ([= <-] & -> & ->). exists []. by rewrite app_nil_r. }
  pose proof Hrun as Hrun0.
  apply (detectSteps_run keepsCache (fun _ => True)) in Hrun; [|done..].
  assert (∀ new : list ITerminalSimpleLink,
    Forall (fun l => ∃ it' ls, it' ∈ items ∧
              cachedValidatedLinks p' !! itemLink it' = Some (Some ls) ∧
              l = mkLink (vl_link ls) (vl_uri ls) (rangeOf d lines startLine it') (type l) ∧
              (type l = LocalFile ↔ vl_isDirectory ls = false)) new →
    Forall (fun l => ∃ it' ls, it' ∈ it :: items ∧
              cachedValidatedLinks p' !! itemLink it' = Some (Some ls) ∧
              l = mkLink (vl_link ls) (vl_uri ls) (rangeOf d lines startLine it') (type l) ∧
              (type l = LocalFile ↔ vl_isDirectory ls = false)) new) as Hweak.
  { intros new Hf. eapply Forall_impl; [exact Hf|]. intros l (it' & ls & ? & ?).
    exists it', ls. split; [by right|done]. }
  destruct (cachedValidatedLinks p !! itemLink it) as [[ls|]|] eqn:Hc.
  - destruct (run_keeps _ _ _ _ _ _ _ _ _ (cachedValidatedLinks p) (reflexivity _) Hrun)
      as [Hsub _].
    destruct (IH _ _ _ Hrun) as (new & -> & Hnew).
    eexists (_ :: new). split; [by rewrite <-app_assoc|]. constructor; [|by apply Hweak].
    exists it, ls. split_and!; [by left|by eapply lookup_weaken|done|apply linkType_file].
  - destruct (IH _ _ _ Hrun) as (new & -> & Hnew). exists new. split; [done|by apply Hweak].
  - destruct Hrun as (asked1 & Hpre & [(v & q & asked2 & _ & -> & Hrun & _)|
                                       (e & pre & cnd & w & w' & [=] & _)]).
    destruct (IH _ _ _ Hrun) as (new & -> & Hnew). exists new. split; [done|by apply Hweak].
Qed.

(** Under the same proviso, with caching enabled, a pass that fulfils
    leaves the text of every item in the cache. *)
Lemma run_fills d lines startLine items links p links' asked p' :
  _enableCaching d = true →
  runsTo keepsCache (detectSteps d lines startLine items links p).1
    (detectSteps d lines startLine items links p).2 (Fulfilled links') asked p' →
  ∀ it, it ∈ items → is_Some (cachedValidatedLinks p' !! itemLink it).
Proof.
  intros He. revert links p asked.
  induction items as [|it items IH]; intros links p asked Hrun it' Hit'; [by inversion Hit'|].
  apply (detectSteps_run keepsCache (fun _ => True)) in Hrun; [|done..].
  destruct (cachedValidatedLinks p !! itemLink it) as [[ls|]|] eqn:Hc.
  - apply elem_of_cons in Hit' as [->|Hit']; [|by eapply IH].
    destruct (run_keeps _ _ _ _ _ _ _ _ _ (cachedValidatedLinks p) (reflexivity _) Hrun)
      as [Hsub _].
    exists (Some ls). by eapply lookup_weaken.
  - apply elem_of_cons in Hit' as [->|Hit']; [|by eapply IH].
    destruct (run_keeps _ _ _ _ _ _ _ _ _ (cachedValidatedLinks p) (reflexivity _) Hrun)
      as [Hsub _].
    exists None. by eapply lookup_weaken.
  - destruct Hrun as (asked1 & Hpre & [(v & q & asked2 & _ & -> & Hrun & _)|
                                       (e & pre & cnd & w & w' & [=] & _)]).
    apply elem_of_cons in Hit' as [->|Hit']; [|by eapply IH].
    destruct (run_keeps _ _ _ _ _ _ _ _ _
                (cachedValidatedLinks (stored d (itemLink it) v q)) (reflexivity _) Hrun)
      as [Hsub _].
    exists v. eapply lookup_weaken; [|exact Hsub].
    unfold stored. rewrite He. cbn [cacheSet snd cachedValidatedLinks].
    apply lookup_insert_eq.
Qed.

(** With caching disabled, while the rest of the process leaves an
    empty cache empty, a pass that starts on an empty cache ends on an
    empty cache and adds no link. *)
Lemma run_empty d lines startLine items links p c asked p' :
  _enableCaching d = false →
  cachedValidatedLinks p = ∅ →
  runsTo keepsEmpty (detectSteps d lines startLine items links p).1
    (detectSteps d lines startLine items links p).2 c asked p' →
  cachedValidatedLinks p' = ∅ ∧ ∀ links', c = Fulfilled links' → links' = links.
Proof.
  intros He. revert links p asked.
  induction items as [|it items IH]; intros links p asked Hp Hrun.
  { apply runsTo_finished in Hrun as (-> & -> & ->). split; [done|]. by intros ? [= <-]. }
  apply (detectSteps_run keepsEmpty (fun q => cachedValidatedLinks q = ∅)) in Hrun;
    [| |done|done].
  2:{ intros q q' Hqq Hq. by apply Hqq. }
  rewrite Hp, lookup_empty in Hrun.
  destruct Hrun as (asked1 & Hpre & [(v & q & asked2 & Hq & -> & Hrun & _)|
                                     (e & pre & cnd & w & w' & -> & _ & _ & _ & Hp' & _)]).
  - apply (IH _ _ _) in Hrun; [done|]. unfold stored. by rewrite He.
  - split; [done|]. by intros ? [=].
Qed.

(** With a cache that has the text of every item the loop reaches no
    await. *)
Lemma detectSteps_warm d lines startLine items links p :
  (∀ it, it ∈ items → is_Some (cachedValidatedLinks p !! itemLink it)) →
  detectSteps d lines startLine items links p =
  (Finished (Fulfilled (links ++ items ≫= linkFromCache d lines startLine p)), p).
Proof.
  revert links. induction items as [|it items IH]; intros links Hall.
  - cbn [detectSteps]. simpl. by rewrite app_nil_r.
  - rewrite detectSteps_cons, bind_cons. unfold linkFromCache at 1.
    destruct (Hall it) as [[ls|] Hc]; [by left|..]; rewrite Hc.
    + rewrite IH, <-app_assoc; [done|]. intros it' Hit'. apply Hall. by right.
    + rewrite IH; [done|]. intros it' Hit'. apply Hall. by right.
Qed.

(** [detectStart], by the length of the line. *)
Lemma detectStart_cases d lines startLine endLine p :
  let d1 := (resetCacheTimeout d (window p)).1 in
  let text := getXtermLineContent (xterm d) startLine endLine in
  ∃ items, scan (_os d) text = Some items ∧
    (((text = [] ∨ 2000 < length text) ∧
      detectStart d lines startLine endLine p =
        Some (d1, Finished (Fulfilled []), afterReset d p)) ∨
     (text ≠ [] ∧ length text ≤ 2000 ∧
      detectStart d lines startLine endLine p =
        Some (d1, (detectSteps d1 lines startLine items [] (afterReset d p)).1,
                  (detectSteps d1 lines startLine items [] (afterReset d p)).2))).
Proof.
  cbv zeta.
  destruct (scan_total (_os d) (getXtermLineContent (xterm d) startLine endLine))
    as [items Hitems].
  exists items. split; [done|]. rewrite detectStart_unfold. cbv zeta. rewrite Hitems.
  unfold MaxLineLength.
  case_bool_decide as Hnil; [left; split; [by left|done]|].
  destruct (Nat.ltb_spec 2000 (length (getXtermLineContent (xterm d) startLine endLine)));
    [left; split; [by right|done]|right; done].
Qed.

(** The start of a pass over a line whose matches are all in the cache
    is the whole pass. *)
Lemma detectStart_warm d lines startLine endLine p items :
  getXtermLineContent (xterm d) startLine endLine ≠ [] →
  length (getXtermLineContent (xterm d) startLine endLine) ≤ 2000 →
  scan (_os d) (getXtermLineContent (xterm d) startLine endLine) = Some items →
  (∀ it, it ∈ items → is_Some (cachedValidatedLinks p !! itemLink it)) →
  detectStart d lines startLine endLine p =
    Some ((resetCacheTimeout d (window p)).1,
          Finished (Fulfilled (items ≫= linkFromCache d lines startLine p)),
          afterReset d p).
Proof.
  intros Hne Hle Hscan Hall.
  destruct (detectStart_cases d lines startLine endLine p) as (items' & Hscan' & Hcases).
  rewrite Hscan in Hscan'. injection Hscan' as <-.
  destruct Hcases as [[[?|?] _]|(_ & _ & ->)]; [done|lia|].
  rewrite detectSteps_warm by done. cbn [fst snd app]. do 5 f_equal.
  apply list_bind_ext; [|done]. intros it. apply linkFromCache_afterReset.
Qed.

(** While nothing but time passes at the awaits, and the one armed
    timer fires at [T]: before [T] the timer is armed and the entries of
    [m] are in the cache, from [T] on no timer is armed. *)
Lemma run_ttl d lines startLine items links p c asked p' m h T :
  (((now (window p) < T)%N ∧ pending (window p) = {[ h := T ]} ∧
    m ⊆ cachedValidatedLinks p) ∨
   ((T ≤ now (window p))%N ∧ pending (window p) = ∅)) →
  runsTo timePasses (detectSteps d lines startLine items links p).1
    (detectSteps d lines startLine items links p).2 c asked p' →
  ((now (window p') < T)%N ∧ pending (window p') = {[ h := T ]} ∧
   m ⊆ cachedValidatedLinks p') ∨
  ((T ≤ now (window p'))%N ∧ pending (window p') = ∅).
Proof.
  revert links p asked. induction items as [|it items IH]; intros links p asked Hp Hrun.
  { by apply runsTo_finished in Hrun as (-> & -> & ->). }
  apply (detectSteps_run timePasses
           (fun q => ((((now (window q) < T)%N ∧ pending (window q) = {[ h := T ]} ∧
                        m ⊆ cachedValidatedLinks q) ∨
                       ((T ≤ now (window q))%N ∧ pending (window q) = ∅)) ∧
                      (now (window p) ≤ now (window q))%N))) in Hrun.
  - destruct (cachedValidatedLinks p !! itemLink it) as [[ls|]|] eqn:Hc; [by eapply IH..|].
    destruct Hrun as (asked1 & _ & [(v & q & asked2 & [Hq Hmono] & _ & Hrun & _)|
                                    (e & pre & cnd & w & w' & _ & _ & _ & _ & [Hp' _] & _)]);
      [|done].
    apply IH in Hrun; [done|]. rewrite stored_window.
    destruct Hq as [(Hlt & Hpend & Hsub)|?]; [left|by right].
    split_and!; [done..|].
    unfold stored. destruct (_enableCaching d); [|done].
    cbn [cacheSet snd cachedValidatedLinks].
    apply insert_subseteq_r; [|done].
    destruct Hp as [(_ & _ & Hm)|[Hle _]]; [by eapply lookup_weaken_None|lia].
  - intros q q' [dt ->] [[(Hlt & Hpend & Hsub)|[Hle Hpend]] Hmono];
      (split; [|rewrite elapse_now; lia]).
    + destruct (N.ltb_spec (now (window q) + dt) T) as [Hlt'|Hle'].
      * left. destruct (elapse_keeps dt q) as [Hc Hpd].
        { intros h' t'. rewrite Hpend. by intros [_ <-]%lookup_singleton_Some. }
        rewrite elapse_now, Hc, Hpd. done.
      * right. rewrite elapse_now. split; [done|].
        apply map_empty. intros h'.
        destruct (pending (window (elapse dt q)) !! h') as [t'|] eqn:Hh'; [|done].
        apply elapse_pending in Hh' as [Hh' Hlt'']. rewrite Hpend in Hh'.
        apply lookup_singleton_Some in Hh' as [_ <-]. lia.
    + right. rewrite elapse_now. split; [lia|].
      apply map_empty. intros h'.
      destruct (pending (window (elapse dt q)) !! h') as [t'|] eqn:Hh'; [|done].
      apply elapse_pending in Hh' as [Hh' _]. by rewrite Hpend in Hh'.
  - intros q w l Hq. exact Hq.
  - done.
Qed.

(** *** A pass that nothing interrupts

    When every resumption finds the state as the suspension left it, the
    pass is the one [detect] describes. *)
Lemma validateSteps_uninterrupted d cands k p :
  match _validateLinkCandidates d cands p with
  | (Fulfilled v, q) =>
      ∀ c asked p', runsTo eq (k v q).1 (k v q).2 c asked p' →
        ∃ asked1, runsTo eq (validateSteps d cands k p).1 (validateSteps d cands k p).2
                    c (asked1 ++ asked) p'
  | (Rejected e, q) =>
      ∃ asked1, runsTo eq (validateSteps d cands k p).1 (validateSteps d cands k p).2
                  (Rejected e) asked1 q
  end.
Proof.
  revert p. induction cands as [|c1 rest IH]; intros p.
  - cbn [_validateLinkCandidates validateSteps fst snd]. unfold ret.
    intros c asked p' Hrun. exists []. by apply (runs_resumed eq None _ p p).
  - rewrite validateSteps_cons. cbn [_validateLinkCandidates fst snd].
    unfold bind, callResolvePath.
    destruct (_resolvePath d c1 (world p)) as [[[v|]|e] w] eqn:Hres; cbn [fst snd].
    + unfold ret. intros c asked p' Hrun. exists [c1].
      apply (runs_resumed eq (Some c1) _ _ _ _ _ _ eq_refl). cbn [fst snd].
      by apply (runs_resumed eq None _ _ _ _ _ _ eq_refl).
    + set (p1 := mkProcess _ _ w _). specialize (IH p1).
      destruct (_validateLinkCandidates d rest p1) as [[v|e] q].
      * intros c asked p' Hrun. destruct (IH c asked p' Hrun) as [asked1 Hrun1].
        exists (c1 :: asked1).
        by apply (runs_resumed eq (Some c1) _ _ _ _ _ _ eq_refl).
      * destruct IH as [asked1 Hrun1]. exists (c1 :: asked1).
        by apply (runs_resumed eq (Some c1) _ _ _ _ _ _ eq_refl).
    + exists [c1]. apply (runs_resumed eq (Some c1) _ _ _ _ _ _ eq_refl). cbn [fst snd].
      apply (runs_resumed eq None _ _ _ _ _ _ eq_refl). cbn [fst snd]. constructor.
Qed.

Lemma processItems_uninterrupted d lines startLine items links p :
  ∃ asked,
    runsTo eq (detectSteps d lines startLine items links p).1
      (detectSteps d lines startLine items links p).2
      (processItems d lines startLine items links p).1 asked
      (processItems d lines startLine items links p).2.
Proof.
  revert links p. induction items as [|it items IH]; intros links p.
  { exists []. cbn [detectSteps processItems fst snd]. unfold ret. constructor. }
  rewrite processItems_cons, detectSteps_cons.
  destruct (cachedValidatedLinks p !! itemLink it) as [[ls|]|] eqn:Hc.
  - rewrite (validateAndPush_cached _ _ _ _ _ _ Hc). apply IH.
  - rewrite (validateAndPush_not_found _ _ _ _ _ Hc). apply IH.
  - rewrite (validateAndPush_miss _ _ _ _ _ Hc).
    pose proof (validateSteps_uninterrupted d (linkCandidates (itemLink it))
                  (fun linkStat p' =>
                     detectSteps d lines startLine items links
                       (stored d (itemLink it) linkStat p')) p) as Hv.
    destruct (_validateLinkCandidates d (linkCandidates (itemLink it)) p) as [[v|e] q].
    + cbn beta in Hv.
      assert (stored d (itemLink it) v q =
              if _enableCaching d
              then mkProcess (<[itemLink it := v]> (cachedValidatedLinks q)) (window q)
                     (world q) (resolverLog q)
              else q) as Hst by (unfold stored; by destruct (_enableCaching d)).
      rewrite <-Hst. destruct (IH links (stored d (itemLink it) v q)) as [asked Hrun].
      destruct (Hv _ _ _ Hrun) as [asked1 Hrun1]. by exists (asked1 ++ asked).
    + destruct Hv as [asked1 Hrun1]. by exists asked1.
Qed.

(** The call [detect] describes is a run of the pass in which nothing
    happens at the awaits. *)
Lemma detect_uninterrupted d lines startLine endLine p d1 c p' :
  detect d lines startLine endLine p = Some (d1, c, p') →
  ∃ t p1 asked,
    detectStart d lines startLine endLine p = Some (d1, t, p1) ∧
    runsTo eq t p1 c asked p'.
Proof.
  rewrite detect_unfold, detectStart_unfold. cbv zeta. unfold afterReset.
  destruct (bool_decide _ || _).
  { intros [= <- <- <-]. eexists _, _, []. split; [done|constructor]. }
  destruct (scan _ _) as [items|]; [|done]. cbn [mbind option_bind].
  intros [= <- <- <-].
  destruct (processItems_uninterrupted (resetCacheTimeout d (window p)).1 lines startLine
              items [] (mkProcess (cachedValidatedLinks p) (resetCacheTimeout d (window p)).2
                          (world p) (resolverLog p))) as [asked Hrun].
  by eexists _, _, asked.
Qed.

(** Every pass comes to its end after three resumptions for each item
    at most. *)
Lemma validateSteps_ends d cands k p n envs :
  (∀ v q envs', n ≤ length envs' → is_Some (resumeWith envs' (k v q).1 (k v q).2)) →
  length cands + 1 + n ≤ length envs →
  is_Some (resumeWith envs (validateSteps d cands k p).1 (validateSteps d cands k p).2).
Proof.
  intros Hk. revert p envs. induction cands as [|c1 rest IH]; intros p envs Hlen.
  - destruct envs as [|env envs]; [simpl in Hlen; lia|].
    cbn [validateSteps fst snd resumeWith].
    match goal with
    | |- context [resumeWith envs (k ?v ?q).1 _] =>
        destruct (Hk v q envs) as [r ->]; [simpl in Hlen; lia|]
    end. done.
  - destruct envs as [|env envs]; [simpl in Hlen; lia|].
    rewrite validateSteps_cons. cbn [fst snd resumeWith].
    destruct (_resolvePath d c1 (world p)).1 as [[v|]|e]; cbn [fst snd].
    + destruct envs as [|env2 envs]; [simpl in Hlen; lia|]. cbn [resumeWith].
      match goal with
      | |- context [resumeWith envs (k ?v' ?q).1 _] =>
          destruct (Hk v' q envs) as [r ->]; [simpl in Hlen; lia|]
      end. done.
    + match goal with
      | |- context [resumeWith envs (validateSteps d rest k ?q).1 _] =>
          destruct (IH q envs) as [r ->]; [simpl in Hlen; lia|]
      end. done.
    + destruct envs as [|env2 envs]; [simpl in Hlen; lia|]. simpl. destruct envs; simpl; eauto.
Qed.

Lemma detectSteps_ends d lines startLine items links p envs :
  3 * length items ≤ length envs →
  is_Some (resumeWith envs (detectSteps d lines startLine items links p).1
             (detectSteps d lines startLine items links p).2).
Proof.
  revert links p envs. induction items as [|it items IH]; intros links p envs Hlen.
  { cbn [detectSteps fst snd]. by destruct envs. }
  rewrite detectSteps_cons.
  destruct (cachedValidatedLinks p !! itemLink it) as [[ls|]|];
    [apply IH; simpl in Hlen; lia..|].
  apply (validateSteps_ends _ _ _ _ (3 * length items)).
  - intros v q envs' Hlen'. by apply IH.
  - pose proof (linkCandidates_length (itemLink it)). simpl in Hlen. lia.
Qed.

Lemma resumeWith_runs R envs t p c asked p' :
  relied R envs t p → resumeWith envs t p = Some (c, asked, p') →
  runsTo R t p c asked p'.
Proof. intros Hrel Hrun. exact (resumeWith_runsTo R envs t p _ Hrel Hrun). Qed.

Lemma keepsCache_same (q q' : Process) :
  cachedValidatedLinks q' = cachedValidatedLinks q → keepsCache q q'.
Proof. unfold keepsCache. by intros ->. Qed.

Lemma keepsCache_sets (q : Process) k v :
  cachedValidatedLinks q !! k = None → keepsCache q (cacheSet k v q).2.
Proof. intros Hk. by apply insert_subseteq. Qed.

End RunFacts.

(** A timer that fires while a pass is suspended.  The line is
    [hit/x new/y hit/x], with [hit/x] cached as a file and [q/r] as
    NOT_FOUND, and the resolver finds nothing.  When nothing happens at
    the awaits the pass returns two links, asks the resolver once, and
    leaves three cache entries.  When 10 s pass at its first await, its
    timer fires there and clears the cache: the second [hit/x] is not in
    the cache any more, the resolver is asked for it, and [hit/x] is
    cached as NOT_FOUND although the pass returns its link; one link, two
    calls, two entries. *)
Example timer_fires_inside_pass :
  let d := detectorOn (str "hit/x new/y hit/x") [] [] in
  let p := processWith {[ str "hit/x" := Some (fileAt (str "hit/x")); str "q/r" := None ]} in
  let r := startResult d p in
  let hit := fun range =>
    @mkLink exampleHost (str "/ws/hit/x") (str "file:///ws/hit/x") range LocalFile in
  let keys := [str "hit/x"; str "new/y"; str "q/r"] in
  runSeen [clock 0; clock 0] r keys =
    (Fulfilled [hit (1, 6)%Z; hit (13, 18)%Z], [str "new/y"], 3,
     [Some (Some (fileAt (str "hit/x"))); Some None; Some None]) ∧
  runSeen [clock 10000; clock 0; clock 0; clock 0] r keys =
    (Fulfilled [hit (1, 6)%Z], [str "new/y"; str "hit/x"], 2,
     [Some None; Some None; None]).
Proof. split; vm_compute; reflexivity. Qed.

(** X5.  A pass over a line whose matches are all in the cache (the
    line not empty and within the length bound) asks the resolver
    nothing and changes nothing but the cache timer: it fulfils with one
    link for every item whose text is cached as a validated link, in the
    order of the items, carrying the canonical text and the URI of the
    cached entry and the buffer range of the item; items cached as
    NOT_FOUND give nothing. *)
Theorem warm_cache_pass `{H : Host} d lines startLine endLine p items :
  getXtermLineContent (xterm d) startLine endLine ≠ [] →
  length (getXtermLineContent (xterm d) startLine endLine) ≤ 2000 →
  scan (_os d) (getXtermLineContent (xterm d) startLine endLine) = Some items →
  (∀ it, it ∈ items → is_Some (cachedValidatedLinks p !! itemLink it)) →
  detect d lines startLine endLine p =
    Some ((resetCacheTimeout d (window p)).1,
          Fulfilled (items ≫= linkFromCache d lines startLine p),
          afterReset d p) ∧
  cachedValidatedLinks (afterReset d p) = cachedValidatedLinks p ∧
  world (afterReset d p) = world p ∧
  resolverLog (afterReset d p) = resolverLog p.
Proof. intros Hne Hle Hscan Hall. split; [by apply detect_warm|done]. Qed.

(** The line [hit/x no/such] with [hit/x] cached as a file and
    [no/such] as NOT_FOUND: one link, for [hit/x]. *)
Lemma warm_cache_pass_witness :
  let d := detectorOn (str "hit/x no/such") [] [] in
  let p := processWith {[ str "hit/x" := Some (fileAt (str "hit/x"));
                          str "no/such" := None ]} in
  let items := [mkItem (str "hit/x") 0 (str "hit/x") 0;
                mkItem (str "no/such") 6 (str "no/such") 6] in
  items ≫= linkFromCache d tt 0%Z p =
    [@mkLink exampleHost (str "/ws/hit/x") (str "file:///ws/hit/x") (1, 6)%Z LocalFile] ∧
  detect d tt 0%Z 0%Z p =
    Some ((resetCacheTimeout d (window p)).1,
          Fulfilled (items ≫= linkFromCache d tt 0%Z p),
          afterReset d p) ∧
  cachedValidatedLinks (afterReset d p) = cachedValidatedLinks p ∧
  world (afterReset d p) = world p ∧
  resolverLog (afterReset d p) = resolverLog p.
Proof.
  split; [vm_compute; reflexivity|].
  apply (warm_cache_pass (H := exampleHost) (detectorOn (str "hit/x no/such") [] []) tt 0%Z 0%Z
           (processWith {[ str "hit/x" := Some (fileAt (str "hit/x"));
                           str "no/such" := None ]})
           [mkItem (str "hit/x") 0 (str "hit/x") 0;
            mkItem (str "no/such") 6 (str "no/such") 6]).
  - discriminate.
  - vm_compute. lia.
  - vm_compute. reflexivity.
  - intros it [->|[->|Hit]%elem_of_cons]%elem_of_cons; [vm_compute; eauto..|].
    by inversion Hit.
Defined.

(** X6.  With caching enabled, consider a pass that fulfilled, and the
    next pass of the same detector over the same line.  If, from the
    start of the first pass to the start of the next, the rest of the
    process removes and replaces no cache entry (no cache timer fires, no
    other pass sets an entry that is there), then the next pass reaches
    no await and so asks the resolver nothing: it is finished when the
    call returns, fulfilled, with the resolver log, the resolver's world
    and the cache as it found them, and what it returns are the links of
    the items the cache then holds as validated. *)
Theorem second_pass_asks_nothing `{H : Host} d lines startLine endLine p d1 t p1
    links1 asked1 p2 p3 :
  _enableCaching d = true →
  detectStart d lines startLine endLine p = Some (d1, t, p1) →
  runsTo keepsCache t p1 (Fulfilled links1) asked1 p2 →
  keepsCache p2 p3 →
  ∃ d2 links2,
    detectStart d1 lines startLine endLine p3 =
      Some (d2, Finished (Fulfilled links2), afterReset d1 p3) ∧
    resolverLog (afterReset d1 p3) = resolverLog p3 ∧
    world (afterReset d1 p3) = world p3 ∧
    cachedValidatedLinks (afterReset d1 p3) = cachedValidatedLinks p3 ∧
    ∀ items,
      getXtermLineContent (xterm d) startLine endLine ≠ [] →
      length (getXtermLineContent (xterm d) startLine endLine) ≤ 2000 →
      scan (_os d) (getXtermLineContent (xterm d) startLine endLine) = Some items →
      links2 = items ≫= linkFromCache d1 lines startLine p3.
Proof.
  intros He Hfirst Hrun Hlater.
  destruct (detectStart_cases d lines startLine endLine p) as (items & Hscan & Hcases).
  destruct (resetCacheTimeout_fields d (window p)) as (Hx & Ho & _ & He1).
  destruct Hcases as [[Hout Hd]|(Hne & Hle & Hd)]; rewrite Hd in Hfirst;
    injection Hfirst as <- <- <-.
  - destruct (detectStart_cases (resetCacheTimeout d (window p)).1 lines startLine endLine p3)
      as (items2 & _ & [[_ Hd2]|(Hne2 & Hle2 & _)]).
    + eexists _, _. split; [exact Hd2|]. split_and!; [done..|].
      intros items' Hne Hle. destruct Hout; [done|lia].
    + rewrite Hx in Hne2, Hle2. destruct Hout; [done|lia].
  - rewrite He in He1.
    pose proof (run_fills _ _ _ _ _ _ _ _ _ He1 Hrun) as Hall.
    eexists _, _. split; [apply detectStart_warm|].
    + by rewrite Hx.
    + by rewrite Hx.
    + rewrite Hx, Ho. exact Hscan.
    + intros it Hit. destruct (Hall it Hit) as [v Hv]. exists v. by eapply lookup_weaken.
    + split_and!; [done..|]. intros items' _ _ Hscan'.
      rewrite Hscan in Hscan'. by injection Hscan' as <-.
Qed.

(** A first pass over [ok/a no/such].  While it awaits the resolver
    another pass caches [z/z], and 3 s pass; it ends with both texts
    cached.  After 2 s more the second pass is finished when the call
    returns. *)
Lemma second_pass_asks_nothing_witness :
  let d := detectorOn (str "ok/a no/such") [str "ok/a"] [] in
  let r := startResult d (processWith ∅) in
  let envs := [otherSets (str "z/z") None; clock 0; clock 3000; clock 0] in
  let e := runResult envs r in
  let p3 := clock 2000 e.2 in
  e.1.2 = [str "ok/a"; str "no/such"] ∧
  _enableCaching d = true ∧
  detectStart d tt 0%Z 0%Z (processWith ∅) = Some (r.1.1, r.1.2, r.2) ∧
  runsTo keepsCache r.1.2 r.2 (Fulfilled []) [str "ok/a"; str "no/such"] e.2 ∧
  keepsCache e.2 p3 ∧
  ∃ d2 links2,
    detectStart r.1.1 tt 0%Z 0%Z p3 =
      Some (d2, Finished (Fulfilled links2), afterReset r.1.1 p3) ∧
    resolverLog (afterReset r.1.1 p3) = resolverLog p3 ∧
    world (afterReset r.1.1 p3) = world p3 ∧
    cachedValidatedLinks (afterReset r.1.1 p3) = cachedValidatedLinks p3 ∧
    ∀ items,
      getXtermLineContent (xterm d) 0%Z 0%Z ≠ [] →
      length (getXtermLineContent (xterm d) 0%Z 0%Z) ≤ 2000 →
      scan (_os d) (getXtermLineContent (xterm d) 0%Z 0%Z) = Some items →
      links2 = items ≫= linkFromCache r.1.1 tt 0%Z p3.
Proof.
  set (d := detectorOn (str "ok/a no/such") [str "ok/a"] []).
  set (r := startResult d (processWith ∅)).
  set (envs := [otherSets (str "z/z") None; clock 0; clock 3000; clock 0]).
  set (e := runResult envs r). set (p3 := clock 2000 e.2). cbv zeta.
  assert (detectStart d tt 0%Z 0%Z (processWith ∅) = Some (r.1.1, r.1.2, r.2)) as Hfirst
    by (vm_compute; reflexivity).
  assert (runsTo keepsCache r.1.2 r.2 (Fulfilled []) [str "ok/a"; str "no/such"] e.2)
    as Hrun.
  { apply (resumeWith_runs keepsCache envs); [|vm_compute; reflexivity].
    apply relied_cons; [apply keepsCache_sets; vm_compute; reflexivity|].
    apply relied_cons; [apply keepsCache_same; vm_compute; reflexivity|].
    apply relied_cons; [apply keepsCache_same; vm_compute; reflexivity|].
    apply relied_cons; [apply keepsCache_same; vm_compute; reflexivity|].
    apply relied_nil. }
  assert (keepsCache e.2 p3) as Hlater
    by (apply keepsCache_same; vm_compute; reflexivity).
  split; [vm_compute; reflexivity|]. split; [reflexivity|].
  split; [exact Hfirst|]. split; [exact Hrun|]. split; [exact Hlater|].
  exact (second_pass_asks_nothing (H := exampleHost) d tt 0%Z 0%Z _ _ _ _ _ _ _ _
           eq_refl Hfirst Hrun Hlater).
Defined.

(** X7.  A detector with caching disabled leaves the cache and the
    timers alone: the start of a pass changes neither, and no later
    stretch of the pass, on whatever state it is resumed, changes either.
    And it finds nothing on its own: when the pass starts on an empty
    cache and the rest of the process leaves an empty cache empty, the
    cache is empty at the end and the pass returns no link. *)
Theorem caching_disabled_frame `{H : Host} d lines startLine endLine p d1 t p1 :
  _enableCaching d = false →
  detectStart d lines startLine endLine p = Some (d1, t, p1) →
  d1 = d ∧ cachedValidatedLinks p1 = cachedValidatedLinks p ∧ window p1 = window p ∧
  steps_within
    (fun q q' => cachedValidatedLinks q' = cachedValidatedLinks q ∧ window q' = window q) t ∧
  (cachedValidatedLinks p = ∅ →
   ∀ c asked p', runsTo keepsEmpty t p1 c asked p' →
     cachedValidatedLinks p' = ∅ ∧ ∀ links, c = Fulfilled links → links = []).
Proof.
  intros He Hr.
  destruct (detectStart_timers _ _ _ _ _ _ Hr) as (Hd & Hw & Hc & _).
  rewrite resetCacheTimeout_disabled in Hd, Hw by done. cbn [fst snd] in Hd, Hw.
  destruct (scan_total (_os d) (getXtermLineContent (xterm d) startLine endLine))
    as [items Hscan].
  destruct (detectStart_within _ _ _ _ _ _ _ Hr Hscan) as [_ Hs]. cbn [fst snd] in Hs.
  split_and!; [done..| |].
  - eapply steps_within_mono; [|exact Hs].
    intros q q' [? [?|[? _]]]; [done|congruence].
  - intros Hempty c asked p' Hrun.
    destruct (detectStart_cases d lines startLine endLine p) as (items' & Hscan' & Hcases).
    destruct Hcases as [[_ Hd']|(_ & _ & Hd')]; rewrite Hd' in Hr; injection Hr as _ <- <-.
    + apply runsTo_finished in Hrun as (-> & _ & ->). split; [done|]. by intros ? [= <-].
    + apply run_empty in Hrun; [done| |done].
      destruct (resetCacheTimeout_fields d (window p)) as (_ & _ & _ & He1). by rewrite He1.
Qed.

(** A detector without caching on [a/b], which the resolver finds: the
    resolver is asked at the start; when another pass caches [a/b] as
    NOT_FOUND meanwhile, that entry is all the cache holds at the end. *)
Lemma caching_disabled_frame_witness :
  let d := @mkDetector exampleHost (str "a/b") Linux (resolver [str "a/b"] []) 0 false in
  let r := startResult d (processWith ∅) in
  let e := runResult [clock 500; otherSets (str "a/b") None] r in
  resolverLog r.2 = [str "a/b"] ∧
  e.1.1 = Fulfilled [] ∧
  cachedValidatedLinks e.2 = {[ str "a/b" := None ]} ∧
  _enableCaching d = false ∧
  detectStart d tt 0%Z 0%Z (processWith ∅) = Some (r.1.1, r.1.2, r.2) ∧
  (r.1.1 = d ∧ cachedValidatedLinks r.2 = cachedValidatedLinks (processWith ∅) ∧
   window r.2 = window (processWith ∅) ∧
   steps_within
     (fun q q' => cachedValidatedLinks q' = cachedValidatedLinks q ∧ window q' = window q)
     r.1.2 ∧
   (cachedValidatedLinks (processWith ∅) = ∅ →
    ∀ c asked p', runsTo keepsEmpty r.1.2 r.2 c asked p' →
      cachedValidatedLinks p' = ∅ ∧ ∀ links, c = Fulfilled links → links = [])).
Proof.
  set (d := @mkDetector exampleHost (str "a/b") Linux (resolver [str "a/b"] []) 0 false).
  set (r := startResult d (processWith ∅)). cbv zeta.
  assert (detectStart d tt 0%Z 0%Z (processWith ∅) = Some (r.1.1, r.1.2, r.2)) as Hfirst
    by (vm_compute; reflexivity).
  split; [vm_compute; reflexivity|]. split; [vm_compute; reflexivity|].
  split; [vm_compute; reflexivity|]. split; [reflexivity|]. split; [exact Hfirst|].
  exact (caching_disabled_frame (H := exampleHost) d tt 0%Z 0%Z _ _ _ _ eq_refl Hfirst).
Defined.

(** X8.  Whatever the rest of the process does at its awaits, a pass
    asks the resolver at most twice for every item of its line, each
    time for a candidate of an item of the line.  While the rest of the
    process removes and replaces no cache entry, the items are ones whose
    text was not in the cache when the pass began; and while the rest of
    the process does not call the resolver, the resolver log at the end
    is the log at the start followed by what this pass asked. *)
Theorem resolver_calls_bounded `{H : Host} R d lines startLine endLine p d1 t p1 items
    c asked p' :
  detectStart d lines startLine endLine p = Some (d1, t, p1) →
  scan (_os d) (getXtermLineContent (xterm d) startLine endLine) = Some items →
  runsTo R t p1 c asked p' →
  length asked ≤ 2 * length items ∧
  Forall (fun s => ∃ it, it ∈ items ∧ s ∈ linkCandidates (itemLink it)) asked ∧
  ((∀ q q', R q q' → keepsCache q q') →
   Forall (fun s => ∃ it, it ∈ items ∧ s ∈ linkCandidates (itemLink it) ∧
                         cachedValidatedLinks p !! itemLink it = None) asked) ∧
  ((∀ q q', R q q' → keepsLog q q') → resolverLog p' = resolverLog p ++ asked).
Proof.
  intros Hr Hscan Hrun.
  destruct (detectStart_cases d lines startLine endLine p) as (items' & Hscan' & Hcases).
  rewrite Hscan in Hscan'. injection Hscan' as <-.
  destruct Hcases as [[_ Hd]|(_ & _ & Hd)]; rewrite Hd in Hr; injection Hr as _ <- <-.
  { apply runsTo_finished in Hrun as (-> & -> & ->).
    split_and!; [simpl; lia|done|done|]. intros _. by rewrite app_nil_r. }
  destruct (run_trace _ _ _ _ _ _ _ _ _ _ Hrun) as (Hlen & Hall & _ & Hlog).
  split_and!; [done|done| |done].
  intros HR. apply (runsTo_mono _ keepsCache) in Hrun; [|done].
  by destruct (run_keeps _ _ _ _ _ (afterReset d p) _ _ _ (cachedValidatedLinks p)
                 (reflexivity _) Hrun).
Qed.

(** The line [../x/y hit/x] with [hit/x] in the cache, another pass
    caching [z/z] and 1 s passing at the awaits: the resolver is asked for
    the two candidates of [../x/y] and not for [hit/x]. *)
Lemma resolver_calls_bounded_witness :
  let d := detectorOn (str "../x/y hit/x") [] [] in
  let p := processWith {[ str "hit/x" := Some (fileAt (str "hit/x")) ]} in
  let r := startResult d p in
  let envs := [otherSets (str "z/z") None; clock 1000; clock 0] in
  let e := runResult envs r in
  let items := [mkItem (str "../x/y") 0 (str "../x/y") 0;
                mkItem (str "hit/x") 7 (str "hit/x") 7] in
  let asked := [str "../x/y"; str "x/y"] in
  let R := fun q q' : Process => keepsCache q q' ∧ keepsLog q q' in
  detectStart d tt 0%Z 0%Z p = Some (r.1.1, r.1.2, r.2) ∧
  scan (_os d) (getXtermLineContent (xterm d) 0%Z 0%Z) = Some items ∧
  runsTo R r.1.2 r.2 e.1.1 asked e.2 ∧
  length asked ≤ 2 * length items ∧
  Forall (fun s => ∃ it, it ∈ items ∧ s ∈ linkCandidates (itemLink it)) asked ∧
  ((∀ q q', R q q' → keepsCache q q') →
   Forall (fun s => ∃ it, it ∈ items ∧ s ∈ linkCandidates (itemLink it) ∧
                         cachedValidatedLinks p !! itemLink it = None) asked) ∧
  ((∀ q q', R q q' → keepsLog q q') → resolverLog e.2 = resolverLog p ++ asked).
Proof.
  set (d := detectorOn (str "../x/y hit/x") [] []).
  set (p := processWith {[ str "hit/x" := Some (fileAt (str "hit/x")) ]}).
  set (r := startResult d p).
  set (envs := [otherSets (str "z/z") None; clock 1000; clock 0]).
  set (e := runResult envs r). cbv zeta.
  set (R := fun q q' : Process => keepsCache q q' ∧ keepsLog q q').
  assert (detectStart d tt 0%Z 0%Z p = Some (r.1.1, r.1.2, r.2)) as Hfirst
    by (vm_compute; reflexivity).
  assert (scan (_os d) (getXtermLineContent (xterm d) 0%Z 0%Z) =
          Some [mkItem (str "../x/y") 0 (str "../x/y") 0;
                mkItem (str "hit/x") 7 (str "hit/x") 7]) as Hscan
    by (vm_compute; reflexivity).
  assert (runsTo R r.1.2 r.2 e.1.1 [str "../x/y"; str "x/y"] e.2) as Hrun.
  { apply (resumeWith_runs R envs); [|vm_compute; reflexivity].
    apply relied_cons;
      [split; [apply keepsCache_sets; vm_compute; reflexivity|vm_compute; reflexivity]|].
    apply relied_cons;
      [split; [apply keepsCache_same; vm_compute; reflexivity|vm_compute; reflexivity]|].
    apply relied_cons;
      [split; [apply keepsCache_same; vm_compute; reflexivity|vm_compute; reflexivity]|].
    apply relied_nil. }
  split; [exact Hfirst|]. split; [exact Hscan|]. split; [exact Hrun|].
  exact (resolver_calls_bounded (H := exampleHost) R d tt 0%Z 0%Z p _ _ _ _ _ _ _
           Hfirst Hscan Hrun).
Defined.

(** X9.  A pass never removes a cache entry, and what it sets are
    entries for the texts of items of its line, and only with caching
    enabled: the start of the pass leaves the cache as it is, and every
    later stretch, on whatever state it is resumed, leaves the timers
    alone and either leaves the cache as it finds it or sets the entry of
    the text of one item.  While the rest of the process removes and
    replaces no cache entry, every entry that was in the cache when the
    pass began is there, unchanged, at the end. *)
Theorem cache_only_grows `{H : Host} d lines startLine endLine p d1 t p1 items :
  detectStart d lines startLine endLine p = Some (d1, t, p1) →
  scan (_os d) (getXtermLineContent (xterm d) startLine endLine) = Some items →
  cachedValidatedLinks p1 = cachedValidatedLinks p ∧
  steps_within (ownStep d items) t ∧
  ∀ c asked p', runsTo keepsCache t p1 c asked p' →
    cachedValidatedLinks p ⊆ cachedValidatedLinks p'.
Proof.
  intros Hr Hscan.
  destruct (detectStart_within _ _ _ _ _ _ _ Hr Hscan) as [Hc Hs]. cbn [fst snd] in Hc, Hs.
  split_and!; [done..|]. intros c asked p' Hrun.
  destruct (detectStart_cases d lines startLine endLine p) as (items' & _ & Hcases).
  destruct Hcases as [[_ Hd]|(_ & _ & Hd)]; rewrite Hd in Hr; injection Hr as _ <- <-.
  { by apply runsTo_finished in Hrun as (_ & _ & ->). }
  by destruct (run_keeps _ _ _ _ _ (afterReset d p) _ _ _ (cachedValidatedLinks p)
                 (reflexivity _) Hrun).
Qed.

(** The line [ok/a old/b] with [old/b] cached as NOT_FOUND, although
    the resolver would find it now: the entry stays, [ok/a] is added, and
    so is the [z/z] that another pass caches meanwhile. *)
Lemma cache_only_grows_witness :
  let d := detectorOn (str "ok/a old/b") [str "ok/a"; str "old/b"] [] in
  let p := processWith {[ str "old/b" := None ]} in
  let r := startResult d p in
  let e := runResult [otherSets (str "z/z") None; clock 0] r in
  let items := [mkItem (str "ok/a") 0 (str "ok/a") 0; mkItem (str "old/b") 5 (str "old/b") 5] in
  cachedValidatedLinks e.2 =
    {[ str "ok/a" := Some (fileAt (str "ok/a")); str "old/b" := None; str "z/z" := None ]} ∧
  detectStart d tt 0%Z 0%Z p = Some (r.1.1, r.1.2, r.2) ∧
  scan (_os d) (getXtermLineContent (xterm d) 0%Z 0%Z) = Some items ∧
  (cachedValidatedLinks r.2 = cachedValidatedLinks p ∧
   steps_within (ownStep d items) r.1.2 ∧
   ∀ c asked p', runsTo keepsCache r.1.2 r.2 c asked p' →
     cachedValidatedLinks p ⊆ cachedValidatedLinks p').
Proof.
  set (d := detectorOn (str "ok/a old/b") [str "ok/a"; str "old/b"] []).
  set (p := processWith {[ str "old/b" := None ]}).
  set (r := startResult d p). cbv zeta.
  assert (detectStart d tt 0%Z 0%Z p = Some (r.1.1, r.1.2, r.2)) as Hfirst
    by (vm_compute; reflexivity).
  assert (scan (_os d) (getXtermLineContent (xterm d) 0%Z 0%Z) =
          Some [mkItem (str "ok/a") 0 (str "ok/a") 0;
                mkItem (str "old/b") 5 (str "old/b") 5]) as Hscan
    by (vm_compute; reflexivity).
  split; [vm_compute; reflexivity|]. split; [exact Hfirst|]. split; [exact Hscan|].
  exact (cache_only_grows (H := exampleHost) d tt 0%Z 0%Z p _ _ _ _ Hfirst Hscan).
Defined.

(** X10.  Every link a pass returns comes from the cache.  While the
    rest of the process removes and replaces no cache entry during the
    pass, every returned link belongs to an item of the line whose text
    the cache maps, at the end of the pass, to a validated link; its text
    and URI are those of that entry and not the matched text, its range
    is the range of the item, and its type is [LocalFile] exactly when
    the entry is not a directory. *)
Theorem links_from_cache `{H : Host} d lines startLine endLine p d1 t p1 links asked p'
    items :
  detectStart d lines startLine endLine p = Some (d1, t, p1) →
  scan (_os d) (getXtermLineContent (xterm d) startLine endLine) = Some items →
  runsTo keepsCache t p1 (Fulfilled links) asked p' →
  Forall (fun l => ∃ it ls, it ∈ items ∧
            cachedValidatedLinks p' !! itemLink it = Some (Some ls) ∧
            l = mkLink (vl_link ls) (vl_uri ls) (rangeOf d lines startLine it) (type l) ∧
            (type l = LocalFile ↔ vl_isDirectory ls = false)) links.
Proof.
  intros Hr Hscan Hrun.
  destruct (detectStart_cases d lines startLine endLine p) as (items' & Hscan' & Hcases).
  rewrite Hscan in Hscan'. injection Hscan' as <-.
  destruct (resetCacheTimeout_fields d (window p)) as (Hx & _).
  destruct Hcases as [[_ Hd]|(_ & _ & Hd)]; rewrite Hd in Hr; injection Hr as _ <- <-.
  { by apply runsTo_finished in Hrun as ([= ->] & _ & _). }
  apply run_links in Hrun as (new & -> & Hnew). simpl.
  eapply Forall_impl; [exact Hnew|]. intros l (it & ls & Hit & Hc & Hl & Hty).
  exists it, ls. split_and!; [done..| |done].
  rewrite Hl at 1. unfold rangeOf. by rewrite Hx.
Qed.

(** The line [hit/x ok/a] with [hit/x] in the cache, another pass
    caching [z/z] and 2 s passing at the awaits: the one link returned is
    that of [hit/x]. *)
Lemma links_from_cache_witness :
  let d := detectorOn (str "hit/x ok/a") [str "ok/a"] [] in
  let p := processWith {[ str "hit/x" := Some (fileAt (str "hit/x")) ]} in
  let r := startResult d p in
  let envs := [otherSets (str "z/z") None; clock 2000] in
  let e := runResult envs r in
  let links := [@mkLink exampleHost (str "/ws/hit/x") (str "file:///ws/hit/x") (1, 6)%Z
                  LocalFile] in
  let items := [mkItem (str "hit/x") 0 (str "hit/x") 0; mkItem (str "ok/a") 6 (str "ok/a") 6] in
  detectStart d tt 0%Z 0%Z p = Some (r.1.1, r.1.2, r.2) ∧
  scan (_os d) (getXtermLineContent (xterm d) 0%Z 0%Z) = Some items ∧
  runsTo keepsCache r.1.2 r.2 (Fulfilled links) [str "ok/a"] e.2 ∧
  Forall (fun l => ∃ it ls, it ∈ items ∧
            cachedValidatedLinks e.2 !! itemLink it = Some (Some ls) ∧
            l = mkLink (vl_link ls) (vl_uri ls) (rangeOf d tt 0%Z it) (type l) ∧
            (type l = LocalFile ↔ vl_isDirectory ls = false)) links.
Proof.
  set (d := detectorOn (str "hit/x ok/a") [str "ok/a"] []).
  set (p := processWith {[ str "hit/x" := Some (fileAt (str "hit/x")) ]}).
  set (r := startResult d p).
  set (envs := [otherSets (str "z/z") None; clock 2000]).
  set (e := runResult envs r). cbv zeta.
  assert (detectStart d tt 0%Z 0%Z p = Some (r.1.1, r.1.2, r.2)) as Hfirst
    by (vm_compute; reflexivity).
  assert (scan (_os d) (getXtermLineContent (xterm d) 0%Z 0%Z) =
          Some [mkItem (str "hit/x") 0 (str "hit/x") 0;
                mkItem (str "ok/a") 6 (str "ok/a") 6]) as Hscan
    by (vm_compute; reflexivity).
  assert (runsTo keepsCache r.1.2 r.2
            (Fulfilled [@mkLink exampleHost (str "/ws/hit/x") (str "file:///ws/hit/x")
                          (1, 6)%Z LocalFile]) [str "ok/a"] e.2) as Hrun.
  { apply (resumeWith_runs keepsCache envs); [|vm_compute; reflexivity].
    apply relied_cons; [apply keepsCache_sets; vm_compute; reflexivity|].
    apply relied_cons; [apply keepsCache_same; vm_compute; reflexivity|].
    apply relied_nil. }
  split; [exact Hfirst|]. split; [exact Hscan|]. split; [exact Hrun|].
  exact (links_from_cache (H := exampleHost) d tt 0%Z 0%Z p _ _ _ _ _ _ _
           Hfirst Hscan Hrun).
Defined.

(** X11.  [detect] rejects only with a rejection of the resolver: when
    the returned promise is rejected, the last string the resolver was
    asked for in this pass is one for which it rejected, with the same
    reason. *)
Theorem rejection_from_resolver `{H : Host} d lines startLine endLine p d1 e p1 :
  detect d lines startLine endLine p = Some (d1, Rejected e, p1) →
  ∃ pre c w,
    resolverLog p1 = resolverLog p ++ pre ++ [c] ∧
    _resolvePath d c w = (Rejected e, world p1).
Proof.
  intros Hr.
  destruct (scan_total (_os d) (getXtermLineContent (xterm d) startLine endLine))
    as [items Hscan].
  destruct (detect_summary _ _ _ _ _ _ _ Hr Hscan)
    as (asked & Hlog & _ & _ & _ & _ & _ & Hrej).
  destruct (Hrej e eq_refl) as (pre & c & w & -> & Hres).
  by exists pre, c, w.
Qed.

(** [ok/a bad/b], the resolver rejecting on [bad/b]. *)
Lemma rejection_from_resolver_witness :
  let d := detectorOn (str "ok/a bad/b") [str "ok/a"] [str "bad/b"] in
  let r := passResult d (processWith ∅) in
  detect d tt 0%Z 0%Z (processWith ∅) = Some (r.1.1, Rejected (str "EIO"), r.2) ∧
  ∃ pre c w,
    resolverLog r.2 = resolverLog (processWith ∅) ++ pre ++ [c] ∧
    _resolvePath d c w = (Rejected (str "EIO"), world r.2).
Proof.
  assert (detect (detectorOn (str "ok/a bad/b") [str "ok/a"] [str "bad/b"]) tt 0%Z 0%Z
            (processWith ∅) =
          Some ((passResult (detectorOn (str "ok/a bad/b") [str "ok/a"] [str "bad/b"])
                   (processWith ∅)).1.1,
                Rejected (str "EIO"),
                (passResult (detectorOn (str "ok/a bad/b") [str "ok/a"] [str "bad/b"])
                   (processWith ∅)).2)) as Hr by (vm_compute; reflexivity).
  split; [exact Hr|].
  exact (rejection_from_resolver (H := exampleHost) _ tt 0%Z 0%Z _ _ _ _ Hr).
Defined.

(** ** The type of a link *)

Section LinkType.
Context `{H : Host}.

Lemma inside_workspace_spec u p :
  _isDirectoryInsideWorkspace u p = true ↔
  ∃ folder, folder ∈ workspaceFolders (world p) ∧ isEqualOrParent u folder = true.
Proof.
  unfold _isDirectoryInsideWorkspace. rewrite existsb_exists.
  split; intros (folder & Hf & ?); exists folder; (split; [by apply list_elem_of_In|done]).
Qed.

Lemma linkType_spec ls p :
  (linkType ls p = LocalFile ↔ vl_isDirectory ls = false) ∧
  (linkType ls p = LocalFolderInWorkspace ↔
     vl_isDirectory ls = true ∧
     ∃ folder, folder ∈ workspaceFolders (world p) ∧
               isEqualOrParent (vl_uri ls) folder = true) ∧
  (linkType ls p = LocalFolderOutsideWorkspace ↔
     vl_isDirectory ls = true ∧
     ∀ folder, folder ∈ workspaceFolders (world p) →
               isEqualOrParent (vl_uri ls) folder = false).
Proof.
  split; [apply linkType_file|].
  pose proof (inside_workspace_spec (vl_uri ls) p) as Hin.
  unfold linkType. destruct (vl_isDirectory ls).
  2:{ split; split; (done || by intros [? _]). }
  destruct (_isDirectoryInsideWorkspace (vl_uri ls) p).
  - split; [split; [intros _; split; [done|by apply Hin]|done]|].
    split; [done|]. intros [_ Hall]. destruct (proj1 Hin eq_refl) as (folder & Hf & Hp).
    by rewrite Hall in Hp.
  - split; [split; [done|intros [_ Hex]; apply Hin in Hex; done]|].
    split; [|done]. intros _. split; [done|]. intros folder Hf.
    destruct (isEqualOrParent (vl_uri ls) folder) eqn:Hp; [|done].
    assert (false = true) as Habs by (apply Hin; eauto). done.
Qed.

End LinkType.

(** X12.  On a platform with the POSIX grammar, a pass over a line that
    is one path of the grammar, cached as a validated link, returns
    exactly one link without asking the resolver: its text and URI are
    those of the cached entry, its range runs from column 1 to the
    column after the last character, and its type is [LocalFile] when
    the entry is not a directory, [LocalFolderInWorkspace] when it is a
    directory and some workspace folder is equal to or a parent of its
    URI, and [LocalFolderOutsideWorkspace] when it is a directory and no
    workspace folder is. *)
Theorem cached_path_link `{H : Host} d lines startLine endLine p ls :
  _os d ≠ Windows →
  unix_path (getXtermLineContent (xterm d) startLine endLine) →
  length (getXtermLineContent (xterm d) startLine endLine) ≤ 2000 →
  cachedValidatedLinks p !! getXtermLineContent (xterm d) startLine endLine = Some (Some ls) →
  ∃ ty,
    detect d lines startLine endLine p =
      Some ((resetCacheTimeout d (window p)).1,
            Fulfilled
              [mkLink (vl_link ls) (vl_uri ls)
                 (convertLinkRangeToBuffer lines (xterm d)
                    (1%Z,
                     (Z.of_nat (length (getXtermLineContent (xterm d) startLine endLine)) + 1)%Z)
                    startLine)
                 ty],
            afterReset d p) ∧
    resolverLog (afterReset d p) = resolverLog p ∧
    (ty = LocalFile ↔ vl_isDirectory ls = false) ∧
    (ty = LocalFolderInWorkspace ↔
       vl_isDirectory ls = true ∧
       ∃ folder, folder ∈ workspaceFolders (world p) ∧
                 isEqualOrParent (vl_uri ls) folder = true) ∧
    (ty = LocalFolderOutsideWorkspace ↔
       vl_isDirectory ls = true ∧
       ∀ folder, folder ∈ workspaceFolders (world p) →
                 isEqualOrParent (vl_uri ls) folder = false).
Proof.
  intros Hos Hpath Hle Hc. exists (linkType ls p).
  split; [|split; [done|apply linkType_spec]].
  set (text := getXtermLineContent (xterm d) startLine endLine) in *.
  assert (scan (_os d) text = Some [mkItem text 0 text 0]) as Hscan.
  { rewrite <-(scan_unix_path text Hpath). by destruct (_os d). }
  assert (text ≠ []) as Hne.
  { destruct (unix_path_chars text Hpath) as (_ & j & _ & Hlt). intros Hnil.
    rewrite Hnil in Hlt. simpl in Hlt. lia. }
  rewrite (detect_warm d lines startLine endLine p [mkItem text 0 text 0]); [|done..|].
  - rewrite bind_singleton. unfold linkFromCache, rangeOf. cbn [itemLink itemIndex].
    rewrite Hc. done.
  - intros it ->%list_elem_of_singleton. cbn [itemLink]. by rewrite Hc.
Qed.

(** The line [/ws/src] cached as a folder: the workspace folder [/ws] is
    a parent of it, the link is a folder in the workspace. *)
Lemma cached_path_link_witness :
  let d := detectorOn (str "/ws/src") [] [] in
  let p := processWith {[ str "/ws/src" := Some (folderAt (str "/ws/src")) ]} in
  unix_path (str "/ws/src") ∧
  (fun r => r.1.2) <$> detect d tt 0%Z 0%Z p =
    Some (Fulfilled [@mkLink exampleHost (str "/ws/src") (str "/ws/src") (1, 8)%Z
                       LocalFolderInWorkspace]) ∧
  ∃ ty,
    detect d tt 0%Z 0%Z p =
      Some ((resetCacheTimeout d (window p)).1,
            Fulfilled
              [@mkLink exampleHost (vl_link (folderAt (str "/ws/src")))
                 (vl_uri (folderAt (str "/ws/src")))
                 (@convertLinkRangeToBuffer exampleHost tt (xterm d)
                    (1%Z, (Z.of_nat (length (@getXtermLineContent exampleHost (xterm d) 0%Z 0%Z)) + 1)%Z)
                    0%Z)
                 ty],
            afterReset d p) ∧
    resolverLog (afterReset d p) = resolverLog p ∧
    (ty = LocalFile ↔ vl_isDirectory (folderAt (str "/ws/src")) = false) ∧
    (ty = LocalFolderInWorkspace ↔
       vl_isDirectory (folderAt (str "/ws/src")) = true ∧
       ∃ folder, folder ∈ @workspaceFolders exampleHost (world p) ∧
                 @isEqualOrParent exampleHost (vl_uri (folderAt (str "/ws/src"))) folder = true) ∧
    (ty = LocalFolderOutsideWorkspace ↔
       vl_isDirectory (folderAt (str "/ws/src")) = true ∧
       ∀ folder, folder ∈ @workspaceFolders exampleHost (world p) →
                 @isEqualOrParent exampleHost (vl_uri (folderAt (str "/ws/src"))) folder = false).
Proof.
  assert (unix_path (str "/ws/src")) as Hp.
  { exists [], [str "ws"; str "src"]. split_and!; [reflexivity|by left|discriminate|].
    repeat constructor; try discriminate; apply body_class; vm_compute; reflexivity. }
  split; [exact Hp|]. split; [vm_compute; reflexivity|].
  apply (cached_path_link (H := exampleHost) (detectorOn (str "/ws/src") [] []) tt 0%Z 0%Z
           (processWith {[ str "/ws/src" := Some (folderAt (str "/ws/src")) ]})
           (folderAt (str "/ws/src"))).
  - discriminate.
  - exact Hp.
  - vm_compute. lia.
  - vm_compute. reflexivity.
Defined.

(** ** The time to live of the cache *)

(** X13.  The time to live of the cache is counted from the start of a
    pass, not from its end.  A [detect] call with caching enabled arms
    its timer for 10 s after the call begins, before its first await.
    When the only timer armed before was the one the detector holds and
    nothing but time passes at the awaits of the pass: if the pass ends
    before that time, the timer is the one armed timer, the cache has
    lost no entry it had when the pass began, and the cache is emptied
    once the clock reaches that time, less than 10 s after the end of the
    pass; if the pass ends at that time or later, no timer is armed at
    its end, and what it left in the cache is not cleared by the passing
    of time. *)
Theorem cache_time_to_live `{H : Host} d lines startLine endLine p d1 t p1 c asked p' :
  _enableCaching d = true →
  (∀ h t', pending (window p) !! h = Some t' → h = _cacheTilTimeout d ∧ h ≠ 0) →
  detectStart d lines startLine endLine p = Some (d1, t, p1) →
  runsTo timePasses t p1 c asked p' →
  now (window p1) = now (window p) ∧
  pending (window p1) = {[ nextHandle (window p) := (now (window p) + 10000)%N ]} ∧
  ((now (window p') < now (window p) + 10000)%N →
   pending (window p') = {[ nextHandle (window p) := (now (window p) + 10000)%N ]} ∧
   cachedValidatedLinks p ⊆ cachedValidatedLinks p' ∧
   ∀ dt, (now (window p) + 10000 ≤ now (window p') + dt)%N →
     cachedValidatedLinks (elapse dt p') = ∅) ∧
  ((now (window p) + 10000 ≤ now (window p'))%N →
   pending (window p') = ∅ ∧
   ∀ dt, cachedValidatedLinks (elapse dt p') = cachedValidatedLinks p').
Proof.
  intros He Hown Hr Hrun.
  destruct (detectStart_timers _ _ _ _ _ _ Hr) as (_ & Hw & Hc & _). cbn [fst snd] in Hw, Hc.
  destruct (resetCacheTimeout_enabled d (window p) He) as (_ & _ & Hnow & Hpend).
  rewrite <-Hw in Hnow, Hpend.
  assert (pending (window p1) = {[ nextHandle (window p) := (now (window p) + 10000)%N ]})
    as Hone.
  { rewrite Hpend, <-insert_empty. f_equal. apply map_empty. intros h.
    destruct (Nat.eqb_spec (_cacheTilTimeout d) 0) as [Hz|Hz].
    - destruct (pending (window p) !! h) as [t'|] eqn:Hh; [|done].
      destruct (Hown h t' Hh) as [-> ?]. done.
    - destruct (decide (h = _cacheTilTimeout d)) as [->|Hne]; [apply lookup_delete_eq|].
      rewrite lookup_delete_ne by done.
      destruct (pending (window p) !! h) as [t'|] eqn:Hh; [|done].
      destruct (Hown h t' Hh) as [-> ?]. done. }
  assert (((now (window p') < now (window p) + 10000)%N ∧
           pending (window p') = {[ nextHandle (window p) := (now (window p) + 10000)%N ]} ∧
           cachedValidatedLinks p ⊆ cachedValidatedLinks p') ∨
          ((now (window p) + 10000 ≤ now (window p'))%N ∧ pending (window p') = ∅)) as Hend.
  { destruct (detectStart_cases d lines startLine endLine p) as (items & _ & Hcases).
    destruct Hcases as [[_ Hd]|(_ & _ & Hd)]; rewrite Hd in Hr; injection Hr as _ <- <-.
    - apply runsTo_finished in Hrun as (_ & _ & ->). left.
      split_and!; [rewrite Hnow; lia|done|done].
    - eapply run_ttl; [|exact Hrun]. left. unfold afterReset at 1 2 3.
      cbn [window cachedValidatedLinks]. rewrite <-Hw.
      split_and!; [rewrite Hnow; lia|done|done]. }
  split_and!; [done|done| |].
  - intros Hlt. destruct Hend as [(_ & Hp' & Hsub)|[? _]]; [|lia].
    split_and!; [done..|]. intros dt Hdt.
    eapply (elapse_clears _ _ (nextHandle (window p))); [|exact Hdt].
    rewrite Hp'. apply lookup_singleton_eq.
  - intros Hle. destruct Hend as [(? & _)|[_ Hp']]; [lia|].
    split; [done|]. intros dt. apply elapse_keeps. intros h t'. by rewrite Hp'.
Qed.

(** A pass over [a/b] begun at time 0 whose resolver answers after
    10 s: the timer fires while the pass is suspended, on an empty cache;
    the pass then caches [a/b] with no timer armed. *)
Lemma cache_time_to_live_witness :
  let d := detectorOn (str "a/b") [str "a/b"] [] in
  let p := processWith ∅ in
  let r := startResult d p in
  let envs := [clock 10000; clock 0] in
  let e := runResult envs r in
  cachedValidatedLinks (clock 10000 r.2) = ∅ ∧
  cachedValidatedLinks e.2 = {[ str "a/b" := Some (fileAt (str "a/b")) ]} ∧
  now (window e.2) = 10000%N ∧
  _enableCaching d = true ∧
  (∀ h t', pending (window p) !! h = Some t' → h = _cacheTilTimeout d ∧ h ≠ 0) ∧
  detectStart d tt 0%Z 0%Z p = Some (r.1.1, r.1.2, r.2) ∧
  runsTo timePasses r.1.2 r.2 (Fulfilled []) [str "a/b"] e.2 ∧
  (now (window r.2) = now (window p) ∧
   pending (window r.2) = {[ nextHandle (window p) := (now (window p) + 10000)%N ]} ∧
   ((now (window e.2) < now (window p) + 10000)%N →
    pending (window e.2) = {[ nextHandle (window p) := (now (window p) + 10000)%N ]} ∧
    cachedValidatedLinks p ⊆ cachedValidatedLinks e.2 ∧
    ∀ dt, (now (window p) + 10000 ≤ now (window e.2) + dt)%N →
      cachedValidatedLinks (elapse dt e.2) = ∅) ∧
   ((now (window p) + 10000 ≤ now (window e.2))%N →
    pending (window e.2) = ∅ ∧
    ∀ dt, cachedValidatedLinks (elapse dt e.2) = cachedValidatedLinks e.2)).
Proof.
  set (d := detectorOn (str "a/b") [str "a/b"] []).
  set (p := processWith ∅).
  set (r := startResult d p).
  set (envs := [clock 10000; clock 0]).
  set (e := runResult envs r). cbv zeta.
  assert (∀ h t', pending (window p) !! h = Some t' → h = _cacheTilTimeout d ∧ h ≠ 0)
    as Hown.
  { intros h t' Hl. vm_compute in Hl. discriminate. }
  assert (detectStart d tt 0%Z 0%Z p = Some (r.1.1, r.1.2, r.2)) as Hfirst
    by (vm_compute; reflexivity).
  assert (runsTo timePasses r.1.2 r.2 (Fulfilled []) [str "a/b"] e.2) as Hrun.
  { apply (resumeWith_runs timePasses envs); [|vm_compute; reflexivity].
    apply relied_cons; [by eexists|].
    apply relied_cons; [by eexists|].
    apply relied_nil. }
  split; [vm_compute; reflexivity|]. split; [vm_compute; reflexivity|].
  split; [vm_compute; reflexivity|]. split; [reflexivity|]. split; [exact Hown|].
  split; [exact Hfirst|]. split; [exact Hrun|].
  exact (cache_time_to_live (H := exampleHost) d tt 0%Z 0%Z p _ _ _ _ _ _
           eq_refl Hown Hfirst Hrun).
Defined.

(** ** The fallback candidate *)

Lemma stripParentTraversal_props s :
  stripParentTraversal s `suffix_of` s ∧
  beginsWithParentTraversal (stripParentTraversal s) = false ∧
  (beginsWithParentTraversal s = true → length (stripParentTraversal s) + 3 ≤ length s).
Proof.
  remember (length s) as n eqn:Hn. revert s Hn.
  induction n as [n IH] using lt_wf_ind. intros s ->.
  destruct s as [|a [|b [|c rest]]]; try done.
  cbn [stripParentTraversal beginsWithParentTraversal].
  destruct (isParentSegment [a; b; c]) eqn:Hseg.
  - destruct (IH (length rest) ltac:(simpl; lia) rest eq_refl) as (Hsuf & Hbeg & _).
    split_and!; [by do 3 apply suffix_cons_r|done|].
    intros _. apply suffix_length in Hsuf. simpl. lia.
  - cbn [beginsWithParentTraversal]. by rewrite Hseg.
Qed.

(** X14.  The candidates of a text are the text alone, or the text and
    one fallback; the fallback is a proper suffix of the text, at least
    three characters shorter, and has no fallback of its own: stripping
    the parent traversal is done once and for all. *)
Theorem fallback_candidate link :
  linkCandidates link = [link] ∨
  ∃ c, linkCandidates link = [link; c] ∧
       c `suffix_of` link ∧ length c + 3 ≤ length link ∧ linkCandidates c = [c].
Proof.
  rewrite linkCandidates_spec.
  destruct (beginsWithParentTraversal link) eqn:Hb; [right|by left].
  destruct (stripParentTraversal_props link) as (Hsuf & Hbeg & Hlen).
  exists (stripParentTraversal link). split_and!; [done|done|by apply Hlen|].
  by rewrite linkCandidates_spec, Hbeg.
Qed.

(** ** The Windows path grammar *)

Lemma win_shape :
  _localLinkRegex Windows =
  RegExp.r_seq
    (RegExp.r_group (RegExp.r_seq (RegExp.r_quant RegExp.q_opt winHead) winTail))
    (suffixOf (_localLinkRegex Windows)).
Proof. vm_compute. reflexivity. Qed.

Lemma win_consumes : RegExp.must RegExp.is_atom (_localLinkRegex Windows) = true.
Proof. vm_compute. reflexivity. Qed.

(** The class of the pattern is the body character of [is_win_body]. *)
Lemma win_body_class c :
  RegExp.class_matches true winExcludedPathCharacters c = true ↔ is_win_body c.
Proof.
  unfold RegExp.class_matches, winExcludedPathCharacters, is_win_body, winExcluded.
  cbn [existsb RegExp.item_matches RegExp.escape_matches].
  rewrite existsb_app. cbn [existsb RegExp.item_matches RegExp.escape_matches].
  rewrite !existsb_ci_char.
  destruct (N.eqb_spec c 0) as [->|Hc]; cbn [orb xorb negb].
  { split; [done|]. by intros [? _]. }
  destruct (RegExp.isWhiteSpace c); cbn [orb xorb negb].
  { rewrite orb_true_r. split; [done|]. by intros (_ & ? & _). }
  change (str "<>?|/!`&*()[]'" ++ [dquote] ++ str ":;")
    with (str "<>?|/" ++ (str "!`&*()[]'" ++ [dquote] ++ str ":;")).
  do 2 case_bool_decide; cbn [orb]; split; try done.
  - intros (_ & _ & Hn). destruct Hn. apply elem_of_app. by left.
  - intros (_ & _ & Hn). destruct Hn. apply elem_of_app. by left.
  - intros (_ & _ & Hn). destruct Hn. apply elem_of_app. by right.
  - intros _. split_and!; [done..|]. by intros [?|?]%elem_of_app.
Qed.

Section WinPath.
Import RegExp RegExpFacts.

Variable p : jsstring.

Local Abbreviation winBodyChar := (class_matches true winExcludedPathCharacters).

(** [(\\|\/)]: one separator. *)
Lemma winSeparator_step pI c x :
  m p winSeparator pI c x =
  match p !! endIndex x with
  | Some ch =>
      if isSeparator Windows ch
      then c (mkState (S (endIndex x))
                (<[S pI := Some (endIndex x, S (endIndex x))]> (captures x)))
      else None
  | None => None
  end.
Proof.
  unfold winSeparator. rewrite m_group, m_alt, !m_char.
  destruct (p !! endIndex x) as [ch|]; [|done]. cbn [isSeparator endIndex captures].
  rewrite (N.eqb_sym ch 92), (N.eqb_sym ch 47).
  destruct (92 =? ch)%N; cbn [orb].
  - destruct (c _); [done|]. by destruct (47 =? ch)%N.
  - by destruct (47 =? ch)%N.
Qed.

Lemma winTail_fail pI c x :
  endIndex x ≤ length p →
  ¬ (∃ ch, p !! endIndex x = Some ch ∧ isSeparator Windows ch = true ∧
           S (endIndex x) < length p) →
  m p winTail pI c x = None.
Proof.
  intros Hx Hno. unfold winTail. rewrite m_plus by done.
  rewrite m_group, m_seq, winSeparator_step. cbn [reset endIndex captures].
  destruct (p !! endIndex x) as [ch|] eqn:Hl; [|done].
  destruct (isSeparator Windows ch) eqn:Hs; [|done].
  apply m_at_end; [done|]. cbn [endIndex].
  apply lookup_lt_Some in Hl. destruct (decide (S (endIndex x) < length p)); [|lia].
  destruct Hno. eauto.
Qed.

Lemma winTail_ok pI c x ch :
  good_at_end p c →
  p !! endIndex x = Some ch → isSeparator Windows ch = true →
  S (endIndex x) < length p →
  (∀ j ch', S (endIndex x) ≤ j → p !! j = Some ch' → winBodyChar ch' = true) →
  ∃ z, m p winTail pI c x = Some z ∧ length p ≤ endIndex z.
Proof.
  intros Hc Hl Hs Hlt Hbody. unfold winTail. rewrite m_plus by lia.
  rewrite m_group, m_seq, winSeparator_step. cbn [reset endIndex captures].
  rewrite Hl, Hs.
  apply (class_plus_greedy p winBody winBodyChar); [done|cbn [endIndex]; lia| |].
  { intros j ch' Hj. apply Hbody. cbn [endIndex] in Hj. lia. }
  intros y Hy. cbv beta. rewrite m_star by (cbn [endIndex]; lia).
  rewrite m_at_end; [|done|cbn [reset endIndex]; lia].
  apply Hc. done.
Qed.

Lemma winTail_cases pI c x :
  good_at_end p c → endIndex x ≤ length p →
  (∀ j ch', S (endIndex x) ≤ j → p !! j = Some ch' → winBodyChar ch' = true) →
  m p winTail pI c x = None ∨
  ∃ z, m p winTail pI c x = Some z ∧ length p ≤ endIndex z.
Proof.
  intros Hc Hx Hbody.
  destruct (p !! endIndex x) as [ch|] eqn:Hl.
  2:{ left. apply winTail_fail; [done|]. intros (ch & Hl' & _). congruence. }
  destruct (isSeparator Windows ch) eqn:Hs.
  2:{ left. apply winTail_fail; [done|]. intros (ch' & Hl' & Hs' & _). congruence. }
  destruct (decide (S (endIndex x) < length p)) as [Hlt|Hge].
  - right. by eapply winTail_ok.
  - left. apply winTail_fail; [done|]. intros (ch' & _ & _ & Hlt). done.
Qed.

(** [(head)?tail] on body characters: every success ends at the end of
    the line, and there is one when a backslash with something after it
    can be reached. *)
Lemma winPath_cases pI c x :
  good_at_end p c → endIndex x ≤ length p →
  (∀ j ch', endIndex x ≤ j → p !! j = Some ch' → winBodyChar ch' = true) →
  m p (r_seq (r_quant q_opt winHead) winTail) pI c x = None ∨
  ∃ z, m p (r_seq (r_quant q_opt winHead) winTail) pI c x = Some z
       ∧ length p ≤ endIndex z.
Proof.
  intros Hc Hx Hbody. rewrite m_seq, m_opt by done.
  destruct (m p winHead _ _ _) as [z|] eqn:Hz.
  - right. exists z. split; [done|].
    apply m_forward in Hz as (y & Hy1 & Hy2 & Hz).
    cbn [reset endIndex] in *.
    destruct (endIndex y =? endIndex x); [done|].
    destruct (winTail_cases (pI + ngroups (r_quant q_opt winHead)) c y Hc)
      as [Hn|(z' & Hz' & ?)]; [auto| |congruence|congruence].
    intros j ch' Hj. apply Hbody. lia.
  - apply winTail_cases; [done..|]. intros j ch' Hj. apply Hbody. lia.
Qed.

Lemma winPath_found pI c x j :
  good_at_end p c → endIndex x ≤ j →
  p !! j = Some 92%N → S j < length p →
  (∀ i ch', endIndex x ≤ i → p !! i = Some ch' → winBodyChar ch' = true) →
  is_Some (m p (r_seq (r_quant q_opt winHead) winTail) pI c x).
Proof.
  intros Hc Hx Hl Hlt Hbody. rewrite m_seq, m_opt by lia.
  destruct (m p winHead _ _ _) as [z|] eqn:Hz; [done|].
  destruct (decide (endIndex x = j)) as [Heq|Hne].
  { subst j.
    destruct (winTail_ok (pI + ngroups (r_quant q_opt winHead)) c x 92%N Hc Hl eq_refl Hlt)
      as (z & -> & _); [|done].
    intros i ch' Hi. apply Hbody. lia. }
  exfalso. revert Hz. unfold winHead at 1. rewrite m_group, m_alt.
  destruct (m p winPrefix _ _ _); [done|].
  intros Hz.
  eassert (is_Some (m p (r_quant q_plus (r_group winBody)) _ _ _)) as [z Hz'];
    [|rewrite Hz in Hz'; done].
  apply (class_plus_reach p winBody winBodyChar eq_refl _ _ _ j);
    cbn [reset endIndex]; [lia|lia| |].
  { intros i ch' Hi. apply Hbody. lia. }
  intros y Hy. cbv beta. cbn [endIndex].
  rewrite (proj2 (Nat.eqb_neq _ _)) by lia.
  destruct (winTail_ok (pI + ngroups (r_quant q_opt winHead)) c
              (mkState (endIndex y)
                 (<[S pI := Some (endIndex x, endIndex y)]> (captures y))) 92%N Hc)
    as (z & -> & _); cbn [endIndex]; [by rewrite Hy|done|lia| |done].
  intros i ch' Hi. apply Hbody. lia.
Qed.

(** The drive: a letter and a colon, or [\\?\], a letter and a colon. *)
Lemma letter_class ch :
  class_matches false [ci_range 97 122; ci_range 65 90] ch = isDriveLetter ch.
Proof.
  unfold class_matches, isDriveLetter. cbn [existsb item_matches xorb].
  by rewrite orb_false_r.
Qed.

Lemma letterColon_step pI c x letter :
  p !! endIndex x = Some letter → isDriveLetter letter = true →
  p !! S (endIndex x) = Some 58%N →
  m p (r_seq (r_class false [ci_range 97 122; ci_range 65 90]) (r_char 58)) pI c x =
  c (mkState (S (S (endIndex x))) (captures x)).
Proof.
  intros Hl Hletter Hcolon. rewrite m_seq. cbn [m]. unfold CharacterSetMatcher.
  cbn [endIndex captures]. by rewrite Hl, letter_class, Hletter, Hcolon.
Qed.

Lemma letterColon_fail pI c x ch :
  p !! endIndex x = Some ch → isDriveLetter ch = false →
  m p (r_seq (r_class false [ci_range 97 122; ci_range 65 90]) (r_char 58)) pI c x = None.
Proof.
  intros Hl Hletter. rewrite m_seq. cbn [m]. unfold CharacterSetMatcher at 1.
  by rewrite Hl, letter_class, Hletter.
Qed.

Lemma longPrefix_step pI (c : Continuation) x :
  p !! endIndex x = Some 92%N → p !! S (endIndex x) = Some 92%N →
  p !! S (S (endIndex x)) = Some 63%N → p !! S (S (S (endIndex x))) = Some 92%N →
  m p (r_ngroup
         (r_seq (r_char 92) (r_seq (r_char 92) (r_seq (r_char 63) (r_char 92))))) pI c x =
  c (mkState (S (S (S (S (endIndex x))))) (captures x)).
Proof.
  intros H0 H1 H2 H3. cbn [m]. unfold CharacterSetMatcher. cbn [endIndex captures].
  by rewrite H0, H1, H2, H3.
Qed.

Lemma longPrefix_fail pI (c : Continuation) x ch :
  p !! endIndex x = Some ch → ch ≠ 92%N →
  m p (r_ngroup
         (r_seq (r_char 92) (r_seq (r_char 92) (r_seq (r_char 63) (r_char 92))))) pI c x =
  None.
Proof.
  intros H0 Hne. cbn [m]. unfold CharacterSetMatcher at 1. rewrite H0.
  by rewrite (proj2 (N.eqb_neq _ _)) by done.
Qed.

Lemma winDrive_letter pI c x letter :
  endIndex x ≤ length p →
  p !! endIndex x = Some letter → isDriveLetter letter = true →
  p !! S (endIndex x) = Some 58%N →
  m p winDrive pI c x = c (mkState (S (S (endIndex x))) (captures x)).
Proof.
  intros Hx Hl Hletter Hcolon. unfold winDrive. rewrite m_seq, m_opt by done.
  rewrite (longPrefix_fail _ _ _ letter); [| |intros ->; vm_compute in Hletter; done].
  - by apply (letterColon_step _ _ _ letter).
  - done.
Qed.

Lemma winDrive_long pI c x letter :
  endIndex x ≤ length p →
  p !! endIndex x = Some 92%N → p !! S (endIndex x) = Some 92%N →
  p !! S (S (endIndex x)) = Some 63%N → p !! S (S (S (endIndex x))) = Some 92%N →
  p !! S (S (S (S (endIndex x)))) = Some letter → isDriveLetter letter = true →
  p !! S (S (S (S (S (endIndex x))))) = Some 58%N →
  m p winDrive pI c x = c (mkState (S (S (S (S (S (S (endIndex x))))))) (captures x)).
Proof.
  intros Hx H0 H1 H2 H3 H4 Hletter H5. unfold winDrive. rewrite m_seq, m_opt by done.
  rewrite longPrefix_step by done. cbv beta. cbn [endIndex reset captures ngroups].
  rewrite (proj2 (Nat.eqb_neq _ _)) by lia.
  rewrite (letterColon_step _ _ (mkState _ _) letter) by done. cbn [endIndex captures].
  rewrite (letterColon_fail _ _ x 92%N) by done.
  change (clear_captures pI 0 (captures x)) with (captures x).
  by destruct (c _).
Qed.

(** From [(head)?tail] to the whole pattern at index 0. *)
Lemma win_match_whole_of :
  (∀ K caps, good_at_end p K →
     ∃ z, m p (r_seq (r_quant q_opt winHead) winTail) 1 K (mkState 0 caps) = Some z
          ∧ length p ≤ endIndex z) →
  ∃ r, match_at p (_localLinkRegex Windows) 0 = Some r ∧
       index r = 0 ∧ length p ≤ endIndex (final r).
Proof.
  intros Hpath. unfold match_at.
  generalize (replicate (S (ngroups (_localLinkRegex Windows))) (@None (nat * nat))).
  intros caps. rewrite win_shape.
  set (x0 := mkState 0 caps). rewrite m_seq, m_group.
  set (K := fun y : MatchState => m p (suffixOf (_localLinkRegex Windows)) _ Some _).
  assert (good_at_end p K) as HK.
  { intros y Hy. unfold K.
    destruct (m_nullable p (suffixOf (_localLinkRegex Windows))
                (0 + ngroups (r_group (r_seq (r_quant q_opt winHead) winTail))) Some
                (mkState (endIndex y) (<[1 := Some (endIndex x0, endIndex y)]> (captures y))))
      as [z Hz]; [apply suffix_nullable|done|].
    exists z. split; [done|].
    apply m_forward in Hz as (y' & Hy' & _ & [= <-]). cbn [endIndex] in Hy'. lia. }
  destruct (Hpath K caps HK) as (z & Hz & Hle). unfold x0. rewrite Hz. simpl. eauto.
Qed.

(** A line of body characters with a backslash that is not the last
    character. *)
Lemma win_match_plain j :
  (∀ i ch, p !! i = Some ch → winBodyChar ch = true) →
  p !! j = Some 92%N → S j < length p →
  ∃ r, match_at p (_localLinkRegex Windows) 0 = Some r ∧
       index r = 0 ∧ length p ≤ endIndex (final r).
Proof.
  intros Hbody Hl Hlt. apply win_match_whole_of. intros K caps HK.
  destruct (winPath_found 1 K (mkState 0 caps) j HK) as [z Hz];
    [simpl; lia|done|done|intros i ch _; apply Hbody|].
  destruct (winPath_cases 1 K (mkState 0 caps) HK) as [Hn|(z' & Hz' & Hle)];
    [simpl; lia|intros i ch _; apply Hbody|congruence|].
  eauto.
Qed.

(** A line that begins with a drive, at whose end [k] there is a
    backslash followed by body characters. *)
Lemma win_match_drive k :
  (∀ c (x : MatchState) pI, endIndex x = 0 →
     m p winDrive pI c x = c (mkState k (captures x))) →
  0 < k → p !! k = Some 92%N → S k < length p →
  (∀ i ch, S k ≤ i → p !! i = Some ch → winBodyChar ch = true) →
  ∃ r, match_at p (_localLinkRegex Windows) 0 = Some r ∧
       index r = 0 ∧ length p ≤ endIndex (final r).
Proof.
  intros Hdrive Hk Hl Hlt Hbody. apply win_match_whole_of. intros K caps HK.
  rewrite m_seq, m_opt by (simpl; lia).
  unfold winHead at 1. rewrite m_group, m_alt.
  unfold winPrefix at 1. rewrite m_group, m_alt.
  rewrite Hdrive by done. cbv beta. cbn [endIndex captures reset].
  rewrite (proj2 (Nat.eqb_neq k 0)) by lia.
  match goal with
  | |- context [m p winTail ?pI K ?x] =>
      destruct (winTail_ok pI K x 92%N HK) as (z & -> & Hle)
  end; [done|done|cbn [endIndex]; lia|intros i ch Hi; apply Hbody; exact Hi|].
  eauto.
Qed.

End WinPath.

Lemma win_path_nonempty p : win_path p → 2 ≤ length p.
Proof.
  intros (drive & rest & -> & _ & _ & j & Hj & Hlt). rewrite length_app. lia.
Qed.

(** A Windows path is matched whole at index 0. *)
Lemma win_match_whole p :
  win_path p →
  ∃ r, RegExp.match_at p (_localLinkRegex Windows) 0 = Some r ∧
       RegExp.index r = 0 ∧ length p ≤ RegExp.endIndex (RegExp.final r).
Proof.
  intros (drive & rest & -> & Hdrive & Hbody & j & Hj & Hlt).
  assert (∀ i ch, rest !! i = Some ch →
            RegExp.class_matches true winExcludedPathCharacters ch = true) as Hrest.
  { intros i ch Hi. apply win_body_class.
    by apply (Forall_lookup_1 _ _ _ _ Hbody) in Hi. }
  destruct Hdrive as [->|[(letter & Hletter & [->| ->]) Hhead]].
  - by apply (win_match_plain rest j).
  - destruct rest as [|ch rest']; [done|]. injection Hhead as ->.
    apply (win_match_drive _ 2); [|lia|done|simpl in *; lia|].
    + intros c x pI Hx. rewrite (winDrive_letter _ _ _ _ letter); rewrite ?Hx; try done.
      simpl; lia.
    + intros i ch Hi Hl. apply (Hrest (i - 2)).
      rewrite <-Hl. destruct i as [|[|i]]; [lia..|]. simpl. by rewrite Nat.sub_0_r.
  - destruct rest as [|ch rest']; [done|]. injection Hhead as ->.
    apply (win_match_drive _ 6); [|lia|done|simpl in *; lia|].
    + intros c x pI Hx. rewrite (winDrive_long _ _ _ _ letter); rewrite ?Hx; try done.
      simpl; lia.
    + intros i ch Hi Hl. apply (Hrest (i - 6)).
      rewrite <-Hl. do 6 (destruct i as [|i]; [lia|]). simpl. by rewrite Nat.sub_0_r.
Qed.

Lemma win_path_not_diff p : win_path p → looksLikeDiff p p 0 = false.
Proof.
  intros Hp. unfold looksLikeDiff. rewrite andb_false_r. simpl.
  destruct (JS.startsWith p (str "diff --git")) eqn:Hs; [|done]. exfalso.
  pose proof (JSFacts.startsWith_lookup _ _ 0 100%N Hs eq_refl) as H0.
  pose proof (JSFacts.startsWith_lookup _ _ 1 105%N Hs eq_refl) as H1.
  pose proof (JSFacts.startsWith_lookup _ _ 4 32%N Hs eq_refl) as H4.
  destruct Hp as (drive & rest & -> & Hdrive & Hbody & _).
  destruct Hdrive as [->|[(letter & Hletter & [->| ->]) Hhead]].
  - apply (Forall_lookup_1 _ _ _ _ Hbody) in H4. by destruct H4 as (_ & ? & _).
  - simpl in H1. done.
  - simpl in H0. done.
Qed.

(** A line that is one Windows path: one match, the whole line at
    index 0. *)
Lemma scan_win_path p :
  win_path p → scan Windows p = Some [mkItem p 0 p 0].
Proof.
  intros Hp. destruct (win_match_whole p Hp) as (r & Hr & Hidx & Hend).
  pose proof (win_path_nonempty p Hp) as Hlen.
  assert (RegExp.matched p r = p) as Hm.
  { unfold RegExp.matched, JS.slice. rewrite Hidx, drop_0, Nat.sub_0_r. by apply take_ge. }
  assert (RegExp.exec p (_localLinkRegex Windows) 0 = Some r) as Hex0.
  { unfold RegExp.exec. change (Z.to_nat 0) with 0. rewrite Nat.sub_0_r.
    cbn [seq RegExp.first_match]. by rewrite Hr. }
  assert (RegExp.exec p (_localLinkRegex Windows) (0 + Z.of_nat (length p)) = None) as Hex1.
  { unfold RegExp.exec. rewrite Z.add_0_l, Nat2Z.id.
    replace (S (length p) - length p) with 1 by lia. cbn [seq RegExp.first_match].
    unfold RegExp.match_at. rewrite RegExpFacts.m_at_end; [done|apply win_consumes|done]. }
  unfold scan. replace (length p + 2) with (S (S (length p))) by lia.
  rewrite scanLoop_S, Hex0. cbv zeta. rewrite Hm.
  destruct p as [|c p'] eqn:Hpeq; [simpl in Hlen; lia|]. rewrite <-Hpeq in *.
  replace (-1 + 1)%Z with 0%Z by lia. rewrite JSFacts.indexOf_self.
  simpl Z.ltb. cbv iota. unfold adjustDiff. rewrite win_path_not_diff by done.
  cbn [fst snd]. rewrite scanLoop_S, Hex1. done.
Qed.

Lemma win_path_no_slash p : win_path p → 47%N ∉ p.
Proof.
  intros (drive & rest & -> & Hdrive & Hbody & _) [Hin|Hin]%elem_of_app.
  - destruct Hdrive as [->|[(letter & Hletter & [->| ->]) _]]; [by inversion Hin|..].
    + apply elem_of_cons in Hin as [<-|Hin]; [by vm_compute in Hletter|].
      apply list_elem_of_singleton in Hin. done.
    + do 4 (apply elem_of_cons in Hin as [?|Hin]; [done|]).
      apply elem_of_cons in Hin as [<-|Hin]; [by vm_compute in Hletter|].
      apply list_elem_of_singleton in Hin. done.
  - apply (proj1 (Forall_forall _ _) Hbody) in Hin as (_ & _ & Hex).
    apply Hex. apply (bool_decide_unpack _). vm_compute. exact I.
Qed.

(** X15.  With the Windows grammar, a line that is one Windows path, an
    optional drive ([C:] or [\\?\C:]) followed by characters of the
    grammar among which a backslash is followed by something, is found
    by the scan as one match, the whole line at index 0; with the POSIX
    grammar the same line gives no match. *)
Theorem windows_scan_finds_paths text :
  win_path text →
  scan Windows text = Some [mkItem text 0 text 0] ∧ scan Linux text = Some [].
Proof.
  intros Hp. split; [by apply scan_win_path|].
  by apply scan_no_separator, win_path_no_slash.
Qed.

(** [C:\foo\bar], [\\?\C:\foo] and [.\x\y]. *)
Lemma windows_scan_finds_paths_witness :
  win_path (str "C:\foo\bar") ∧ win_path (str "\\?\C:\foo") ∧ win_path (str ".\x\y") ∧
  (scan Windows (str "C:\foo\bar") = Some [mkItem (str "C:\foo\bar") 0 (str "C:\foo\bar") 0] ∧
   scan Linux (str "C:\foo\bar") = Some []) ∧
  (scan Windows (str "\\?\C:\foo") = Some [mkItem (str "\\?\C:\foo") 0 (str "\\?\C:\foo") 0] ∧
   scan Linux (str "\\?\C:\foo") = Some []) ∧
  (scan Windows (str ".\x\y") = Some [mkItem (str ".\x\y") 0 (str ".\x\y") 0] ∧
   scan Linux (str ".\x\y") = Some []).
Proof.
  assert (∀ s, Forall (fun c => RegExp.class_matches true winExcludedPathCharacters c = true) s →
               Forall is_win_body s) as Hbody.
  { intros s Hs. eapply Forall_impl; [exact Hs|]. intros c. apply win_body_class. }
  assert (win_path (str "C:\foo\bar")) as H1.
  { exists (str "C:"), (str "\foo\bar"). split_and!; [reflexivity| | |].
    - right. split; [|reflexivity]. exists 67%N. split; [reflexivity|by left].
    - apply Hbody. repeat constructor.
    - exists 0. split; [reflexivity|simpl; lia]. }
  assert (win_path (str "\\?\C:\foo")) as H2.
  { exists (str "\\?\C:"), (str "\foo"). split_and!; [reflexivity| | |].
    - right. split; [|reflexivity]. exists 67%N. split; [reflexivity|by right].
    - apply Hbody. repeat constructor.
    - exists 0. split; [reflexivity|simpl; lia]. }
  assert (win_path (str ".\x\y")) as H3.
  { exists [], (str ".\x\y"). split_and!; [reflexivity|by left| |].
    - apply Hbody. repeat constructor.
    - exists 1. split; [reflexivity|simpl; lia]. }
  split; [exact H1|]. split; [exact H2|]. split; [exact H3|].
  split; [|split].
  - exact (windows_scan_finds_paths _ H1).
  - exact (windows_scan_finds_paths _ H2).
  - exact (windows_scan_finds_paths _ H3).
Defined.

(** ** A path followed by a line and a column number *)

Lemma sixth_shape : lineAndColumnRegex = foldr RegExp.r_alt sixthForm firstForms.
Proof. vm_compute. reflexivity. Qed.

Lemma firstForms_reject a :
  a ∈ firstForms → RegExp.must (rejects (str ":0123456789")) a = true.
Proof.
  assert (forallb (RegExp.must (rejects (str ":0123456789"))) firstForms = true) as Hall
    by (vm_compute; reflexivity).
  intros Ha%list_elem_of_In. exact (proj1 (forallb_forall _ _) Hall a Ha).
Qed.

Lemma firstForms_groups : sum_list (RegExp.ngroups <$> firstForms) = 30.
Proof. vm_compute. reflexivity. Qed.

Section Bounded.
Import RegExp RegExpFacts.

Variable input : jsstring.

Local Abbreviation len := (length input).

Lemma clear_captures_length pI k caps : length (clear_captures pI k caps) = length caps.
Proof.
  unfold clear_captures. generalize (seq (S pI) k). intros idxs.
  induction idxs as [|i idxs IH]; [done|]. simpl. by rewrite length_insert.
Qed.

(** A pattern none of whose one-character patterns accepts the
    character at [n] does not get past [n]: a success is a success of
    the continuation at a state up to [n], with as many captures. *)
Section Stays.
Variables (n : nat) (stop : char).
Hypothesis n_stop : input !! n = Some stop.

Lemma RepeatMatcher_stays mm fuel min max pI pC :
  (∀ c x z, endIndex x ≤ n → mm c x = Some z →
     ∃ y, c y = Some z ∧ endIndex x ≤ endIndex y ≤ n ∧
          length (captures y) = length (captures x)) →
  ∀ c x z, endIndex x ≤ n → RepeatMatcher mm fuel min max pI pC c x = Some z →
    ∃ y, c y = Some z ∧ endIndex x ≤ endIndex y ≤ n ∧
         length (captures y) = length (captures x).
Proof using Type.
  intros Hmm. revert min max.
  induction fuel as [|fuel IH]; intros min max c x z Hx.
  - destruct max as [[|?]|]; simpl; [|done..]. intros Hc. exists x. auto with lia.
  - rewrite RepeatMatcher_S.
    assert (Hiter : mm (fun y =>
               if (min =? 0) && (endIndex y =? endIndex x) then None
               else RepeatMatcher mm fuel (pred min) (pred <$> max) pI pC c y)
              (mkState (endIndex x) (clear_captures pI pC (captures x))) = Some z →
            ∃ y, c y = Some z ∧ endIndex x ≤ endIndex y ≤ n ∧
                 length (captures y) = length (captures x)).
    { intros Hz. apply Hmm in Hz as (y & Hz & Hy1 & Hy2); [|done]. simpl in *.
      rewrite clear_captures_length in Hy2.
      destruct ((min =? 0) && (endIndex y =? endIndex x)); [done|].
      apply IH in Hz as (y' & ? & ? & ?); [|lia].
      exists y'. split_and!; [done|lia|lia|congruence]. }
    destruct max as [[|?]|]; cbv zeta.
    + intros Hc. exists x. auto with lia.
    + destruct (min =? 0); [|done].
      destruct (mm _ _) eqn:Hm; [intros [= ->]; auto|]. intros Hc. exists x. auto with lia.
    + destruct (min =? 0); [|done].
      destruct (mm _ _) eqn:Hm; [intros [= ->]; auto|]. intros Hc. exists x. auto with lia.
Qed.

Lemma atom_stays A (c : Continuation) x z :
  A stop = false → endIndex x ≤ n →
  CharacterSetMatcher input A c x = Some z →
  ∃ y, c y = Some z ∧ endIndex x ≤ endIndex y ≤ n ∧
       length (captures y) = length (captures x).
Proof using n_stop.
  intros HA Hx. unfold CharacterSetMatcher.
  destruct (input !! endIndex x) as [ch|] eqn:Hl; [|done].
  destruct (A ch) eqn:Hch; [|done]. intros Hc.
  assert (endIndex x ≠ n) by (intros Heq; rewrite Heq in Hl; congruence).
  eexists. split; [exact Hc|]. simpl. lia.
Qed.

Lemma m_stays r pI c x z :
  atoms_all (rejects [stop]) r = true → endIndex x ≤ n →
  m input r pI c x = Some z →
  ∃ y, c y = Some z ∧ endIndex x ≤ endIndex y ≤ n ∧
       length (captures y) = length (captures x).
Proof using n_stop.
  revert pI c x z.
  induction r as [|ch|e|inv items|a IHa b IHb|a IHa b IHb|q r IH|r IH|r IH|];
    intros pI c x z Hr Hx; cbn [m atoms_all] in *.
  - intros Hc. exists x. auto with lia.
  - apply atom_stays; [|done]. unfold rejects in Hr. simpl in Hr.
    by destruct (ch =? stop)%N.
  - apply atom_stays; [|done]. unfold rejects in Hr. simpl in Hr.
    by destruct (escape_matches e stop).
  - apply atom_stays; [|done]. unfold rejects in Hr. simpl in Hr.
    by destruct (class_matches inv items stop).
  - apply andb_true_iff in Hr as [Ha Hb].
    intros Hz. apply IHa in Hz as (y & Hz & ? & ?); [|done..].
    apply IHb in Hz as (y' & ? & ? & ?); [|done|lia].
    exists y'. split_and!; [done|lia|lia|congruence].
  - apply andb_true_iff in Hr as [Ha Hb].
    destruct (m input a pI c x) eqn:Hma.
    + intros [= ->]. by apply IHa in Hma.
    + by apply IHb.
  - apply RepeatMatcher_stays; [|done]. intros c' x' z' Hx'. by apply IH.
  - intros Hz. apply IH in Hz as (y & Hz & ? & ?); [|done..]. eexists. split; [exact Hz|].
    simpl. rewrite length_insert. split; [lia|done].
  - by apply IH.
  - destruct (endIndex x =? 0); [|done]. intros Hc. exists x. auto with lia.
Qed.

End Stays.

(** *** Greedy loops up to an index [n] at which the class stops *)
Section LoopTo.
Variables (a : regex) (A : char → bool) (n : nat).
Hypothesis a_atom : atom_pred a = Some A.
Hypothesis n_len : n ≤ len.
Hypothesis n_stops : ∀ ch, input !! n = Some ch → A ch = false.

Lemma atom_groups : ngroups a = 0.
Proof using a_atom. by destruct a. Qed.

Lemma atom_stop pI (c : Continuation) x :
  endIndex x = n → m input a pI c x = None.
Proof using a_atom n_stops.
  intros Hx. rewrite (m_atom _ _ A) by done. unfold CharacterSetMatcher. rewrite Hx.
  destruct (input !! n) as [ch|] eqn:Hl; [|done]. by rewrite n_stops.
Qed.

Lemma atom_step pI (c : Continuation) x ch :
  input !! endIndex x = Some ch → A ch = true →
  m input a pI c x = c (mkState (S (endIndex x)) (captures x)).
Proof using a_atom.
  intros Hl HA. rewrite (m_atom _ _ A) by done. unfold CharacterSetMatcher.
  by rewrite Hl, HA.
Qed.

(** [a*] and [a+] for a one-character pattern: when the continuation
    succeeds at [n], the loop runs up to [n] and that is the result. *)
Lemma atom_star_run pI c x :
  endIndex x ≤ n →
  (∀ j ch, endIndex x ≤ j < n → input !! j = Some ch → A ch = true) →
  is_Some (c (mkState n (captures x))) →
  m input (r_quant q_star a) pI c x = c (mkState n (captures x)).
Proof using a_atom n_len n_stops.
  remember (n - endIndex x) as k eqn:Hk. revert x Hk.
  induction k as [k IH] using lt_wf_ind. intros x Hk Hx HA Hc.
  rewrite m_star by lia. unfold reset. rewrite atom_groups.
  change (clear_captures pI 0 (captures x)) with (captures x).
  destruct (decide (endIndex x = n)) as [Heq|Hne].
  { rewrite atom_stop by done. rewrite <-Heq. by destruct x. }
  assert (endIndex x < len) as Hlt by lia.
  destruct (lookup_lt_is_Some_2 input (endIndex x) Hlt) as [ch Hl].
  rewrite (atom_step _ _ _ ch); [|done|apply (HA (endIndex x)); [simpl; lia|done]].
  cbn [endIndex captures]. rewrite (proj2 (Nat.eqb_neq _ _)) by lia.
  rewrite (IH (n - S (endIndex x)) ltac:(lia) (mkState (S (endIndex x)) (captures x)));
    cbn [endIndex captures]; [|done|lia| |done].
  - by destruct Hc as [z ->].
  - intros j ch' Hj. apply HA. lia.
Qed.

Lemma atom_plus_run pI c x :
  endIndex x < n →
  (∀ j ch, endIndex x ≤ j < n → input !! j = Some ch → A ch = true) →
  is_Some (c (mkState n (captures x))) →
  m input (r_quant q_plus a) pI c x = c (mkState n (captures x)).
Proof using a_atom n_len n_stops.
  intros Hx HA Hc. rewrite m_plus by lia. unfold reset. rewrite atom_groups.
  change (clear_captures pI 0 (captures x)) with (captures x).
  assert (endIndex x < len) as Hlt by lia.
  destruct (lookup_lt_is_Some_2 input (endIndex x) Hlt) as [ch Hl].
  rewrite (atom_step _ _ _ ch); [|done|apply (HA (endIndex x)); [simpl; lia|done]].
  cbn [endIndex captures].
  rewrite (atom_star_run pI c (mkState (S (endIndex x)) (captures x)));
    cbn [endIndex captures]; [done|lia| |done].
  intros j ch' Hj. apply HA. lia.
Qed.

(** [(a)*] and [(a)+]: when every character up to [n] is in the class
    and the continuation succeeds at [n], the first try of the
    continuation is the result. *)
Lemma class_star_to (Q : MatchState → Prop) pI c x :
  endIndex x ≤ n →
  (∀ j ch, endIndex x ≤ j < n → input !! j = Some ch → A ch = true) →
  good_at n (length (captures x)) c Q →
  ∃ z, m input (r_quant q_star (r_group a)) pI c x = Some z ∧ Q z.
Proof using a_atom n_len n_stops.
  remember (n - endIndex x) as k eqn:Hk. revert x Hk.
  induction k as [k IH] using lt_wf_ind. intros x Hk Hx HA Hc.
  rewrite m_star by lia.
  destruct (decide (endIndex x = n)) as [Heq|Hne].
  { rewrite (class_group_stop input a A a_atom); [by apply Hc|].
    intros ch. cbn [reset endIndex]. rewrite Heq. apply n_stops. }
  assert (endIndex x < len) as Hlt by lia.
  destruct (lookup_lt_is_Some_2 input (endIndex x) Hlt) as [ch Hl].
  rewrite (class_group_step input a A a_atom _ _ _ ch); [|done|apply (HA (endIndex x)); [lia|done]].
  cbv beta. cbn [endIndex reset]. rewrite (proj2 (Nat.eqb_neq _ _)) by lia.
  destruct (IH (n - S (endIndex x)) ltac:(lia)
              (mkState (S (endIndex x))
                 (<[S pI := Some (endIndex x, S (endIndex x))]>
                    (captures (reset pI (r_group a) x)))))
    as (z & Hz & HQ); cbn [endIndex captures]; [done|lia| | |].
  - intros j ch' Hj. apply HA. lia.
  - cbn [reset captures]. by rewrite length_insert, clear_captures_length.
  - cbn [reset endIndex captures] in *. rewrite Hz. eauto.
Qed.

Lemma class_plus_to (Q : MatchState → Prop) pI c x :
  endIndex x < n →
  (∀ j ch, endIndex x ≤ j < n → input !! j = Some ch → A ch = true) →
  good_at n (length (captures x)) c Q →
  ∃ z, m input (r_quant q_plus (r_group a)) pI c x = Some z ∧ Q z.
Proof using a_atom n_len n_stops.
  intros Hx HA Hc. rewrite m_plus by lia.
  assert (endIndex x < len) as Hlt by lia.
  destruct (lookup_lt_is_Some_2 input (endIndex x) Hlt) as [ch Hl].
  rewrite (class_group_step input a A a_atom _ _ _ ch); [|done|by apply (HA (endIndex x)); [lia|]].
  apply class_star_to; cbn [endIndex reset captures]; [lia| |].
  - intros j ch' Hj. apply HA. lia.
  - by rewrite length_insert, clear_captures_length.
Qed.

(** When the continuation succeeds at some index [j] up to [n] that
    the loop can reach, the loop succeeds. *)
Lemma class_star_reach_to pI c x j :
  endIndex x ≤ j → j ≤ n →
  (∀ i ch, endIndex x ≤ i < j → input !! i = Some ch → A ch = true) →
  (∀ y, endIndex y = j → length (captures y) = length (captures x) → is_Some (c y)) →
  is_Some (m input (r_quant q_star (r_group a)) pI c x).
Proof using a_atom n_len.
  remember (j - endIndex x) as k eqn:Hk. revert x Hk.
  induction k as [k IH] using lt_wf_ind. intros x Hk Hx Hj HA Hc.
  rewrite m_star by lia.
  destruct (decide (endIndex x = j)) as [Heq|Hne].
  { destruct (m input (r_group a) _ _ _); [done|]. by apply Hc. }
  assert (endIndex x < len) as Hlt by lia.
  destruct (lookup_lt_is_Some_2 input (endIndex x) Hlt) as [ch Hl].
  rewrite (class_group_step input a A a_atom _ _ _ ch); [|done|apply (HA (endIndex x)); [lia|done]].
  cbv beta. cbn [endIndex reset]. rewrite (proj2 (Nat.eqb_neq _ _)) by lia.
  destruct (IH (j - S (endIndex x)) ltac:(lia)
              (mkState (S (endIndex x))
                 (<[S pI := Some (endIndex x, S (endIndex x))]>
                    (captures (reset pI (r_group a) x)))))
    as [z Hz]; cbn [endIndex captures]; [done|lia|done| | |].
  - intros i ch' Hi. apply HA. lia.
  - intros y Hy Hlen. apply Hc; [done|].
    cbn [reset captures] in Hlen. by rewrite length_insert, clear_captures_length in Hlen.
  - cbn [reset endIndex captures] in *. by rewrite Hz.
Qed.

Lemma class_plus_reach_to pI c x j :
  endIndex x < j → j ≤ n →
  (∀ i ch, endIndex x ≤ i < j → input !! i = Some ch → A ch = true) →
  (∀ y, endIndex y = j → length (captures y) = length (captures x) → is_Some (c y)) →
  is_Some (m input (r_quant q_plus (r_group a)) pI c x).
Proof using a_atom n_len.
  intros Hx Hj HA Hc. rewrite m_plus by lia.
  assert (endIndex x < len) as Hlt by lia.
  destruct (lookup_lt_is_Some_2 input (endIndex x) Hlt) as [ch Hl].
  rewrite (class_group_step input a A a_atom _ _ _ ch); [|done|apply (HA (endIndex x)); [lia|done]].
  apply (class_star_reach_to _ _ _ j); cbn [endIndex reset captures]; [lia|done| |].
  - intros i ch' Hi. apply HA. lia.
  - intros y Hy Hlen. apply Hc; [done|].
    by rewrite length_insert, clear_captures_length in Hlen.
Qed.

End LoopTo.
End Bounded.

(** *** The POSIX path grammar in front of a colon *)

Lemma unixHead_atoms : atoms_all (rejects [58%N]) unixHead = true.
Proof. vm_compute. reflexivity. Qed.

Section PathTo.
Import RegExp RegExpFacts.

Variables (input : jsstring) (n N : nat).
Hypothesis n_colon : input !! n = Some 58%N.
Hypothesis body_to :
  ∀ i ch, i < n → input !! i = Some ch →
    class_matches true excludedPathCharacters ch = true.

Local Abbreviation bodyChar := (class_matches true excludedPathCharacters).

Lemma n_below : n < length input.
Proof using n_colon. by apply lookup_lt_Some in n_colon. Qed.

Lemma colon_stops ch : input !! n = Some ch → bodyChar ch = false.
Proof using n_colon. rewrite n_colon. intros [= <-]. vm_compute. reflexivity. Qed.

Lemma body_plus_stop pI c x :
  endIndex x = n → m input (r_quant q_plus (r_group unixBody)) pI c x = None.
Proof using n_colon.
  intros Hx. pose proof n_below. rewrite m_plus by lia.
  apply (class_group_stop input unixBody bodyChar eq_refl).
  intros ch. cbn [reset endIndex]. rewrite Hx. apply colon_stops.
Qed.

Lemma tail_group_stop pI c x :
  endIndex x = n →
  m input (r_group (r_seq (r_char 47) (r_quant q_plus (r_group unixBody)))) pI c x = None.
Proof using n_colon. intros Hx. by rewrite m_group, m_seq, m_char, Hx, n_colon. Qed.

Lemma unixTail_to_fail pI c x :
  endIndex x ≤ n →
  ¬ (input !! endIndex x = Some 47%N ∧ S (endIndex x) < n) →
  m input unixTail pI c x = None.
Proof using n_colon.
  intros Hx Hno. pose proof n_below. unfold unixTail. rewrite m_plus by lia.
  rewrite m_group, m_seq, m_char. cbn [reset endIndex captures].
  destruct (input !! endIndex x) as [ch|] eqn:Hl; [|done].
  destruct (N.eqb_spec 47 ch) as [<-|]; [|done].
  apply body_plus_stop. cbn [endIndex].
  destruct (decide (endIndex x = n)) as [Heq|Hne]; [rewrite Heq, n_colon in Hl; done|].
  destruct (decide (S (endIndex x) < n)); [destruct Hno; done|lia].
Qed.

Lemma unixTail_to_ok (Q : MatchState → Prop) pI c x :
  good_at n N c Q →
  input !! endIndex x = Some 47%N → S (endIndex x) < n → length (captures x) = N →
  ∃ z, m input unixTail pI c x = Some z ∧ Q z.
Proof using n_colon body_to.
  intros Hc Hl Hlt Hlen. pose proof n_below. unfold unixTail. rewrite m_plus by lia.
  rewrite m_group, m_seq, m_char. cbn [reset endIndex captures].
  rewrite Hl, N.eqb_refl.
  apply (class_plus_to input unixBody bodyChar n eq_refl);
    [lia|apply colon_stops|cbn [endIndex]; lia| |].
  { intros j ch Hj. apply body_to. lia. }
  intros y Hy Hleny. cbv beta. rewrite m_star by (cbn [endIndex]; lia).
  rewrite tail_group_stop by done.
  apply Hc; cbn [endIndex captures]; [done|].
  rewrite length_insert, Hleny. cbn [captures]. by rewrite clear_captures_length.
Qed.

Lemma unixTail_to_cases (Q : MatchState → Prop) pI c x :
  good_at n N c Q → endIndex x ≤ n → length (captures x) = N →
  m input unixTail pI c x = None ∨ ∃ z, m input unixTail pI c x = Some z ∧ Q z.
Proof using n_colon body_to.
  intros Hc Hx Hlen.
  destruct (decide (input !! endIndex x = Some 47%N ∧ S (endIndex x) < n))
    as [[Hl Hlt]|Hno].
  - right. by apply unixTail_to_ok.
  - left. by apply unixTail_to_fail.
Qed.

(** [(head)?tail] in front of the colon: every success is a success
    of the continuation at [n], and there is one when a separator with
    something after it can be reached. *)
Lemma unixPath_to_cases (Q : MatchState → Prop) pI c x :
  good_at n N c Q → endIndex x ≤ n → length (captures x) = N →
  m input (r_seq (r_quant q_opt unixHead) unixTail) pI c x = None ∨
  ∃ z, m input (r_seq (r_quant q_opt unixHead) unixTail) pI c x = Some z ∧ Q z.
Proof using n_colon body_to.
  intros Hc Hx Hlen. pose proof n_below. rewrite m_seq, m_opt by lia.
  destruct (m input unixHead _ _ _) as [z|] eqn:Hz.
  - right. exists z. split; [done|].
    apply (m_stays input n 58 n_colon) in Hz as (y & Hz & Hy & Hleny);
      [|apply unixHead_atoms|done].
    cbn [reset endIndex captures] in *. rewrite clear_captures_length in Hleny.
    destruct (endIndex y =? endIndex x); [done|].
    destruct (unixTail_to_cases Q (pI + ngroups (r_quant q_opt unixHead)) c y Hc)
      as [Hn|(z' & Hz' & ?)]; [lia|congruence|congruence|congruence].
  - by apply unixTail_to_cases.
Qed.

Lemma unixPath_to_found (Q : MatchState → Prop) pI c x j :
  good_at n N c Q → endIndex x ≤ j → length (captures x) = N →
  input !! j = Some 47%N → S j < n →
  is_Some (m input (r_seq (r_quant q_opt unixHead) unixTail) pI c x).
Proof using n_colon body_to.
  intros Hc Hx Hlen Hl Hlt. pose proof n_below. rewrite m_seq, m_opt by lia.
  destruct (m input unixHead _ _ _) as [z|] eqn:Hz; [done|].
  destruct (decide (endIndex x = j)) as [Heq|Hne].
  { subst j.
    destruct (unixTail_to_ok Q (pI + ngroups (r_quant q_opt unixHead)) c x Hc Hl Hlt Hlen)
      as (z & -> & _). done. }
  exfalso. revert Hz. unfold unixHead at 1. rewrite m_group, m_alt.
  destruct (m input (default r_empty (parse pathPrefix)) _ _ _); [done|].
  intros Hz.
  eassert (is_Some (m input (r_quant q_plus (r_group unixBody)) _ _ _)) as [z Hz'];
    [|rewrite Hz in Hz'; done].
  apply (class_plus_reach_to input unixBody bodyChar n eq_refl ltac:(lia) _ _ _ j);
    cbn [reset endIndex captures]; [lia|lia| |].
  { intros i ch Hi. apply body_to. lia. }
  intros y Hy Hleny. cbv beta. cbn [endIndex].
  rewrite (proj2 (Nat.eqb_neq _ _)) by lia.
  destruct (unixTail_to_ok Q (pI + ngroups (r_quant q_opt unixHead)) c
              (mkState (endIndex y)
                 (<[S pI := Some (endIndex x, endIndex y)]> (captures y))) Hc)
    as (z & -> & _); cbn [endIndex captures]; [by rewrite Hy|lia| |done].
  rewrite length_insert, Hleny. by rewrite clear_captures_length.
Qed.

End PathTo.

(** *** The line/column forms on a colon and digits *)

Section Position.
Import RegExp RegExpFacts.

Variable input : jsstring.

(** A form that must go through a character other than the colon and
    the digits fails where only those are left. *)
Lemma late_form_fails n a pI c x :
  (∀ j ch, n ≤ j → input !! j = Some ch → ch ∈ str ":0123456789") →
  must (rejects (str ":0123456789")) a = true → n ≤ endIndex x →
  m input a pI c x = None.
Proof.
  intros Hrest Ha Hx.
  apply (m_must input (fun x => n ≤ endIndex x) (rejects (str ":0123456789")));
    [| |done..].
  - intros; lia.
  - clear -Hrest. intros a pI c x Ha Hx. unfold rejects in Ha.
    destruct (atom_pred a) as [A|] eqn:Hatom; [|done].
    rewrite (m_atom input a A) by done. unfold CharacterSetMatcher.
    destruct (input !! endIndex x) as [ch|] eqn:Hl; [|done].
    apply (Hrest _ _ Hx) in Hl. apply list_elem_of_In in Hl.
    apply (proj1 (forallb_forall _ _) Ha) in Hl. by destruct (A ch).
Qed.

(** Alternatives that fail are skipped. *)
Lemma alts_skip forms final pI c x :
  (∀ a pI', a ∈ forms → m input a pI' c x = None) →
  m input (foldr r_alt final forms) pI c x =
  m input final (pI + sum_list (ngroups <$> forms)) c x.
Proof.
  revert pI. induction forms as [|a forms IH]; intros pI Hfail.
  - simpl. by rewrite Nat.add_0_r.
  - cbn [foldr]. rewrite m_alt, (Hfail a pI) by left.
    rewrite IH by (intros a' pI' Ha'; apply Hfail; by right).
    rewrite fmap_cons. cbn [sum_list]. by rewrite Nat.add_assoc.
Qed.

(** [(:(\d+))?] on a colon and a run of digits up to [e']. *)
Lemma position_present pI c x e' :
  input !! endIndex x = Some 58%N →
  S (endIndex x) < e' → e' ≤ length input →
  (∀ j ch, S (endIndex x) ≤ j < e' → input !! j = Some ch → isDigit ch = true) →
  (∀ ch, input !! e' = Some ch → isDigit ch = false) →
  is_Some (c (mkState e'
                (<[S pI := Some (endIndex x, e')]>
                   (<[S (S pI) := Some (S (endIndex x), e')]>
                      (clear_captures pI 2 (captures x)))))) →
  m input positionBlock pI c x =
  c (mkState e'
       (<[S pI := Some (endIndex x, e')]>
          (<[S (S pI) := Some (S (endIndex x), e')]>
             (clear_captures pI 2 (captures x))))).
Proof.
  intros Hcolon Hlt Hlen Hdigits Hstop Hc. unfold positionBlock.
  rewrite m_opt by lia. rewrite m_group, m_seq, m_char.
  cbn [reset endIndex captures ngroups]. rewrite Hcolon, N.eqb_refl.
  rewrite m_group. unfold digits at 1.
  rewrite (atom_plus_run input (r_escape esc_d) (escape_matches esc_d) e' eq_refl);
    [|done|done|cbn [endIndex]; lia|done|].
  - cbv beta. cbn [endIndex captures]. rewrite (proj2 (Nat.eqb_neq _ _)) by lia.
    rewrite Nat.add_0_r. change (S (0 + S (ngroups digits))) with 2.
    by destruct Hc as [z ->].
  - cbv beta. cbn [endIndex captures]. rewrite (proj2 (Nat.eqb_neq _ _)) by lia.
    rewrite Nat.add_0_r. exact Hc.
Qed.

Lemma position_absent pI c x :
  endIndex x ≤ length input → input !! endIndex x ≠ Some 58%N →
  m input positionBlock pI c x = c x.
Proof.
  intros Hx Hno. unfold positionBlock. rewrite m_opt by done.
  rewrite m_group, m_seq, m_char. cbn [reset endIndex captures].
  destruct (input !! endIndex x) as [ch|]; [|done].
  destruct (N.eqb_spec 58 ch) as [<-|]; done.
Qed.

End Position.

Lemma suffix_shape :
  suffixOf (_localLinkRegex Linux) = RegExp.r_group (foldr RegExp.r_alt sixthForm firstForms).
Proof. vm_compute. reflexivity. Qed.

Lemma digit_late ch : RegExp.isDigit ch = true → ch ∈ str ":0123456789".
Proof.
  unfold RegExp.isDigit. intros [Hlo Hhi]%andb_true_iff.
  apply N.leb_le in Hlo, Hhi.
  assert (ch = 48 ∨ ch = 49 ∨ ch = 50 ∨ ch = 51 ∨ ch = 52 ∨ ch = 53 ∨ ch = 54 ∨ ch = 55
          ∨ ch = 56 ∨ ch = 57)%N as Hch by lia.
  repeat (destruct Hch as [->|Hch]; [apply (bool_decide_unpack _); vm_compute; exact I|]).
  subst. apply (bool_decide_unpack _). vm_compute. exact I.
Qed.

Section PathWithPosition.
Import RegExp RegExpFacts.

Variables (p l : jsstring) (column : option jsstring).
Hypothesis p_path : unix_path p.
Hypothesis l_digits : digit_string l.
Hypothesis c_digits : ∀ c, column = Some c → digit_string c.

Local Abbreviation line := (p ++ positionSuffix l column).
Local Abbreviation n := (length p).
Local Abbreviation b := (S (length p + length l)).
Local Abbreviation columnPart :=
  (match column with Some c => 58%N :: c | None => [] end).

Lemma line_unfold : line = p ++ 58%N :: l ++ columnPart.
Proof using Type. unfold positionSuffix. by case column. Qed.

Lemma line_length : length line = b + length columnPart.
Proof using Type. rewrite line_unfold, length_app. simpl. rewrite length_app. lia. Qed.

Lemma line_colon : line !! n = Some 58%N.
Proof using Type. rewrite line_unfold. by apply list_lookup_middle. Qed.

Lemma line_body i ch :
  i < n → line !! i = Some ch → class_matches true excludedPathCharacters ch = true.
Proof using p_path.
  intros Hi. rewrite lookup_app_l by done.
  apply (proj1 (unix_path_chars p p_path)).
Qed.

Lemma line_number j ch : S n ≤ j < b → line !! j = Some ch → isDigit ch = true.
Proof using l_digits.
  intros Hj. rewrite line_unfold, lookup_app_r by lia.
  replace (j - n) with (S (j - S n)) by lia. rewrite lookup_cons.
  rewrite lookup_app_l by lia. intros Hl.
  by apply (Forall_lookup_1 _ _ _ _ (proj2 l_digits)) in Hl.
Qed.

Lemma line_at_b : line !! b = columnPart !! 0.
Proof using Type.
  rewrite line_unfold, lookup_app_r by lia.
  replace (b - n) with (S (length l)) by lia. rewrite lookup_cons.
  rewrite lookup_app_r by lia. by rewrite Nat.sub_diag.
Qed.

Lemma line_after_number ch : line !! b = Some ch → isDigit ch = false.
Proof using Type.
  rewrite line_at_b. case column; [|done]. by intros c [= <-].
Qed.

Lemma line_column c j ch :
  column = Some c → S b ≤ j → line !! j = Some ch → isDigit ch = true.
Proof using c_digits.
  intros Hc Hj. rewrite line_unfold, lookup_app_r by lia.
  replace (j - n) with (S (j - S n)) by lia. rewrite lookup_cons.
  rewrite lookup_app_r by lia. rewrite Hc.
  replace (j - S n - length l) with (S (j - S b)) by lia. rewrite lookup_cons.
  intros Hl. by apply (Forall_lookup_1 _ _ _ _ (proj2 (c_digits c Hc))) in Hl.
Qed.

Lemma line_late j ch : n ≤ j → line !! j = Some ch → ch ∈ str ":0123456789".
Proof using l_digits c_digits.
  intros Hj Hl.
  destruct (decide (j = n)) as [->|Hn].
  { rewrite line_colon in Hl. injection Hl as <-. by left. }
  destruct (decide (j < b)) as [Hb|Hb].
  { apply digit_late. apply (line_number j); [lia|done]. }
  destruct (decide (j = b)) as [->|Hjb].
  { rewrite line_at_b in Hl. destruct column; [|done]. injection Hl as <-. by left. }
  pose proof line_column as Hcolumn. pose proof line_length as Hlen.
  destruct column as [c|] eqn:Hc.
  - apply digit_late. apply (Hcolumn c j); [done|lia|done].
  - apply lookup_lt_Some in Hl. rewrite Hlen in Hl. simpl in Hl. lia.
Qed.

Lemma line_not_space ch : ch ∈ line → isWhiteSpace ch = false.
Proof using p_path l_digits c_digits.
  intros [j Hj]%list_elem_of_lookup_1.
  destruct (decide (j < n)) as [Hlt|Hge].
  - apply line_body, body_class in Hj; [|done]. apply Hj.
  - apply line_late in Hj; [|lia].
    assert (Forall (fun c => isWhiteSpace c = false) (str ":0123456789")) as Hall
      by (repeat constructor).
    by apply (proj1 (Forall_forall _ _) Hall) in Hj.
Qed.

(** The two position blocks at the colon after the path. *)
Lemma blocks_at pI (c : Continuation) caps :
  let caps1 := <[S pI := Some (n, b)]>
                 (<[S (S pI) := Some (S n, b)]> (clear_captures pI 2 caps)) in
  let caps2 :=
    match column with
    | Some _ =>
        <[S (pI + 2) := Some (b, length line)]>
          (<[S (S (pI + 2)) := Some (S b, length line)]>
             (clear_captures (pI + 2) 2 caps1))
    | None => caps1
    end in
  is_Some (c (mkState (length line) caps2)) →
  m line (r_seq positionBlock positionBlock) pI c (mkState n caps) =
  c (mkState (length line) caps2).
Proof using l_digits c_digits.
  cbv zeta. intros Hc. pose proof line_length as Hlen.
  assert (l ≠ []) as Hl by apply l_digits.
  assert (0 < length l) by (destruct l; [done|simpl; lia]).
  assert (m line positionBlock (pI + ngroups positionBlock) c
            (mkState b
               (<[S pI := Some (n, b)]>
                  (<[S (S pI) := Some (S n, b)]> (clear_captures pI 2 caps)))) =
          c (mkState (length line)
               match column with
               | Some _ =>
                   <[S (pI + 2) := Some (b, length line)]>
                     (<[S (S (pI + 2)) := Some (S b, length line)]>
                        (clear_captures (pI + 2) 2
                           (<[S pI := Some (n, b)]>
                              (<[S (S pI) := Some (S n, b)]> (clear_captures pI 2 caps)))))
               | None =>
                   <[S pI := Some (n, b)]>
                     (<[S (S pI) := Some (S n, b)]> (clear_captures pI 2 caps))
               end)) as Hsecond.
  { change (ngroups positionBlock) with 2.
    pose proof line_column as Hcolumn. pose proof line_at_b as Hatb.
    destruct column as [col|] eqn:Hcol.
    - assert (col ≠ []) as Hcne by (by apply c_digits).
      assert (0 < length col) by (destruct col; [done|simpl; lia]).
      simpl in Hlen.
      rewrite (position_present _ (pI + 2) c _ (length (p ++ positionSuffix l (Some col))));
        cbn [endIndex captures]; [done| | |done| | |done].
      + by rewrite Hatb.
      + lia.
      + intros j ch Hj. apply (Hcolumn col); [done|lia].
      + intros ch Hch. apply lookup_lt_Some in Hch. lia.
    - simpl in Hlen. rewrite position_absent; cbn [endIndex captures].
      + do 2 f_equal. lia.
      + lia.
      + by rewrite Hatb. }
  rewrite m_seq.
  rewrite (position_present line pI _ _ b); cbn [endIndex captures].
  - exact Hsecond.
  - apply line_colon.
  - lia.
  - lia.
  - intros j ch Hj. by apply line_number.
  - apply line_after_number.
  - rewrite Hsecond. exact Hc.
Qed.

Local Ltac caps_lookup :=
  unfold clear_captures; cbn [seq foldr];
  repeat (rewrite list_lookup_insert_ne by lia);
  try (rewrite list_lookup_insert_eq by (rewrite ?length_insert; lia)).

(** The suffix of the pattern at the colon after the path: the first
    five forms fail, the sixth takes the colons and the digits. *)
Lemma suffix_at caps :
  length caps = 44 →
  ∃ z, m line (suffixOf (_localLinkRegex Linux)) 6 Some (mkState n caps) = Some z ∧
       endIndex z = length line ∧
       captures z !! 1 = caps !! 1 ∧
       captures z !! 41 = Some (Some (S n, b)) ∧
       ∀ c, column = Some c → captures z !! 43 = Some (Some (S b, length line)).
Proof using l_digits c_digits.
  intros Hcaps. rewrite suffix_shape, m_group.
  rewrite alts_skip.
  2:{ intros a pI' Ha.
      apply (late_form_fails line n); [apply line_late|exact (firstForms_reject a Ha)|].
      cbn [endIndex]. lia. }
  rewrite firstForms_groups. change (7 + 30) with 37.
  unfold sixthForm. rewrite m_group, m_seq, m_group.
  change (38 + ngroups (r_group (r_quant q_star sixthFormPath))) with 39.
  pose proof line_length as Hlen. pose proof line_colon as Hcolon.
  assert (n ≤ length line) as Hn by (rewrite Hlen; lia).
  rewrite (atom_star_run line sixthFormPath
             (class_matches true
                (ci_char 58 :: ci_escape esc_s
                   :: (ci_char <$> (str "()<>'" ++ [dquote] ++ str "[]"))))
             n eq_refl Hn);
    cbn [endIndex captures].
  - cbv beta. cbn [endIndex captures]. rewrite blocks_at by (cbv beta; eauto).
    cbv beta. cbn [endIndex captures]. eexists. split; [reflexivity|].
    cbn [endIndex captures]. split; [done|].
    pose proof c_digits as Hcd. clear c_digits.
    destruct column as [col|]; (split; [|split]); try (intros c0 [= <-]); try done;
      caps_lookup; try done.
    all: rewrite ?list_lookup_insert_eq by (rewrite ?length_insert; lia); done.
  - intros ch. rewrite Hcolon. intros [= <-]. vm_compute. reflexivity.
  - lia.
  - intros j ch Hj. lia.
  - rewrite blocks_at by (cbv beta; eauto). cbv beta. eauto.
Qed.

(** The whole pattern at index 0: the match is the whole line, group 1
    is the path, group 41 the line number, group 43 the column number. *)
Lemma path_position_match :
  ∃ r, match_at line (_localLinkRegex Linux) 0 = Some r ∧ index r = 0 ∧
       endIndex (final r) = length line ∧
       captures (final r) !! 1 = Some (Some (0, n)) ∧
       captures (final r) !! 41 = Some (Some (S n, b)) ∧
       ∀ c, column = Some c →
         captures (final r) !! 43 = Some (Some (S b, length line)).
Proof using p_path l_digits c_digits.
  unfold match_at.
  assert (length (replicate (S (ngroups (_localLinkRegex Linux))) (@None (nat * nat))) = 44)
    as Hcaps by (vm_compute; reflexivity).
  revert Hcaps.
  generalize (replicate (S (ngroups (_localLinkRegex Linux))) (@None (nat * nat))).
  intros caps Hcaps. rewrite unix_shape.
  set (x0 := mkState 0 caps). rewrite m_seq, m_group.
  set (K := fun y : MatchState => m line (suffixOf (_localLinkRegex Linux)) _ Some _).
  set (Q := fun z : MatchState =>
              endIndex z = length line ∧
              captures z !! 1 = Some (Some (0, n)) ∧
              captures z !! 41 = Some (Some (S n, b)) ∧
              ∀ c, column = Some c → captures z !! 43 = Some (Some (S b, length line))).
  assert (good_at n 44 K Q) as HK.
  { intros y Hy Hlen. unfold K. rewrite Hy. cbn [endIndex].
    destruct (suffix_at (<[1 := Some (0, n)]> (captures y)))
      as (z & Hz & Hend & H1 & H41 & H43); [by rewrite length_insert|].
    exists z. split; [exact Hz|]. split_and!; [done| |done..].
    rewrite H1. apply list_lookup_insert_eq. lia. }
  destruct (unix_path_chars p p_path) as (_ & j & Hj & Hlt).
  assert (line !! j = Some 47%N) as Hj'.
  { rewrite lookup_app_l; [done|]. by apply lookup_lt_Some in Hj. }
  destruct (unixPath_to_found line n 44 line_colon line_body Q 1 K x0 j HK) as [z Hz];
    [simpl; lia|done|done|done|].
  destruct (unixPath_to_cases line n 44 line_colon line_body Q 1 K x0 HK)
    as [Hnone|(z' & Hz' & Hend & H1 & H41 & H43)]; [simpl; lia|done|congruence|].
  rewrite Hz'. simpl. eauto 10.
Qed.

End PathWithPosition.

Lemma slice_prefix (a rest : jsstring) : JS.slice (a ++ rest) 0 (length a) = a.
Proof. unfold JS.slice. rewrite drop_0, Nat.sub_0_r. apply take_app_length. Qed.

Lemma slice_after (a : jsstring) x mid rest :
  JS.slice (a ++ x :: mid ++ rest) (S (length a)) (S (length a + length mid)) = mid.
Proof.
  unfold JS.slice. rewrite drop_app_ge by lia.
  replace (S (length a) - length a) with 1 by lia.
  replace (S (length a + length mid) - S (length a)) with (length mid) by lia.
  apply take_app_length.
Qed.

(** X16.  With the POSIX grammar, a line that is a path of the grammar
    followed by [:line] or [:line:column], both numbers made of digits,
    is found by the scan as one match, the whole line at index 0, so
    that the text that goes to the cache and to the resolver includes
    the position; group 1 of the match is the path, the group at
    [unixLineAndColumnMatchIndex] plus five times
    [lineAndColumnClauseGroupCount] is the line number, and the group two
    further is the column number when there is one. *)
Theorem posix_path_with_position p l column :
  unix_path p → digit_string l → (∀ c, column = Some c → digit_string c) →
  scan Linux (p ++ positionSuffix l column) =
    Some [mkItem (p ++ positionSuffix l column) 0 (p ++ positionSuffix l column) 0] ∧
  groupsAt Linux (p ++ positionSuffix l column)
    [0; 1; unixLineAndColumnMatchIndex + 5 * lineAndColumnClauseGroupCount]
    = [Some (p ++ positionSuffix l column); Some p; Some l] ∧
  ∀ c, column = Some c →
    groupsAt Linux (p ++ positionSuffix l column)
      [unixLineAndColumnMatchIndex + 5 * lineAndColumnClauseGroupCount + 2]
      = [Some c].
Proof.
  intros Hp Hl Hc.
  destruct (path_position_match p l column Hp Hl Hc)
    as (r & Hr & Hidx & Hend & H1 & H41 & H43).
  pose proof (line_length p l column) as Hlen.
  pose proof (line_unfold p l column) as Hline.
  set (line := p ++ positionSuffix l column) in *.
  assert (RegExp.matched line r = line) as Hm.
  { unfold RegExp.matched, JS.slice. rewrite Hidx, drop_0, Nat.sub_0_r.
    apply take_ge. lia. }
  assert (RegExp.exec line (_localLinkRegex Linux) 0 = Some r) as Hex0.
  { unfold RegExp.exec. change (Z.to_nat 0) with 0. rewrite Nat.sub_0_r.
    cbn [seq RegExp.first_match]. by rewrite Hr. }
  split; [|split].
  - assert (looksLikeDiff line line 0 = false) as Hdiff.
    { unfold looksLikeDiff. rewrite andb_false_r. simpl.
      destruct (JS.startsWith line (str "diff --git")) eqn:Hs; [|done].
      apply (JSFacts.startsWith_lookup _ _ 4 32%N) in Hs; [|done].
      apply list_elem_of_lookup_2, (line_not_space p l column Hp Hl Hc) in Hs. done. }
    assert (RegExp.exec line (_localLinkRegex Linux) (0 + Z.of_nat (length line)) = None)
      as Hex1.
    { unfold RegExp.exec. rewrite Z.add_0_l, Nat2Z.id.
      replace (S (length line) - length line) with 1 by lia. cbn [seq RegExp.first_match].
      rewrite unix_no_match; [done|].
      intros i Hi. rewrite (lookup_ge_None_2 line i) by lia. done. }
    unfold scan. replace (length line + 2) with (S (S (length line))) by lia.
    rewrite scanLoop_S, Hex0. cbv zeta. rewrite Hm.
    destruct line as [|ch line'] eqn:Hleq; [simpl in Hlen; lia|]. rewrite <-Hleq in *.
    replace (-1 + 1)%Z with 0%Z by lia. rewrite JSFacts.indexOf_self.
    simpl Z.ltb. cbv iota. unfold adjustDiff. rewrite Hdiff. cbn [fst snd].
    rewrite scanLoop_S, Hex1. done.
  - unfold groupsAt. rewrite Hex0.
    change (unixLineAndColumnMatchIndex + 5 * lineAndColumnClauseGroupCount) with 41.
    cbn [fmap list_fmap]. unfold RegExp.group. rewrite Hm, H1, H41.
    do 2 f_equal.
    + f_equal. apply slice_prefix.
    + do 2 f_equal. rewrite Hline. apply slice_after.
  - intros c Hcol. unfold groupsAt. rewrite Hex0.
    change (unixLineAndColumnMatchIndex + 5 * lineAndColumnClauseGroupCount + 2) with 43.
    cbn [fmap list_fmap]. unfold RegExp.group. rewrite (H43 c Hcol).
    do 2 f_equal. rewrite Hlen, Hline, Hcol.
    replace (p ++ 58%N :: l ++ 58%N :: c) with ((p ++ 58%N :: l) ++ 58%N :: c ++ [])
      by (by rewrite app_nil_r, <-app_assoc).
    replace (S (S (length p + length l))) with (S (length (p ++ 58%N :: l)))
      by (rewrite length_app; simpl; lia).
    replace (S (length p + length l) + length (58%N :: c))
      with (S (length (p ++ 58%N :: l) + length c))
      by (rewrite length_app; simpl; lia).
    apply slice_after.
Qed.

(** [foo/bar.ts:45:9] and [foo/bar.ts:45]. *)
Lemma posix_path_with_position_witness :
  unix_path (str "foo/bar.ts") ∧ digit_string (str "45") ∧ digit_string (str "9") ∧
  (scan Linux (str "foo/bar.ts:45:9") =
     Some [mkItem (str "foo/bar.ts:45:9") 0 (str "foo/bar.ts:45:9") 0] ∧
   groupsAt Linux (str "foo/bar.ts:45:9")
     [0; 1; unixLineAndColumnMatchIndex + 5 * lineAndColumnClauseGroupCount]
     = [Some (str "foo/bar.ts:45:9"); Some (str "foo/bar.ts"); Some (str "45")] ∧
   ∀ c, Some (str "9") = Some c →
     groupsAt Linux (str "foo/bar.ts:45:9")
       [unixLineAndColumnMatchIndex + 5 * lineAndColumnClauseGroupCount + 2]
       = [Some c]) ∧
  (scan Linux (str "foo/bar.ts:45") =
     Some [mkItem (str "foo/bar.ts:45") 0 (str "foo/bar.ts:45") 0] ∧
   groupsAt Linux (str "foo/bar.ts:45")
     [0; 1; unixLineAndColumnMatchIndex + 5 * lineAndColumnClauseGroupCount]
     = [Some (str "foo/bar.ts:45"); Some (str "foo/bar.ts"); Some (str "45")] ∧
   ∀ c, None = Some c →
     groupsAt Linux (str "foo/bar.ts:45")
       [unixLineAndColumnMatchIndex + 5 * lineAndColumnClauseGroupCount + 2]
       = [Some c]).
Proof.
  assert (unix_path (str "foo/bar.ts")) as Hp.
  { exists (str "foo"), [str "bar.ts"]. split_and!; [reflexivity| |discriminate|].
    - right. right. split; [discriminate|].
      repeat constructor; apply body_class; vm_compute; reflexivity.
    - repeat constructor; try discriminate; apply body_class; vm_compute; reflexivity. }
  assert (digit_string (str "45")) as Hl by (split; [discriminate|repeat constructor]).
  assert (digit_string (str "9")) as Hc by (split; [discriminate|repeat constructor]).
  split; [exact Hp|]. split; [exact Hl|]. split; [exact Hc|]. split.
  - apply (posix_path_with_position (str "foo/bar.ts") (str "45") (Some (str "9")) Hp Hl).
    intros c [= <-]. exact Hc.
  - apply (posix_path_with_position (str "foo/bar.ts") (str "45") None Hp Hl).
    intros c [=].
Defined.
